(** * scratch-paint, [src/helper/bitmap.js]: a shallow embedding and its verification

    The file has three parts.  Part I translates the functions of
    [bitmap.js] that the specification talks about: the Bresenham line
    walker [forEachLinePoint], the quadratic solver [solveQuadratic_],
    the guards of [drawShearedEllipse_] and [drawEllipse], the bounds
    trimmer [getHitBounds] and the two flood fills; and with them
    [trim_] and [getBrushMark].  Part II states and proves the properties
    that the specification gives.  Part III proves further properties of
    the same functions, read off the code. *)

From Stdlib Require Import ZArith QArith Qabs Qround Qpower Lia Bool List.
From Stdlib Require Import PrimFloat.
From Stdlib Require FloatOps SpecFloat FloatAxioms.
From stdpp Require Import base list strings.

Local Open Scope Z_scope.

(* ===================================================================== *)
(** * Part I: the embedding                                               *)
(* ===================================================================== *)

(** ** JavaScript numbers and [~~]

    A JavaScript number is a double: a finite (dyadic) rational, [NaN] or
    one of the two infinities.  Apart from the quadratic solver, which
    has a section of its own, the functions modelled here only apply
    exact operations to their numeric inputs ([~~], [Math.abs], a
    subtraction of [.5] from a 32-bit integer, a division of a 32-bit
    integer by 2, comparisons), so a finite number is carried as the
    rational it denotes; every double is a value of [number].  Negative
    zero is identified with zero, which none of these operations can
    tell apart. *)

Inductive number : Type :=
| NaN
| PInf
| NInf
| Fin (q : Q).

(** Truncation toward zero of a rational. *)
Definition trunc (q : Q) : Z := Z.quot (Qnum q) (Zpos (Qden q)).

(** Reduction of an integer to the signed 32-bit range. *)
Definition wrap32 (n : Z) : Z :=
  let m := n mod 2 ^ 32 in
  if m >=? 2 ^ 31 then m - 2 ^ 32 else m.

(** [~~x], that is ToInt32: [NaN] and the infinities go to [0], a finite
    number is truncated toward zero and reduced modulo 2^32. *)
Definition toInt32 (x : number) : Z :=
  match x with
  | Fin q => wrap32 (trunc q)
  | _ => 0
  end.

(** [Math.abs]. *)
Definition abs (x : number) : number :=
  match x with
  | NaN => NaN
  | PInf | NInf => PInf
  | Fin q => Fin (Qabs q)
  end.

(** The left shift [a << k] of an integer [a]: the result is a signed
    32-bit integer. *)
Definition shl32 (a k : Z) : Z := wrap32 (Z.shiftl a k).

(** ** LineRasterizer: [forEachLinePoint] *)

Record Point : Type := mkPoint { pt_x : number; pt_y : number }.

(** One iteration of the [while] body: both tests read the [e2] computed
    before either update. *)
Definition line_step (dx dy sx sy : Z) (st : Z * Z * Z) : Z * Z * Z :=
  let '(x1, y1, err) := st in
  let e2 := err * 2 in
  let '(err, x1) := if e2 >? - dy then (err - dy, x1 + sx) else (err, x1) in
  let '(err, y1) := if e2 <? dx then (err + dx, y1 + sy) else (err, y1) in
  (x1, y1, err).

(** The [while (x1 !== x2 || y1 !== y2)] loop.  The callback is opaque to
    the function, so the loop returns the arguments of its invocations
    in order.  [fuel] bounds the number of iterations; [None] means
    that it ran out. *)
Fixpoint line_loop (fuel : nat) (x2 y2 dx dy sx sy : Z) (x1 y1 err : Z)
  : option (list (Z * Z)) :=
  if negb (x1 =? x2) || negb (y1 =? y2) then
    match fuel with
    | O => None
    | S fuel' =>
        let '(x1', y1', err') := line_step dx dy sx sy (x1, y1, err) in
        cons (x1', y1') <$> line_loop fuel' x2 y2 dx dy sx sy x1' y1' err'
    end
  else Some [].

Definition forEachLinePoint (fuel : nat) (point1 point2 : Point)
  : option (list (Z * Z)) :=
  let x1 := toInt32 (pt_x point1) in
  let x2 := toInt32 (pt_x point2) in
  let y1 := toInt32 (pt_y point1) in
  let y2 := toInt32 (pt_y point2) in
  let dx := Z.abs (x2 - x1) in
  let dy := Z.abs (y2 - y1) in
  let sx := if x1 <? x2 then 1 else -1 in
  let sy := if y1 <? y2 then 1 else -1 in
  let err := dx - dy in
  cons (x1, y1) <$> line_loop fuel x2 y2 dx dy sx sy x1 y1 err.

(** ** QuadraticSolver: [solveQuadratic_]

    The arithmetic of the solver rounds ([*], [-], [+], [/],
    [Math.sqrt]), so its numbers are doubles as they are: the primitive
    binary64 floats, whose operations round to nearest, ties to even, as
    those of JavaScript do ([Math.sqrt] is the correctly rounded square
    root).  [soln1 > soln2] is [soln2 < soln1]; a comparison with [NaN]
    is false. *)


(** ** EllipseRasterizer: the guards of [drawShearedEllipse_] and
    [drawEllipse] *)

Record EllipseOptions : Type := mkOptions {
  centerX : number;
  centerY : number;
  radiusX : number;
  radiusY : number;
  shearSlope : number;
  isFilled : bool
}.

Record Matrix : Type := mkMatrix {
  m_a : number; m_b : number; m_c : number;
  m_d : number; m_tx : number; m_ty : number
}.

(** What a call does: it returns a boolean and leaves the drawing context
    in some state, or it throws. *)
Inductive outcome (Ctx : Type) : Type :=
| Returned (value : bool) (context : Ctx)
| Thrown.
Arguments Returned {Ctx} value context.
Arguments Thrown {Ctx}.

Definition Qltb (p q : Q) : bool := negb (Qle_bool q p).

Section Ellipse.

(** The drawing context, written through [context.fillRect] only. *)
Variable Ctx : Type.

(** Lines 67-188 of [drawShearedEllipse_]: the stepping of the ellipse in
    double arithmetic, which writes through [context.fillRect] and ends in
    [return true], unless it throws ([None]).  Its arguments are the
    truncated center, the inset radii, the shear slope and the fill flag. *)
Variable stepEllipse : Z -> Z -> Q -> Q -> number -> bool -> Ctx -> option Ctx.

(** [matrix.isInvertible()] of paper.js. *)
Variable isInvertible : Matrix -> bool.

(** Lines 207-219 of [drawEllipse]: from the inverted matrix and the two
    radii to [(radiusA, radiusB, slope)], in double arithmetic. *)
Variable shearedForm : number -> number -> Matrix -> number * number * number.

Definition drawShearedEllipse_ (options : EllipseOptions) (context : Ctx)
  : outcome Ctx :=
  let centerX := toInt32 (centerX options) in
  let centerY := toInt32 (centerY options) in
  let radiusX := (inject_Z (toInt32 (abs (radiusX options))) - (1 # 2))%Q in
  let radiusY := (inject_Z (toInt32 (abs (radiusY options))) - (1 # 2))%Q in
  let shearSlope := shearSlope options in
  let isFilled := isFilled options in
  if (match shearSlope with PInf => true | _ => false end)
     || Qltb radiusX 1 || Qltb radiusY 1
  then Returned false context
  else
    match stepEllipse centerX centerY radiusX radiusY shearSlope isFilled context with
    | Some context' => Returned true context'
    | None => Thrown
    end.

Definition drawEllipse (positionX positionY radiusX radiusY : number)
    (matrix : Matrix) (isFilled : bool) (context : Ctx) : outcome Ctx :=
  if negb (isInvertible matrix) then Returned false context
  else
    let '(radiusA, radiusB, slope) := shearedForm radiusX radiusY matrix in
    drawShearedEllipse_
      {| centerX := positionX; centerY := positionY;
         radiusX := radiusA; radiusY := radiusB;
         shearSlope := slope; isFilled := isFilled |}
      context.

End Ellipse.

(** ** Pixel buffers *)

(** An [ImageData]: [data] holds four bytes per pixel, row by row. *)
Record ImageData : Type := mkImage {
  width : Z;
  height : Z;
  data : list Z
}.

(** [data[i]]: [None] stands for [undefined], the value of a read outside
    the array. *)
Definition data_get (d : list Z) (i : Z) : option Z :=
  if i <? 0 then None else d !! Z.to_nat i.

(** [data[i] = v]: a typed array ignores a write outside its bounds. *)
Definition data_set (d : list Z) (i : Z) (v : Z) : list Z :=
  if i <? 0 then d else <[Z.to_nat i := v]> d.

(** ** BoundsTrimmer: [getHitBounds] *)

(** [data[i] !== 0]. *)
Definition nonzero (v : option Z) : bool :=
  match v with
  | Some b => negb (b =? 0)
  | None => true
  end.

(** The index [(y * width << 2) + (x << 2) + 3] of the alpha byte. *)
Definition alpha_index (width x y : Z) : Z :=
  shl32 (y * width) 2 + shl32 x 2 + 3.

(** [for (let x = 0; x < width; ++x) if (... !== 0) return false;
    return true]. *)
Definition rowBlank_ (imageData : ImageData) (width y : Z) : bool :=
  forallb
    (fun x => negb (nonzero (data_get (data imageData) (alpha_index width x y))))
    (seqZ 0 width).

(** [for (let y = top; y < bottom; ++y) if (... !== 0) return false;
    return true]. *)
Definition columnBlank_ (imageData : ImageData) (width x top bottom : Z) : bool :=
  forallb
    (fun y => negb (nonzero (data_get (data imageData) (alpha_index width x y))))
    (seqZ top (bottom - top)).

(** The four [while] loops of [getHitBounds]; each runs at most
    [bottom - top] (or [right - left]) times, which is the fuel [n] it is
    called with. *)
Fixpoint trimTop (n : nat) (imageData : ImageData) (width top bottom : Z) : Z :=
  match n with
  | O => top
  | S n' =>
      if (top <? bottom) && rowBlank_ imageData width top
      then trimTop n' imageData width (top + 1) bottom
      else top
  end.

Fixpoint trimBottom (n : nat) (imageData : ImageData) (width top bottom : Z) : Z :=
  match n with
  | O => bottom
  | S n' =>
      if (bottom - 1 >? top) && rowBlank_ imageData width (bottom - 1)
      then trimBottom n' imageData width top (bottom - 1)
      else bottom
  end.

Fixpoint trimLeft (n : nat) (imageData : ImageData) (width left right top bottom : Z)
  : Z :=
  match n with
  | O => left
  | S n' =>
      if (left <? right) && columnBlank_ imageData width left top bottom
      then trimLeft n' imageData width (left + 1) right top bottom
      else left
  end.

Fixpoint trimRight (n : nat) (imageData : ImageData) (width left right top bottom : Z)
  : Z :=
  match n with
  | O => right
  | S n' =>
      if (right - 1 >? left) && columnBlank_ imageData width (right - 1) top bottom
      then trimRight n' imageData width left (right - 1) top bottom
      else right
  end.

(** [new paper.Rectangle(x, y, width, height)]. *)
Record Rectangle : Type := mkRectangle {
  rect_x : Z; rect_y : Z; rect_width : Z; rect_height : Z
}.

(** A paper.js raster: the pixels of its canvas, whose size is
    [raster.width] by [raster.height], and [raster.bounds], the rectangle
    that the raster occupies in the project.  The bounds of a raster that
    is neither scaled nor rotated have the size of its canvas; they are
    [(0, 0, width, height)] when the raster is centered on the middle of
    its own size.  Rectangles have integer coordinates here. *)
Record Raster : Type := mkRaster {
  raster_canvas : ImageData;
  raster_bounds : Rectangle
}.

(** Byte [k] of what [context.getImageData] returns for the pixel
    [(x, y)] of a canvas: the channel [k] of that pixel, and 0 for a pixel
    outside the canvas, which reads as transparent black. *)
Definition canvas_byte (canvas : ImageData) (x y k : Z) : Z :=
  if (0 <=? x) && (x <? width canvas) && (0 <=? y) && (y <? height canvas)
  then default 0 (data_get (data canvas) ((y * width canvas + x) * 4 + k))
  else 0.

(** [raster.getImageData(rect)] of paper.js:
    [if (rect.isEmpty()) rect = new Rectangle(this._size);
     return this.getContext().getImageData(rect.x, rect.y, rect.width,
     rect.height)].
    The image data has the size of [rect] and holds, row by row, the
    pixels of the canvas in the window [rect].  This is what the browser
    returns for a rectangle of positive width and height; it refuses one
    that is still empty and mirrors one with a negative side, and
    neither arises for the bounds of a raster that has pixels. *)
Definition getImageData (raster : Raster) (rect : Rectangle) : ImageData :=
  let canvas := raster_canvas raster in
  let rect :=
    if (rect_width rect =? 0) || (rect_height rect =? 0)
    then mkRectangle 0 0 (width canvas) (height canvas)
    else rect in
  mkImage (rect_width rect) (rect_height rect)
    (flat_map
       (fun j =>
          flat_map
            (fun i =>
               let byte := canvas_byte canvas (rect_x rect + i) (rect_y rect + j) in
               [byte 0; byte 1; byte 2; byte 3])
            (seqZ 0 (rect_width rect)))
       (seqZ 0 (rect_height rect))).

Definition getHitBounds (raster : Raster) : Rectangle :=
  let rwidth := width (raster_canvas raster) in
  let imageData := getImageData raster (raster_bounds raster) in
  let top := 0 in
  let bottom := height imageData in
  let left := 0 in
  let right := width imageData in
  let top := trimTop (Z.to_nat (bottom - top)) imageData rwidth top bottom in
  let bottom := trimBottom (Z.to_nat (bottom - top)) imageData rwidth top bottom in
  let left :=
    trimLeft (Z.to_nat (right - left)) imageData rwidth left right top bottom in
  let right :=
    trimRight (Z.to_nat (right - left)) imageData rwidth left right top bottom in
  mkRectangle left top (right - left) (bottom - top).

(** ** FloodFiller: [floodFill] and [floodFillAll] *)

(** A colour: the length-4 array [[r, g, b, a]]. *)
Record Color : Type := RGBA { c0 : Z; c1 : Z; c2 : Z; c3 : Z }.

#[global] Instance Color_eq_dec : EqDecision Color.
Proof. solve_decision. Defined.

Definition color_eqb (p q : Color) : bool :=
  (c0 p =? c0 q) && (c1 p =? c1 q) && (c2 p =? c2 q) && (c3 p =? c3 q).

(** The 2D context is the pixel buffer of its canvas:
    [context.getImageData(0, 0, canvas.width, canvas.height)] is a copy of
    it and [context.putImageData(imageData, 0, 0)] replaces it. *)

(** [getColor_]: [context.getImageData(x, y, 1, 1).data]; a pixel outside
    the canvas reads as transparent black. *)
Definition getColor_ (x y : Z) (context : ImageData) : Color :=
  if (0 <=? x) && (x <? width context) && (0 <=? y) && (y <? height context)
  then
    let index := (y * width context + x) * 4 in
    let byte i := default 0 (data_get (data context) i) in
    RGBA (byte (index + 0)) (byte (index + 1)) (byte (index + 2)) (byte (index + 3))
  else RGBA 0 0 0 0.

(** [data[i] === c] for a number [c]. *)
Definition same (v : option Z) (c : Z) : bool :=
  match v with
  | Some b => b =? c
  | None => false
  end.

Definition matchesColor_ (x y : Z) (imageData : ImageData) (oldColor : Color)
  : bool :=
  let index := (y * width imageData + x) * 4 in
  same (data_get (data imageData) (index + 0)) (c0 oldColor) &&
  same (data_get (data imageData) (index + 1)) (c1 oldColor) &&
  same (data_get (data imageData) (index + 2)) (c2 oldColor) &&
  same (data_get (data imageData) (index + 3)) (c3 oldColor).

Definition colorPixel_ (x y : Z) (imageData : ImageData) (newColor : Color)
  : ImageData :=
  let index := (y * width imageData + x) * 4 in
  let d := data imageData in
  let d := data_set d (index + 0) (c0 newColor) in
  let d := data_set d (index + 1) (c1 newColor) in
  let d := data_set d (index + 2) (c2 newColor) in
  let d := data_set d (index + 3) (c3 newColor) in
  mkImage (width imageData) (height imageData) d.

(** [while (y > 0 && matchesColor_(x, y - 1, imageData, oldColor)) y--]:
    at most [y] iterations. *)
Fixpoint climb (n : nat) (x y : Z) (imageData : ImageData) (oldColor : Color)
  : Z :=
  match n with
  | O => y
  | S n' =>
      if (y >? 0) && matchesColor_ x (y - 1) imageData oldColor
      then climb n' x (y - 1) imageData oldColor
      else y
  end.

(** The body of the [for] loop after its [break] test.  The stack is a
    list whose head is the top: [stack.push(e)] is [e :: stack]. *)
Definition scanRow (x y : Z) (imageData : ImageData) (newColor oldColor : Color)
    (stack : list (Z * Z)) (lastLeftMatchedColor lastRightMatchedColor : bool)
  : ImageData * list (Z * Z) * bool * bool :=
  let imageData := colorPixel_ x y imageData newColor in
  let '(stack, lastLeftMatchedColor) :=
    if x >? 0 then
      if matchesColor_ (x - 1) y imageData oldColor then
        if negb lastLeftMatchedColor
        then ((x - 1, y) :: stack, true)
        else (stack, lastLeftMatchedColor)
      else (stack, false)
    else (stack, lastLeftMatchedColor) in
  let '(stack, lastRightMatchedColor) :=
    if x <? width imageData - 1 then
      if matchesColor_ (x + 1) y imageData oldColor then
        if negb lastRightMatchedColor
        then ((x + 1, y) :: stack, true)
        else (stack, lastRightMatchedColor)
      else (stack, false)
    else (stack, lastRightMatchedColor) in
  (imageData, stack, lastLeftMatchedColor, lastRightMatchedColor).

(** [for (; y < imageData.height; y++) { if (!matchesColor_(...)) break;
    ... }]: at most [height - y] iterations. *)
Fixpoint scan (n : nat) (x y : Z) (imageData : ImageData)
    (newColor oldColor : Color) (stack : list (Z * Z))
    (lastLeftMatchedColor lastRightMatchedColor : bool)
  : ImageData * list (Z * Z) :=
  match n with
  | O => (imageData, stack)
  | S n' =>
      if y <? height imageData then
        if matchesColor_ x y imageData oldColor then
          let '(imageData, stack, lastLeftMatchedColor, lastRightMatchedColor) :=
            scanRow x y imageData newColor oldColor stack
              lastLeftMatchedColor lastRightMatchedColor in
          scan n' x (y + 1) imageData newColor oldColor stack
            lastLeftMatchedColor lastRightMatchedColor
        else (imageData, stack)
      else (imageData, stack)
  end.

Definition floodFillInternal_ (x y : Z) (imageData : ImageData)
    (newColor oldColor : Color) (stack : list (Z * Z))
  : ImageData * list (Z * Z) :=
  let y := climb (Z.to_nat y) x y imageData oldColor in
  scan (Z.to_nat (height imageData - y)) x y imageData newColor oldColor stack
    false false.

(** [while (stack.length) { const pop = stack.pop(); floodFillInternal_(...) }].
    [fuel] bounds the number of pops; [None] means that it ran out. *)
Fixpoint fillLoop (fuel : nat) (imageData : ImageData)
    (newColor oldColor : Color) (stack : list (Z * Z)) : option ImageData :=
  match stack with
  | [] => Some imageData
  | pop :: stack =>
      match fuel with
      | O => None
      | S fuel' =>
          let '(imageData, stack) :=
            floodFillInternal_ pop.1 pop.2 imageData newColor oldColor stack in
          fillLoop fuel' imageData newColor oldColor stack
      end
  end.

Section Fill.

(** [fillStyleToColor_]: the colour that the browser paints for a fill
    style string. *)
Variable fillStyleToColor_ : string -> Color.

(** The result is the returned boolean and the pixels of the context
    after the call. *)
Definition floodFill (fuel : nat) (x y : number) (color : string)
    (context : ImageData) : option (bool * ImageData) :=
  let x := toInt32 x in
  let y := toInt32 y in
  let newColor := fillStyleToColor_ color in
  let oldColor := getColor_ x y context in
  let imageData := context in
  if color_eqb oldColor newColor then Some (false, context)
  else
    match fillLoop fuel imageData newColor oldColor [(x, y)] with
    | Some imageData => Some (true, imageData)
    | None => None
    end.

(** The two [for] loops visit the columns [i] in order and, in each, the
    rows [j] in order; [colorPixel_] leaves [width] and [height] as they
    are. *)
Definition floodFillAll (x y : number) (color : string) (context : ImageData)
  : bool * ImageData :=
  let x := toInt32 x in
  let y := toInt32 y in
  let newColor := fillStyleToColor_ color in
  let oldColor := getColor_ x y context in
  let imageData := context in
  if color_eqb oldColor newColor then (false, context)
  else
    let imageData :=
      foldl
        (fun imageData i =>
           foldl
             (fun imageData j =>
                if matchesColor_ i j imageData oldColor
                then colorPixel_ i j imageData newColor
                else imageData)
             imageData (seqZ 0 (height imageData)))
        imageData (seqZ 0 (width imageData)) in
    (true, imageData).

End Fill.

(** ** BoundsTrimmer: [trim_] *)

Section TrimRaster.

(** A paper.js raster cut out of another one, and
    [raster.getSubRaster(rect)]. *)
Variable SubRaster : Type.
Variable getSubRaster : Raster -> Rectangle -> SubRaster.

(** [None] is [null].  In the test [hitBounds.width && hitBounds.height]
    a number counts as true when it is not zero. *)
Definition trim_ (raster : Raster) : option SubRaster :=
  let hitBounds := getHitBounds raster in
  if negb (rect_width hitBounds =? 0) && negb (rect_height hitBounds =? 0)
  then Some (getSubRaster raster (getHitBounds raster))
  else None.

End TrimRaster.

(** ** BrushMark: [getBrushMark] *)

(** What [getBrushMark] does to the 2D context of its canvas: the
    assignments and calls, in the order in which they are made. *)
Inductive command : Type :=
| ImageSmoothingEnabled (enabled : bool)
| FillStyle (style : string)
| FillRect (x y w h : Z).

(** The canvas that [getBrushMark] creates: the values assigned to
    [canvas.width] and [canvas.height], and what was done to its
    context. *)
Record Canvas : Type := mkCanvas {
  canvas_width : Z;
  canvas_height : Z;
  canvas_context : list command
}.

Section BrushMark.

(** The stepping of [drawShearedEllipse_] (see section [Ellipse]) on the
    context of the canvas. *)
Variable stepEllipse :
  Z -> Z -> Q -> Q -> number -> bool -> list command -> option (list command).

(** [getGuideColor()] of [helper/guides.js]. *)
Variable getGuideColor : string.

(** [None] stands for an exception thrown by [drawShearedEllipse_].
    [size] is a 32-bit integer after [size = ~~size], so [size / 2] is
    exact, and [size % 2] is the remainder with the sign of [size]. *)
Definition getBrushMark (size : number) (color : string) (isEraser : bool)
  : option Canvas :=
  let size := toInt32 size in
  let roundedUpRadius := Qceiling (inject_Z size / 2) in
  let canvas_width := roundedUpRadius * 2 in
  let canvas_height := roundedUpRadius * 2 in
  let context := [ImageSmoothingEnabled false] in
  let context := context ++ [FillStyle (if isEraser then "white"%string else color)] in
  if size <=? 5 then
    let offset := 0 in
    let offset := if negb (Z.rem size 2 =? 0) then 1 else offset in
    let context :=
      if isEraser then
        context ++
        [FillStyle getGuideColor;
         FillRect offset offset size size;
         FillStyle "white";
         FillRect (offset + 1) (offset + 1) (size - 2) (size - 2)]
      else context ++ [FillRect offset offset size size] in
    Some (mkCanvas canvas_width canvas_height context)
  else
    let half := Fin (inject_Z size / 2) in
    let options isFilled :=
      {| centerX := half; centerY := half; radiusX := half; radiusY := half;
         shearSlope := Fin 0; isFilled := isFilled |} in
    match drawShearedEllipse_ (list command) stepEllipse (options true) context with
    | Thrown => None
    | Returned _ context =>
        if isEraser then
          let context := context ++ [FillStyle getGuideColor] in
          match
            drawShearedEllipse_ (list command) stepEllipse (options false) context
          with
          | Thrown => None
          | Returned _ context =>
              Some (mkCanvas canvas_width canvas_height context)
          end
        else Some (mkCanvas canvas_width canvas_height context)
    end.

End BrushMark.

(** ** Vocabulary of the statements *)

(** *** Paths of the line walker *)

(** Consecutive points of a path starting at [p] differ by at most one on
    each axis. *)
Fixpoint steps_ok (p : Z * Z) (l : list (Z * Z)) : Prop :=
  match l with
  | [] => True
  | q :: l' =>
      Z.abs (q.1 - p.1) <= 1 /\ Z.abs (q.2 - p.2) <= 1 /\ steps_ok q l'
  end.

(** A point lies at most [rx] steps before [x2] and [ry] steps before
    [y2], in the direction of travel. *)
Definition in_box (x2 y2 sx sy rx ry : Z) (p : Z * Z) : Prop :=
  0 <= sx * (x2 - p.1) <= rx /\ 0 <= sy * (y2 - p.2) <= ry.

(** The pixel that lies [r.1] steps before [x2] and [r.2] steps before
    [y2], in the direction of travel [(sx, sy)]. *)
Definition place (x2 y2 sx sy : Z) (r : Z * Z) : Z * Z :=
  (x2 - sx * r.1, y2 - sy * r.2).

(** *** Radii and slopes of the ellipse guard *)

(** The radius that the guard of [drawShearedEllipse_] tests: the
    truncated absolute value, inset by half a pixel. *)
Definition inset_radius (r : number) : Q :=
  (inject_Z (toInt32 (abs r)) - (1 # 2))%Q.

(** A radius that is [NaN] or of magnitude below 2. *)
Definition below_two (r : number) : Prop :=
  match r with
  | NaN => True
  | Fin q => (Qabs q < 2)%Q
  | PInf | NInf => False
  end.


(** *** Pixels of a buffer *)

(** A pixel buffer is well formed when it holds four bytes for each of
    its [width * height] pixels. *)
Definition wf_image (img : ImageData) : Prop :=
  0 <= width img /\ 0 <= height img /\
  Z.of_nat (length (data img)) = 4 * width img * height img.

(** The byte offsets of the buffer are below 2^31, so that the 32-bit
    shifts of [rowBlank_] and [columnBlank_] are exact. *)
Definition int32_indexed (img : ImageData) : Prop :=
  4 * width img * height img < 2 ^ 31.

(** The pixel [(x, y)] lies in the buffer. *)
Definition in_bounds (img : ImageData) (x y : Z) : Prop :=
  0 <= x < width img /\ 0 <= y < height img.

(** The alpha byte of a pixel, read the way [getColor_] reads it. *)
Definition alpha (img : ImageData) (x y : Z) : Z := c3 (getColor_ x y img).

(** The pixel [(x, y)] lies in a rectangle. *)
Definition contains (r : Rectangle) (x y : Z) : Prop :=
  rect_x r <= x < rect_x r + rect_width r /\
  rect_y r <= y < rect_y r + rect_height r.

(** *** Components and the invariant of the scoped fill *)

(** Two pixels are 4-adjacent: they differ by one on exactly one axis. *)
Definition adjacent (p q : Z * Z) : Prop :=
  (p.1 = q.1 /\ Z.abs (p.2 - q.2) = 1) \/
  (p.2 = q.2 /\ Z.abs (p.1 - q.1) = 1).

(** [connected img c seed q]: [q] lies in the 4-connected component of
    [seed] among the pixels of [img] whose four channels equal [c]. *)
Inductive connected (img : ImageData) (c : Color) (seed : Z * Z)
  : Z * Z -> Prop :=
| connected_seed :
    in_bounds img seed.1 seed.2 ->
    getColor_ seed.1 seed.2 img = c ->
    connected img c seed seed
| connected_step (p q : Z * Z) :
    connected img c seed p ->
    adjacent p q ->
    in_bounds img q.1 q.2 ->
    getColor_ q.1 q.2 img = c ->
    connected img c seed q.

(** The number of pixels of colour [c] among the first [n] pixels in row
    order, and in the whole buffer. *)
Fixpoint count_upto (img : ImageData) (c : Color) (n : nat) : nat :=
  match n with
  | O => O
  | S n' =>
      count_upto img c n' +
      (if color_eqb
            (getColor_ (Z.of_nat n' mod width img) (Z.of_nat n' / width img) img) c
       then 1 else 0)
  end.

Definition count_color (img : ImageData) (c : Color) : nat :=
  count_upto img c (Z.to_nat (width img * height img)).

(** The test that [floodFillInternal_] makes on one neighbour [(xs, y)] of
    the pixel it has just recoloured; [inside] is [x > 0] for the left
    neighbour and [x < width - 1] for the right one.  [scanRow] is the
    recolouring followed by this test on the left and on the right
    (lemma [scanRow_sides]). *)
Definition neighbourStep (inside : bool) (xs y : Z) (imageData : ImageData)
    (oldColor : Color) (stack : list (Z * Z)) (lastMatchedColor : bool)
  : list (Z * Z) * bool :=
  if inside then
    if matchesColor_ xs y imageData oldColor then
      if negb lastMatchedColor
      then ((xs, y) :: stack, true)
      else (stack, lastMatchedColor)
    else (stack, false)
  else (stack, lastMatchedColor).

(** Row [r] of column [xs] is joined to a stack entry above it by pixels
    of colour [c]. *)
Definition reach (img : ImageData) (c : Color) (stack : list (Z * Z))
    (xs r : Z) : Prop :=
  exists py, (xs, py) ∈ stack /\ py <= r /\
    forall r', py <= r' <= r -> getColor_ xs r' img = c.

(** The invariant of the [while (stack.length)] loop of [floodFill].
    [img0] is the buffer at the call and [img] the current one; a pixel is
    recoloured when it had colour [old] in [img0] and has colour [new] in
    [img].
    - recoloured pixels lie in the component of the seed, all others are
      as in [img0];
    - stack entries lie in the component of the seed;
    - two vertically adjacent pixels of colour [old] in [img0] are both
      recoloured or both not;
    - a pixel that still has colour [old] and is the seed, or has a
      recoloured pixel to its left or right, is joined to a stack entry of
      its column by pixels of colour [old] in [img0]. *)
Definition fill_inv (img0 : ImageData) (old new : Color) (seed : Z * Z)
    (img : ImageData) (stack : list (Z * Z)) : Prop :=
  wf_image img /\ width img = width img0 /\ height img = height img0 /\
  (forall x y,
      getColor_ x y img = getColor_ x y img0 \/
      (getColor_ x y img0 = old /\ getColor_ x y img = new /\
       connected img0 old seed (x, y))) /\
  (forall p, p ∈ stack -> connected img0 old seed p) /\
  (forall x y,
      in_bounds img0 x y -> in_bounds img0 x (y + 1) ->
      getColor_ x y img0 = old -> getColor_ x (y + 1) img0 = old ->
      (getColor_ x y img = old <-> getColor_ x (y + 1) img = old)) /\
  (forall x y,
      in_bounds img0 x y -> getColor_ x y img = old ->
      ((x, y) = seed \/
       exists x', (x' = x - 1 \/ x' = x + 1) /\ in_bounds img0 x' y /\
                  getColor_ x' y img0 = old /\ getColor_ x' y img = new) ->
      exists sy, (x, sy) ∈ stack /\
        forall r, Z.min sy y <= r <= Z.max sy y -> getColor_ x r img0 = old).

(** *** Buffers of the examples *)

(** A 4 x 5 buffer whose only pixel of nonzero alpha is (3, 4). *)
Definition single_pixel_image : ImageData :=
  mkImage 4 5 (replicate 79 0 ++ [255]).

(** The 10 x 10 buffer of transparent black pixels, and the same buffer
    with every pixel set to (255, 0, 0, 255). *)
Definition blank_10x10 : ImageData := mkImage 10 10 (replicate 400 0).

Definition red_10x10 : ImageData :=
  mkImage 10 10 (concat (replicate 100 [255; 0; 0; 255])).

(** A 5 x 5 buffer: a white centre pixel and a white border, separated by
    a black ring; and the same buffer with the centre, or with all white
    pixels, turned red. *)
Definition ring_rows (centre border : list Z) : list Z :=
  let B := [0; 0; 0; 255] in
  concat [border; border; border; border; border;
          border; B;      B;      B;      border;
          border; B;      centre; B;      border;
          border; B;      B;      B;      border;
          border; border; border; border; border].

Definition ring_5x5 : ImageData :=
  mkImage 5 5 (ring_rows [255; 255; 255; 255] [255; 255; 255; 255]).

Definition ring_5x5_centre_red : ImageData :=
  mkImage 5 5 (ring_rows [255; 0; 0; 255] [255; 255; 255; 255]).

Definition ring_5x5_all_red : ImageData :=
  mkImage 5 5 (ring_rows [255; 0; 0; 255] [255; 0; 0; 255]).

(** *** Colours that a pixel can hold *)

(** The four channels are bytes: the values that the clamped byte array
    of an [ImageData] stores unchanged. *)
Definition byte_color (c : Color) : Prop :=
  0 <= c0 c <= 255 /\ 0 <= c1 c <= 255 /\ 0 <= c2 c <= 255 /\ 0 <= c3 c <= 255.

(** *** Truncation toward zero *)

(** The integer part of a rational number: its floor when it is not
    negative, its ceiling otherwise.  This is truncation toward zero in
    the words of the specification, by the rounding functions of the
    standard library; the conversion of the code is [toInt32]. *)
Definition truncate (q : Q) : Z :=
  if Qle_bool 0 q then Qfloor q else Qceiling q.

(** An integer of the signed 32-bit range. *)
Definition fits_int32 (n : Z) : Prop := - 2 ^ 31 <= n < 2 ^ 31.

(** *** The scan of [getHitBounds] and the placement of a raster *)

(** Lines 302 to 312 of [getHitBounds]: the four loops and the resulting
    rectangle, for the width [rwidth] of the raster and the image data
    read at its bounds ([getHitBounds_scan]). *)
Definition scanBounds (rwidth : Z) (imageData : ImageData) : Rectangle :=
  let top := 0 in
  let bottom := height imageData in
  let left := 0 in
  let right := width imageData in
  let top := trimTop (Z.to_nat (bottom - top)) imageData rwidth top bottom in
  let bottom := trimBottom (Z.to_nat (bottom - top)) imageData rwidth top bottom in
  let left :=
    trimLeft (Z.to_nat (right - left)) imageData rwidth left right top bottom in
  let right :=
    trimRight (Z.to_nat (right - left)) imageData rwidth left right top bottom in
  mkRectangle left top (right - left) (bottom - top).

(** The bounds of the raster have the size of its canvas: the raster is
    neither scaled nor rotated. *)
Definition unscaled (raster : Raster) : Prop :=
  rect_width (raster_bounds raster) = width (raster_canvas raster) /\
  rect_height (raster_bounds raster) = height (raster_canvas raster).

(** The bounds of the raster are [(0, 0, width, height)]. *)
Definition at_origin (raster : Raster) : Prop :=
  raster_bounds raster =
  mkRectangle 0 0 (width (raster_canvas raster)) (height (raster_canvas raster)).

(** The pixel [(x, y)] of the canvas lies in the window that
    [getImageData] reads at the bounds of the raster. *)
Definition in_window (raster : Raster) (x y : Z) : Prop :=
  in_bounds (raster_canvas raster) x y /\ contains (raster_bounds raster) x y.

(** *** The numbers that doubles stand for *)

(** The rational number of a double that is zero or finite, from its
    sign, mantissa and exponent; [None] for [NaN] and the infinities. *)
Definition SFvalue (f : SpecFloat.spec_float) : option Q :=
  match f with
  | SpecFloat.S754_zero _ => Some 0%Q
  | SpecFloat.S754_finite s m e =>
      Some (inject_Z (if s then Z.neg m else Z.pos m) * 2 ^ e)%Q
  | SpecFloat.S754_infinity _ | SpecFloat.S754_nan => None
  end.


Definition value (x : float) : option Q := SFvalue (FloatOps.Prim2SF x).



(* ===================================================================== *)
(** * Part II: properties                                                 *)
(* ===================================================================== *)

(** ** [~~] is truncation toward zero on the 32-bit range *)

Lemma wrap32_small (n : Z) : - 2 ^ 31 <= n < 2 ^ 31 -> wrap32 n = n.
Proof.
  intros Hn. unfold wrap32.
  destruct (Z_lt_le_dec n 0) as [Hneg | Hpos].
  - replace (n mod 2 ^ 32) with (n + 2 ^ 32).
    + destruct (Z.geb_spec (n + 2 ^ 32) (2 ^ 31)); lia.
    + apply Z.mod_unique with (q := -1); lia.
  - rewrite Z.mod_small by lia.
    destruct (Z.geb_spec n (2 ^ 31)); lia.
Qed.

Lemma wrap32_range (n : Z) : - 2 ^ 31 <= wrap32 n < 2 ^ 31.
Proof.
  unfold wrap32.
  pose proof (Z.mod_pos_bound n (2 ^ 32) ltac:(lia)) as Hm.
  destruct (Z.geb_spec (n mod 2 ^ 32) (2 ^ 31)); lia.
Qed.

Lemma toInt32_trunc (q : Q) :
  - 2 ^ 31 <= trunc q < 2 ^ 31 -> toInt32 (Fin q) = trunc q.
Proof. intros Hq. simpl. now apply wrap32_small. Qed.

Example toInt32_examples :
  toInt32 (Fin (7 # 2)) = 3 /\ toInt32 (Fin (- 7 # 2)) = -3 /\
  toInt32 NaN = 0 /\ toInt32 PInf = 0 /\
  toInt32 (Fin (inject_Z (2 ^ 31))) = - 2 ^ 31.
Proof. repeat split; reflexivity. Qed.

(** The truncation of the model is truncation toward zero. *)
Lemma trunc_truncate (q : Q) : trunc q = truncate q.
Proof.
  destruct q as [n d]. unfold trunc, truncate, Qle_bool, Qceiling, Qfloor.
  simpl. rewrite Z.mul_1_r. change (0 * Z.pos d) with 0.
  destruct (Z.leb_spec 0 n) as [Hpos | Hneg].
  - apply Z.quot_div_nonneg; lia.
  - rewrite <- (Z.opp_involutive n) at 1.
    rewrite Z.quot_opp_l by lia.
    rewrite Z.quot_div_nonneg by lia. reflexivity.
Qed.

Lemma toInt32_truncate (q : Q) :
  fits_int32 (truncate q) -> toInt32 (Fin q) = truncate q.
Proof.
  intros Hq. rewrite <- trunc_truncate in *. now apply toInt32_trunc.
Qed.

(** ** LineRasterizer *)

Lemma line_loop_done fuel x2 y2 dx dy sx sy err :
  line_loop fuel x2 y2 dx dy sx sy x2 y2 err = Some [].
Proof. destruct fuel; simpl; now rewrite !Z.eqb_refl. Qed.

Lemma line_loop_unfold fuel x2 y2 dx dy sx sy x1 y1 err :
  x1 <> x2 \/ y1 <> y2 ->
  line_loop (S fuel) x2 y2 dx dy sx sy x1 y1 err =
  let '(x1', y1', err') := line_step dx dy sx sy (x1, y1, err) in
  cons (x1', y1') <$> line_loop fuel x2 y2 dx dy sx sy x1' y1' err'.
Proof.
  intros Hne. simpl line_loop.
  destruct (Z.eqb_spec x1 x2), (Z.eqb_spec y1 y2); simpl; try reflexivity.
  lia.
Qed.

(** The loop state is described by the numbers [rx], [ry] of steps that
    remain on each axis: the error term is [dx - dy + rx*dy - ry*dx]. When
    [dx >= dy] every iteration steps in [x]. *)
Lemma line_loop_xmajor (n : nat) :
  forall x2 y2 dx dy sx sy x1 y1 err ry fuel,
    0 < dx -> 0 <= dy <= dx ->
    sx = 1 \/ sx = -1 -> sy = 1 \/ sy = -1 ->
    x2 - x1 = sx * Z.of_nat n -> y2 - y1 = sy * ry ->
    0 <= ry <= dy -> Z.of_nat n <= dx ->
    err = dx - dy + Z.of_nat n * dy - ry * dx ->
    - dy < 2 * err < 3 * dx - 2 * dy ->
    (n <= fuel)%nat ->
    exists l,
      line_loop fuel x2 y2 dx dy sx sy x1 y1 err = Some l /\
      length l = n /\
      last ((x1, y1) :: l) = Some (x2, y2) /\
      steps_ok (x1, y1) l /\
      Forall (in_box x2 y2 sx sy (Z.of_nat n) ry) l.
Proof.
  induction n as [|n IH];
    intros x2 y2 dx dy sx sy x1 y1 err ry fuel Hdx Hdy Hsx Hsy Hx Hy Hry Hn Herr Hb Hf.
  - assert (ry = 0) by nia. subst ry.
    assert (x1 = x2) by lia. assert (y1 = y2) by lia. subst x1 y1.
    exists []. rewrite line_loop_done. repeat split. constructor.
  - destruct fuel as [|fuel]; [lia|].
    rewrite line_loop_unfold by (left; destruct Hsx; subst sx; lia).
    unfold line_step.
    rewrite Z.gtb_ltb.
    destruct (Z.ltb_spec (- dy) (err * 2)) as [_|Hc]; [|lia].
    destruct (Z.ltb_spec (err * 2) dx) as [Hlt|Hge].
    + assert (1 <= ry) by nia.
      destruct (IH x2 y2 dx dy sx sy (x1 + sx) (y1 + sy) (err - dy + dx)
                  (ry - 1) fuel) as (l & Hl & Hlen & Hlast & Hok & Hbox);
        try assumption; try lia; try nia.
      exists ((x1 + sx, y1 + sy) :: l). rewrite Hl. simpl.
      repeat split; try lia; try assumption.
      constructor.
      * unfold in_box; simpl. destruct Hsx, Hsy; subst sx sy; lia.
      * eapply Forall_impl; [exact Hbox|]. unfold in_box. intros p; lia.
    + destruct (IH x2 y2 dx dy sx sy (x1 + sx) y1 (err - dy)
                  ry fuel) as (l & Hl & Hlen & Hlast & Hok & Hbox);
        try assumption; try lia; try nia.
      exists ((x1 + sx, y1) :: l). rewrite Hl. simpl.
      repeat split; try lia; try assumption.
      constructor.
      * unfold in_box; simpl. destruct Hsx, Hsy; subst sx sy; lia.
      * eapply Forall_impl; [exact Hbox|]. unfold in_box. intros p; lia.
Qed.

(** When [dy > dx] every iteration steps in [y]. *)
Lemma line_loop_ymajor (n : nat) :
  forall x2 y2 dx dy sx sy x1 y1 err rx fuel,
    0 <= dx < dy ->
    sx = 1 \/ sx = -1 -> sy = 1 \/ sy = -1 ->
    x2 - x1 = sx * rx -> y2 - y1 = sy * Z.of_nat n ->
    0 <= rx <= dx -> Z.of_nat n <= dy ->
    err = dx - dy + rx * dy - Z.of_nat n * dx ->
    2 * dx - 3 * dy < 2 * err < dx ->
    (n <= fuel)%nat ->
    exists l,
      line_loop fuel x2 y2 dx dy sx sy x1 y1 err = Some l /\
      length l = n /\
      last ((x1, y1) :: l) = Some (x2, y2) /\
      steps_ok (x1, y1) l /\
      Forall (in_box x2 y2 sx sy rx (Z.of_nat n)) l.
Proof.
  induction n as [|n IH];
    intros x2 y2 dx dy sx sy x1 y1 err rx fuel Hd Hsx Hsy Hx Hy Hrx Hn Herr Hb Hf.
  - assert (rx = 0) by nia. subst rx.
    assert (x1 = x2) by lia. assert (y1 = y2) by lia. subst x1 y1.
    exists []. rewrite line_loop_done. repeat split. constructor.
  - destruct fuel as [|fuel]; [lia|].
    rewrite line_loop_unfold by (right; destruct Hsy; subst sy; lia).
    unfold line_step.
    rewrite Z.gtb_ltb.
    destruct (Z.ltb_spec (- dy) (err * 2)) as [Hlt|Hge].
    + assert (1 <= rx) by nia.
      destruct (Z.ltb_spec (err * 2) dx) as [_|Hc]; [|lia].
      destruct (IH x2 y2 dx dy sx sy (x1 + sx) (y1 + sy) (err - dy + dx)
                  (rx - 1) fuel) as (l & Hl & Hlen & Hlast & Hok & Hbox);
        try assumption; try lia; try nia.
      exists ((x1 + sx, y1 + sy) :: l). rewrite Hl. simpl.
      repeat split; try lia; try assumption.
      constructor.
      * unfold in_box; simpl. destruct Hsx, Hsy; subst sx sy; lia.
      * eapply Forall_impl; [exact Hbox|]. unfold in_box. intros p; lia.
    + destruct (Z.ltb_spec (err * 2) dx) as [_|Hc]; [|lia].
      destruct (IH x2 y2 dx dy sx sy x1 (y1 + sy) (err + dx)
                  rx fuel) as (l & Hl & Hlen & Hlast & Hok & Hbox);
        try assumption; try lia; try nia.
      exists ((x1, y1 + sy) :: l). rewrite Hl. simpl.
      repeat split; try lia; try assumption.
      constructor.
      * unfold in_box; simpl. destruct Hsx, Hsy; subst sx sy; lia.
      * eapply Forall_impl; [exact Hbox|]. unfold in_box. intros p; lia.
Qed.

Lemma steps_ok_lookup (l : list (Z * Z)) :
  forall p0 (i : nat) p q,
    steps_ok p0 l ->
    (p0 :: l) !! i = Some p -> (p0 :: l) !! S i = Some q ->
    Z.abs (q.1 - p.1) <= 1 /\ Z.abs (q.2 - p.2) <= 1.
Proof.
  induction l as [|a l IH]; intros p0 i p q Hok Hp Hq.
  - destruct i; discriminate.
  - destruct Hok as (Hx & Hy & Hok).
    destruct i as [|i].
    + simpl in Hp, Hq. injection Hp as <-. injection Hq as <-. now split.
    + apply (IH a i p q Hok); assumption.
Qed.

(** The path of the loop started by [forEachLinePoint]. *)
Lemma line_loop_from_start x1 y1 x2 y2 (k : nat) :
  let dx := Z.abs (x2 - x1) in
  let dy := Z.abs (y2 - y1) in
  let sx := if x1 <? x2 then 1 else -1 in
  let sy := if y1 <? y2 then 1 else -1 in
  let n := Z.to_nat (Z.max dx dy) in
  exists l,
    line_loop (n + k) x2 y2 dx dy sx sy x1 y1 (dx - dy) = Some l /\
    length l = n /\
    last ((x1, y1) :: l) = Some (x2, y2) /\
    steps_ok (x1, y1) l /\
    Forall (in_box x2 y2 sx sy dx dy) l.
Proof.
  intros dx dy sx sy n.
  assert (Hsx : sx = 1 \/ sx = -1) by (subst sx; destruct (x1 <? x2); auto).
  assert (Hsy : sy = 1 \/ sy = -1) by (subst sy; destruct (y1 <? y2); auto).
  assert (Hx : x2 - x1 = sx * dx)
    by (subst sx dx; destruct (Z.ltb_spec x1 x2); lia).
  assert (Hy : y2 - y1 = sy * dy)
    by (subst sy dy; destruct (Z.ltb_spec y1 y2); lia).
  assert (Hdx0 : 0 <= dx) by (subst dx; lia).
  assert (Hdy0 : 0 <= dy) by (subst dy; lia).
  destruct (Z_lt_le_dec dx dy) as [Hlt | Hle].
  - assert (Hn : Z.of_nat n = dy) by (subst n; lia).
    replace (in_box x2 y2 sx sy dx dy)
      with (in_box x2 y2 sx sy dx (Z.of_nat n)) by now rewrite Hn.
    apply (line_loop_ymajor n) with (rx := dx); rewrite ?Hn; try lia; auto.
  - destruct (Z.eq_dec dx 0) as [H0 | Hpos].
    + assert (dy = 0) by lia.
      assert (x1 = x2) by lia. assert (y1 = y2) by lia. subst x1 y1.
      exists []. rewrite line_loop_done.
      repeat split; [subst n; simpl length; lia | constructor].
    + assert (Hn : Z.of_nat n = dx) by (subst n; lia).
      replace (in_box x2 y2 sx sy dx dy)
        with (in_box x2 y2 sx sy (Z.of_nat n) dy) by now rewrite Hn.
      apply (line_loop_xmajor n) with (ry := dy); rewrite ?Hn; try lia; auto.
Qed.

(** The walk on the converted coordinates, for every pair of points:
    [forEachLinePoint] invokes its callback [max(|dx|,|dy|) + 1] times,
    where [dx] and [dy] are the differences of the coordinates after the
    [~~] conversion of both inputs; the first visited point is the
    converted [point1], the last one is the converted [point2], and two
    consecutive visited points differ by at most one in [x] and in [y].
    The loop needs [max(|dx|,|dy|)] iterations; any larger fuel gives the
    same run. *)
Lemma forEachLinePoint_walk (point1 point2 : Point) (extra : nat) :
  let x1 := toInt32 (pt_x point1) in
  let y1 := toInt32 (pt_y point1) in
  let x2 := toInt32 (pt_x point2) in
  let y2 := toInt32 (pt_y point2) in
  let n := Z.to_nat (Z.max (Z.abs (x2 - x1)) (Z.abs (y2 - y1))) in
  exists visited : list (Z * Z),
    forEachLinePoint (n + extra) point1 point2 = Some visited /\
    length visited = S n /\
    head visited = Some (x1, y1) /\
    last visited = Some (x2, y2) /\
    (forall (i : nat) p q,
        visited !! i = Some p -> visited !! S i = Some q ->
        Z.abs (q.1 - p.1) <= 1 /\ Z.abs (q.2 - p.2) <= 1).
Proof.
  intros x1 y1 x2 y2 n.
  destruct (line_loop_from_start x1 y1 x2 y2 extra)
    as (l & Hl & Hlen & Hlast & Hok & _).
  exists ((x1, y1) :: l). unfold forEachLinePoint.
  cbv zeta in Hl |- *. subst x1 y1 x2 y2 n. rewrite Hl. simpl.
  split; [reflexivity|]. split; [now rewrite Hlen|].
  split; [reflexivity|]. split; [assumption|].
  intros i p q Hp Hq. exact (steps_ok_lookup l _ i p q Hok Hp Hq).
Qed.

(** C3, as amended: for two points whose coordinates are finite numbers
    with truncations toward zero in the signed 32-bit range,
    [forEachLinePoint] invokes its callback exactly
    [max(|dx|,|dy|) + 1] times, where [dx] and [dy] are the differences
    of the truncated coordinates; the first visited point is the
    truncation of [point1], the last one is the truncation of [point2],
    and two consecutive visited points differ by at most one in [x] and
    in [y]. *)
Theorem forEachLinePoint_path (x1 y1 x2 y2 : Q) (extra : nat) :
  fits_int32 (truncate x1) -> fits_int32 (truncate y1) ->
  fits_int32 (truncate x2) -> fits_int32 (truncate y2) ->
  let point1 := mkPoint (Fin x1) (Fin y1) in
  let point2 := mkPoint (Fin x2) (Fin y2) in
  let dx := truncate x2 - truncate x1 in
  let dy := truncate y2 - truncate y1 in
  let n := Z.to_nat (Z.max (Z.abs dx) (Z.abs dy)) in
  exists visited : list (Z * Z),
    forEachLinePoint (n + extra) point1 point2 = Some visited /\
    length visited = S n /\
    head visited = Some (truncate x1, truncate y1) /\
    last visited = Some (truncate x2, truncate y2) /\
    (forall (i : nat) p q,
        visited !! i = Some p -> visited !! S i = Some q ->
        Z.abs (q.1 - p.1) <= 1 /\ Z.abs (q.2 - p.2) <= 1).
Proof.
  intros Hx1 Hy1 Hx2 Hy2 point1 point2 dx dy n.
  pose proof (forEachLinePoint_walk point1 point2 extra) as Hwalk.
  cbv zeta in Hwalk. subst point1 point2. simpl pt_x in Hwalk. simpl pt_y in Hwalk.
  rewrite !toInt32_truncate in Hwalk by assumption.
  exact Hwalk.
Qed.

Lemma forEachLinePoint_path_witness :
  exists visited : list (Z * Z),
    forEachLinePoint 3
      (mkPoint (Fin (- 27 # 10)) (Fin (39 # 10)))
      (mkPoint (Fin (3 # 2)) (Fin (- 1 # 5)))
    = Some visited /\
    length visited = 4%nat /\
    head visited = Some (-2, 3) /\
    last visited = Some (1, 0) /\
    (forall (i : nat) p q,
        visited !! i = Some p -> visited !! S i = Some q ->
        Z.abs (q.1 - p.1) <= 1 /\ Z.abs (q.2 - p.2) <= 1).
Proof.
  apply (forEachLinePoint_path (- 27 # 10) (39 # 10) (3 # 2) (- 1 # 5) 0);
    vm_compute; split; solve [discriminate | reflexivity].
Defined.

(** C3, counterexample: the point [(2147483648, 0)] has finite
    coordinates and is its own truncation, but [~~2147483648] is
    [-2147483648]: the walk from that point to itself visits
    [(-2147483648, 0)], which is not the truncation of the point. *)
Lemma forEachLinePoint_truncation_counterexample :
  let point := mkPoint (Fin (inject_Z 2147483648)) (Fin 0) in
  exists visited : list (Z * Z),
    forEachLinePoint 0 point point = Some visited /\
    head visited = Some (-2147483648, 0) /\
    head visited <> Some (truncate (inject_Z 2147483648), truncate 0).
Proof.
  exists [(-2147483648, 0)].
  split; [reflexivity|]. split; [reflexivity|]. discriminate.
Qed.

(** *** Reversal of the end points *)

(** The tests of the loop read the error term only, so every run is the
    image under [place] of the run that counts the remaining steps
    [(rx, ry)] down to [(0, 0)]. *)
Lemma line_loop_countdown (fuel : nat) :
  forall x2 y2 dx dy sx sy x1 y1 err rx ry,
    sx = 1 \/ sx = -1 -> sy = 1 \/ sy = -1 ->
    x2 - x1 = sx * rx -> y2 - y1 = sy * ry ->
    line_loop fuel x2 y2 dx dy sx sy x1 y1 err =
    fmap (M := list) (place x2 y2 sx sy) <$>
      line_loop fuel 0 0 dx dy (-1) (-1) rx ry err.
Proof.
  induction fuel as [|fuel IH];
    intros x2 y2 dx dy sx sy x1 y1 err rx ry Hsx Hsy Hx Hy.
  - simpl.
    destruct (Z.eqb_spec x1 x2), (Z.eqb_spec y1 y2),
      (Z.eqb_spec rx 0), (Z.eqb_spec ry 0); simpl; try reflexivity;
      exfalso; destruct Hsx, Hsy; subst sx sy; lia.
  - destruct (Z.eq_dec x1 x2) as [Ex|Nx], (Z.eq_dec y1 y2) as [Ey|Ny].
    1: { assert (rx = 0) by (destruct Hsx; subst sx; lia).
         assert (ry = 0) by (destruct Hsy; subst sy; lia).
         subst. now rewrite !line_loop_done. }
    all: rewrite (line_loop_unfold fuel x2 y2) by lia.
    all: rewrite (line_loop_unfold fuel 0 0)
      by (destruct Hsx, Hsy; subst sx sy; lia).
    all: unfold line_step.
    all: destruct (err * 2 >? - dy), (err * 2 <? dx).
    all: match goal with
         | |- context [line_loop ?f 0 0 ?dx ?dy (-1) (-1) ?rx' ?ry' ?e] =>
             rewrite (IH x2 y2 dx dy sx sy _ _ e rx' ry' Hsx Hsy)
               by (destruct Hsx, Hsy; subst sx sy; lia);
             destruct (line_loop f 0 0 dx dy (-1) (-1) rx' ry' e);
             simpl; [|reflexivity];
             unfold place at 2; simpl; do 3 f_equal;
             destruct Hsx, Hsy; subst sx sy; lia
         end.
Qed.

Lemma countdown_box (dx dy : Z) (k : nat) :
  0 <= dx -> 0 <= dy ->
  exists c,
    line_loop (Z.to_nat (Z.max dx dy) + k) 0 0 dx dy (-1) (-1) dx dy (dx - dy)
      = Some c /\
    Forall (fun r => 0 <= r.1 <= dx /\ 0 <= r.2 <= dy) c.
Proof.
  intros Hdx Hdy.
  destruct (line_loop_from_start dx dy 0 0 k) as (c & Hc & _ & _ & _ & Hbox).
  cbv zeta in Hc, Hbox.
  replace (Z.abs (0 - dx)) with dx in * by lia.
  replace (Z.abs (0 - dy)) with dy in * by lia.
  replace (dx <? 0) with false in * by (symmetry; apply Z.ltb_ge; lia).
  replace (dy <? 0) with false in * by (symmetry; apply Z.ltb_ge; lia).
  exists c. split; [exact Hc|].
  eapply Forall_impl; [exact Hbox|]. unfold in_box. intros r; lia.
Qed.

(** The run of [forEachLinePoint] written over the countdown run. *)
Lemma forEachLinePoint_countdown (point1 point2 : Point) (fuel : nat) :
  let x1 := toInt32 (pt_x point1) in
  let y1 := toInt32 (pt_y point1) in
  let x2 := toInt32 (pt_x point2) in
  let y2 := toInt32 (pt_y point2) in
  let dx := Z.abs (x2 - x1) in
  let dy := Z.abs (y2 - y1) in
  let sx := if x1 <? x2 then 1 else -1 in
  let sy := if y1 <? y2 then 1 else -1 in
  forEachLinePoint fuel point1 point2 =
  (fun c => (x1, y1) :: (place x2 y2 sx sy <$> c)) <$>
    line_loop fuel 0 0 dx dy (-1) (-1) dx dy (dx - dy).
Proof.
  intros x1 y1 x2 y2 dx dy sx sy. unfold forEachLinePoint.
  fold x1 y1 x2 y2. fold dx dy. fold sx sy.
  rewrite (line_loop_countdown fuel x2 y2 dx dy sx sy x1 y1 (dx - dy) dx dy).
  - now destruct (line_loop fuel 0 0 dx dy (-1) (-1) dx dy (dx - dy)).
  - subst sx; destruct (x1 <? x2); auto.
  - subst sy; destruct (y1 <? y2); auto.
  - subst sx dx; destruct (Z.ltb_spec x1 x2); lia.
  - subst sy dy; destruct (Z.ltb_spec y1 y2); lia.
Qed.

(** *** Horizontal, vertical and diagonal segments *)

(** When an iteration leaves the error term as it is, every iteration
    takes the same step [(ux, uy)]. *)
Lemma line_loop_uniform (x1 y1 x2 y2 dx dy sx sy ux uy err n : Z) (m : nat) :
  (forall x y, line_step dx dy sx sy (x, y, err) = (x + ux, y + uy, err)) ->
  ux <> 0 \/ uy <> 0 ->
  x2 = x1 + n * ux -> y2 = y1 + n * uy ->
  forall (k : Z) (fuel : nat),
    0 <= k -> k + Z.of_nat m = n -> (m <= fuel)%nat ->
    line_loop fuel x2 y2 dx dy sx sy (x1 + k * ux) (y1 + k * uy) err =
    Some ((fun i => (x1 + i * ux, y1 + i * uy)) <$> seqZ (k + 1) (Z.of_nat m)).
Proof.
  intros Hstep Hu Hx2 Hy2.
  induction m as [|m IH]; intros k fuel Hk Hkm Hfuel.
  - replace (x1 + k * ux) with x2 by (subst x2; f_equal; nia).
    replace (y1 + k * uy) with y2 by (subst y2; f_equal; nia).
    now rewrite line_loop_done.
  - destruct fuel as [|fuel]; [lia|].
    rewrite line_loop_unfold by (subst x2 y2; nia).
    rewrite Hstep.
    replace (x1 + k * ux + ux) with (x1 + (k + 1) * ux) by lia.
    replace (y1 + k * uy + uy) with (y1 + (k + 1) * uy) by lia.
    rewrite (IH (k + 1) fuel) by lia. simpl.
    rewrite (seqZ_cons (k + 1) (Z.of_nat (S m))) by lia.
    replace (Z.pred (Z.of_nat (S m))) with (Z.of_nat m) by lia.
    replace (Z.succ (k + 1)) with (k + 1 + 1) by lia.
    reflexivity.
Qed.

Lemma line_step_uniform (dx dy sx sy : Z) :
  0 <= dx -> 0 <= dy -> 0 < dx \/ 0 < dy ->
  dx = 0 \/ dy = 0 \/ dx = dy ->
  forall x y,
    line_step dx dy sx sy (x, y, dx - dy) =
    (x + (if dx =? 0 then 0 else sx), y + (if dy =? 0 then 0 else sy), dx - dy).
Proof.
  intros Hdx Hdy Hpos Hcase x y. unfold line_step. rewrite Z.gtb_ltb.
  destruct (Z.eqb_spec dx 0), (Z.eqb_spec dy 0),
    (Z.ltb_spec (- dy) ((dx - dy) * 2)), (Z.ltb_spec ((dx - dy) * 2) dx);
    try lia; f_equal; try f_equal; lia.
Qed.

Lemma rev_fmap {A B : Type} (f : A -> B) (l : list A) :
  rev (f <$> l) = f <$> rev l.
Proof.
  induction l as [|a l IH]; [reflexivity|].
  rewrite fmap_cons. simpl rev. rewrite fmap_app, IH. reflexivity.
Qed.

Lemma rev_seqZ (m : nat) :
  rev (seqZ 0 (Z.of_nat m)) = (fun i => Z.of_nat m - 1 - i) <$> seqZ 0 (Z.of_nat m).
Proof.
  induction m as [|m IH]; [reflexivity|].
  transitivity (Z.of_nat m :: ((fun i => Z.of_nat m - 1 - i) <$> seqZ 0 (Z.of_nat m))).
  - replace (Z.of_nat (S m)) with (Z.of_nat m + 1) by lia.
    rewrite seqZ_app by lia. rewrite rev_app_distr, IH. reflexivity.
  - rewrite (seqZ_cons 0 (Z.of_nat (S m))) by lia.
    replace (Z.pred (Z.of_nat (S m))) with (Z.of_nat m) by lia.
    rewrite fmap_cons. f_equal; [lia|].
    change (Z.succ 0) with (1 + 0). rewrite <- (fmap_add_seqZ 1 0).
    rewrite <- list_fmap_compose.
    apply list_fmap_ext. intros _ i _. simpl. lia.
Qed.

(** The path of [forEachLinePoint] on such a segment. *)
Lemma forEachLinePoint_uniform (point1 point2 : Point) (extra : nat) :
  let x1 := toInt32 (pt_x point1) in
  let y1 := toInt32 (pt_y point1) in
  let x2 := toInt32 (pt_x point2) in
  let y2 := toInt32 (pt_y point2) in
  let n := Z.to_nat (Z.max (Z.abs (x2 - x1)) (Z.abs (y2 - y1))) in
  x1 = x2 \/ y1 = y2 \/ Z.abs (x2 - x1) = Z.abs (y2 - y1) ->
  forEachLinePoint (n + extra) point1 point2 =
  Some ((fun i => (x1 + i * Z.sgn (x2 - x1), y1 + i * Z.sgn (y2 - y1)))
          <$> seqZ 0 (Z.of_nat (S n))).
Proof.
  intros x1 y1 x2 y2 n Hcase. unfold forEachLinePoint.
  fold x1 y1 x2 y2. cbv zeta.
  set (dx := Z.abs (x2 - x1)) in *. set (dy := Z.abs (y2 - y1)) in *.
  rewrite (seqZ_cons 0 (Z.of_nat (S n))) by lia.
  replace (Z.pred (Z.of_nat (S n))) with (Z.of_nat n) by lia.
  rewrite fmap_cons. replace (x1 + 0 * Z.sgn (x2 - x1)) with x1 by lia.
  replace (y1 + 0 * Z.sgn (y2 - y1)) with y1 by lia.
  destruct (Z.eq_dec (Z.max dx dy) 0) as [Hzero | Hpos].
  - assert (x1 = x2) by lia. assert (y1 = y2) by lia.
    replace n with O by lia. rewrite <- H, <- H0.
    now rewrite line_loop_done.
  - pose proof (line_loop_uniform x1 y1 x2 y2 dx dy
                  (if x1 <? x2 then 1 else -1) (if y1 <? y2 then 1 else -1)
                  (Z.sgn (x2 - x1)) (Z.sgn (y2 - y1)) (dx - dy)
                  (Z.of_nat n) n) as Hu.
    replace (x1 + 0 * Z.sgn (x2 - x1)) with x1 in Hu by lia.
    specialize (Hu ltac:(
      intros x y;
      rewrite line_step_uniform by lia;
      do 2 f_equal;
      [destruct (Z.eqb_spec dx 0), (Z.ltb_spec x1 x2); lia
      |destruct (Z.eqb_spec dy 0), (Z.ltb_spec y1 y2); lia])).
    specialize (Hu ltac:(lia) ltac:(lia) ltac:(lia) 0 (n + extra)%nat
                  ltac:(lia) ltac:(lia) ltac:(lia)).
    replace (x1 + 0 * Z.sgn (x2 - x1)) with x1 in Hu by lia.
    replace (y1 + 0 * Z.sgn (y2 - y1)) with y1 in Hu by lia.
    rewrite Hu. reflexivity.
Qed.

(** C4, as amended: [forEachLinePoint(p2, p1, visit)] visits as many
    points as [forEachLinePoint(p1, p2, visit)], it starts where the
    forward call ends and ends where it starts, and its k-th point is the
    k-th point of the forward call reflected through the middle of the
    segment, [p1 + p2 - q].  On a horizontal, vertical or diagonal
    segment it is exactly the reverse of the forward sequence. *)
Theorem forEachLinePoint_reversed (point1 point2 : Point) (extra : nat) :
  let x1 := toInt32 (pt_x point1) in
  let y1 := toInt32 (pt_y point1) in
  let x2 := toInt32 (pt_x point2) in
  let y2 := toInt32 (pt_y point2) in
  let n := Z.to_nat (Z.max (Z.abs (x2 - x1)) (Z.abs (y2 - y1))) in
  exists forward backward : list (Z * Z),
    forEachLinePoint (n + extra) point1 point2 = Some forward /\
    forEachLinePoint (n + extra) point2 point1 = Some backward /\
    length backward = length forward /\
    head backward = last forward /\
    last backward = head forward /\
    backward = (fun q => (x1 + x2 - q.1, y1 + y2 - q.2)) <$> forward /\
    (x1 = x2 \/ y1 = y2 \/ Z.abs (x2 - x1) = Z.abs (y2 - y1) ->
     backward = rev forward).
Proof.
  intros x1 y1 x2 y2 n.
  destruct (countdown_box (Z.abs (x2 - x1)) (Z.abs (y2 - y1)) extra)
    as (c & Hc & Hbox); [lia | lia |].
  fold n in Hc.
  pose proof (forEachLinePoint_countdown point1 point2 (n + extra)) as Hf.
  pose proof (forEachLinePoint_countdown point2 point1 (n + extra)) as Hb.
  cbv zeta in Hf, Hb. fold x1 y1 x2 y2 in Hf, Hb.
  replace (Z.abs (x1 - x2)) with (Z.abs (x2 - x1)) in Hb by lia.
  replace (Z.abs (y1 - y2)) with (Z.abs (y2 - y1)) in Hb by lia.
  rewrite Hc in Hf, Hb. simpl in Hf, Hb.
  eexists _, _. split; [exact Hf|]. split; [exact Hb|].
  assert (Hmap :
    place x1 y1 (if x2 <? x1 then 1 else -1) (if y2 <? y1 then 1 else -1) <$> c =
    (fun q => (x1 + x2 - q.1, y1 + y2 - q.2)) <$>
      (place x2 y2 (if x1 <? x2 then 1 else -1) (if y1 <? y2 then 1 else -1)
         <$> c)).
  { rewrite <- list_fmap_compose. apply Forall_fmap_ext_1.
    eapply Forall_impl; [exact Hbox|]. intros [rx ry] [Hrx Hry].
    unfold place; simpl in *.
    destruct (Z.ltb_spec x2 x1), (Z.ltb_spec x1 x2),
      (Z.ltb_spec y2 y1), (Z.ltb_spec y1 y2); f_equal; lia. }
  destruct (line_loop_from_start x1 y1 x2 y2 extra)
    as (lf & Hlf & _ & Hlastf & _).
  destruct (line_loop_from_start x2 y2 x1 y1 extra)
    as (lb & Hlb & _ & Hlastb & _).
  cbv zeta in Hlf, Hlb.
  replace (Z.abs (x1 - x2)) with (Z.abs (x2 - x1)) in Hlb by lia.
  replace (Z.abs (y1 - y2)) with (Z.abs (y2 - y1)) in Hlb by lia.
  fold n in Hlf, Hlb.
  pose proof Hf as Hf'. pose proof Hb as Hb'.
  unfold forEachLinePoint in Hf', Hb'. cbv zeta in Hf', Hb'.
  fold x1 y1 x2 y2 in Hf', Hb'.
  replace (Z.abs (x1 - x2)) with (Z.abs (x2 - x1)) in Hb' by lia.
  replace (Z.abs (y1 - y2)) with (Z.abs (y2 - y1)) in Hb' by lia.
  rewrite Hlf in Hf'. rewrite Hlb in Hb'. simpl in Hf', Hb'.
  injection Hf' as Hf'. injection Hb' as Hb'.
  split; [now rewrite !length_cons, !length_fmap|].
  split; [|split; [|split]].
  - rewrite <- Hf'. rewrite Hlastf. reflexivity.
  - rewrite <- Hb'. rewrite Hlastb. reflexivity.
  - rewrite Hmap. simpl. f_equal. f_equal; lia.
  - intros Hcase.
    pose proof (forEachLinePoint_uniform point1 point2 extra Hcase) as Uf.
    pose proof (forEachLinePoint_uniform point2 point1 extra
                  ltac:(fold x1 y1 x2 y2; lia)) as Ub.
    cbv zeta in Uf, Ub. fold x1 y1 x2 y2 in Uf, Ub.
    replace (Z.abs (x1 - x2)) with (Z.abs (x2 - x1)) in Ub by lia.
    replace (Z.abs (y1 - y2)) with (Z.abs (y2 - y1)) in Ub by lia.
    fold n in Uf, Ub.
    rewrite Hf in Uf. rewrite Hb in Ub.
    injection Uf as Uf. injection Ub as Ub. rewrite Uf, Ub.
    rewrite rev_fmap, rev_seqZ, <- list_fmap_compose.
    apply list_fmap_ext. intros _ i _. simpl.
    assert (Z.of_nat n = Z.max (Z.abs (x2 - x1)) (Z.abs (y2 - y1)))
      as Hn by (subst n; lia).
    f_equal; nia.
Qed.

Lemma forEachLinePoint_reversed_witness :
  exists forward backward : list (Z * Z),
    forEachLinePoint 3 (mkPoint (Fin 0) (Fin 0)) (mkPoint (Fin (7 # 2)) (Fin 3))
    = Some forward /\
    forEachLinePoint 3 (mkPoint (Fin (7 # 2)) (Fin 3)) (mkPoint (Fin 0) (Fin 0))
    = Some backward /\
    backward = rev forward.
Proof.
  destruct (forEachLinePoint_reversed
              (mkPoint (Fin 0) (Fin 0)) (mkPoint (Fin (7 # 2)) (Fin 3)) 0)
    as (forward & backward & Hf & Hb & _ & _ & _ & _ & Hrev).
  exists forward, backward.
  split; [exact Hf|]. split; [exact Hb|].
  apply Hrev. right. right. reflexivity.
Defined.

(** C4, counterexample: from (0,0) to (2,1) the walk goes through (1,0),
    from (2,1) to (0,0) it goes through (1,1); the second sequence is not
    the reverse of the first and the two pixel sets differ. *)
Lemma forEachLinePoint_reverse_counterexample :
  forEachLinePoint 2 (mkPoint (Fin 0) (Fin 0)) (mkPoint (Fin 2) (Fin 1))
    = Some [(0, 0); (1, 0); (2, 1)] /\
  forEachLinePoint 2 (mkPoint (Fin 2) (Fin 1)) (mkPoint (Fin 0) (Fin 0))
    = Some [(2, 1); (1, 1); (0, 0)] /\
  [(2, 1); (1, 1); (0, 0)] <> rev [(0, 0); (1, 0); (2, 1)] /\
  ~ In (1, 1) [(0, 0); (1, 0); (2, 1)].
Proof.
  split; [reflexivity|]. split; [reflexivity|]. split.
  - simpl. intros H. discriminate H.
  - simpl. intros [H|[H|[H|[]]]]; discriminate H.
Qed.

(** ** QuadraticSolver *)

(** *** The order of doubles *)











Section ExactFormula.
Local Open Scope Q_scope.

Variables qa qb qc s : Q.
Hypothesis a_nonzero : ~ qa == 0.
Hypothesis s_square : s * s == qb * qb - 4 * qa * qc.





End ExactFormula.




(** ** EllipseRasterizer: the guards *)

Lemma Qltb_lt (p q : Q) : Qltb p q = true <-> (p < q)%Q.
Proof.
  unfold Qltb. rewrite negb_true_iff, <- not_true_iff_false, Qle_bool_iff.
  split; [apply Qnot_le_lt | apply Qlt_not_le].
Qed.

Lemma trunc_below_two (q : Q) : (0 <= q)%Q -> (q < 2)%Q -> 0 <= trunc q <= 1.
Proof.
  destruct q as [n d]. unfold Qle, Qlt, trunc. simpl. intros H0 H2.
  assert (0 <= n) by lia.
  rewrite Z.quot_div_nonneg by lia.
  split.
  - apply Z.div_pos; lia.
  - assert (n / Z.pos d < 2); [|lia].
    apply Z.div_lt_upper_bound; lia.
Qed.

Lemma below_two_inset (r : number) : below_two r -> (inset_radius r < 1)%Q.
Proof.
  unfold inset_radius. destruct r as [| | |q]; simpl; intros H;
    try contradiction; try reflexivity.
  pose proof (trunc_below_two (Qabs q) (Qabs_nonneg q) H) as Ht.
  rewrite wrap32_small by lia.
  assert (trunc (Qabs q) = 0 \/ trunc (Qabs q) = 1) as [-> | ->] by lia;
    reflexivity.
Qed.

Section EllipseGuards.

Variable Ctx : Type.
Variable stepEllipse : Z -> Z -> Q -> Q -> number -> bool -> Ctx -> option Ctx.
Variable isInvertible : Matrix -> bool.
Variable shearedForm : number -> number -> Matrix -> number * number * number.

Lemma drawShearedEllipse_rejects (options : EllipseOptions) (context : Ctx) :
  shearSlope options = PInf \/
  (inset_radius (radiusX options) < 1)%Q \/
  (inset_radius (radiusY options) < 1)%Q ->
  drawShearedEllipse_ Ctx stepEllipse options context = Returned false context.
Proof.
  intros H. unfold drawShearedEllipse_. fold (inset_radius (radiusX options)).
  fold (inset_radius (radiusY options)).
  destruct H as [-> | [H | H]]; [reflexivity | | ];
    apply Qltb_lt in H; rewrite H; simpl.
  - now destruct (shearSlope options).
  - now rewrite orb_true_r.
Qed.

Lemma drawShearedEllipse_accepts (options : EllipseOptions) (context : Ctx) :
  shearSlope options <> PInf ->
  (1 <= inset_radius (radiusX options))%Q ->
  (1 <= inset_radius (radiusY options))%Q ->
  drawShearedEllipse_ Ctx stepEllipse options context <> Returned false context.
Proof.
  intros Hs Hx Hy. unfold drawShearedEllipse_.
  fold (inset_radius (radiusX options)). fold (inset_radius (radiusY options)).
  assert (Qltb (inset_radius (radiusX options)) 1 = false) as ->.
  { apply not_true_iff_false. rewrite Qltb_lt. now apply Qle_not_lt. }
  assert (Qltb (inset_radius (radiusY options)) 1 = false) as ->.
  { apply not_true_iff_false. rewrite Qltb_lt. now apply Qle_not_lt. }
  destruct (shearSlope options); try contradiction; simpl;
    destruct (stepEllipse _ _ _ _ _ _ _); discriminate.
Qed.

End EllipseGuards.

(** The guards that the code has.  [drawEllipse] returns false and leaves
    the context as it was when the matrix is not invertible;
    [drawShearedEllipse_] returns false and leaves the context as it was
    when the shear slope is [Infinity] or when either radius, truncated
    in absolute value and inset by half a pixel, is below 1.  Neither
    result depends on the drawing code that follows the guard.  The
    guard of line 64 does not cover a shear slope of [-Infinity]: see
    [drawShearedEllipse_negative_infinity]. *)
Theorem ellipse_guards (Ctx : Type)
    (stepEllipse : Z -> Z -> Q -> Q -> number -> bool -> Ctx -> option Ctx)
    (isInvertible : Matrix -> bool)
    (shearedForm : number -> number -> Matrix -> number * number * number)
    (context : Ctx) :
  (forall positionX positionY radiusX radiusY matrix isFilled,
      isInvertible matrix = false ->
      drawEllipse Ctx stepEllipse isInvertible shearedForm
        positionX positionY radiusX radiusY matrix isFilled context
      = Returned false context) /\
  (forall options,
      shearSlope options = PInf \/
      (inset_radius (radiusX options) < 1)%Q \/
      (inset_radius (radiusY options) < 1)%Q ->
      drawShearedEllipse_ Ctx stepEllipse options context
      = Returned false context).
Proof.
  split.
  - intros px py rx ry matrix filled Hinv. unfold drawEllipse.
    now rewrite Hinv.
  - intros options H. now apply drawShearedEllipse_rejects.
Qed.

Lemma ellipse_guards_witness :
  let stepEllipse := fun (cx cy : Z) (rx ry : Q) (_ : number) (_ : bool)
                         (log : list (Z * Z)) => Some ((cx, cy) :: log) in
  drawEllipse (list (Z * Z)) stepEllipse (fun _ => false)
    (fun rx ry _ => (rx, ry, Fin 0))
    (Fin 5) (Fin 5) (Fin 10) (Fin 10)
    (mkMatrix (Fin 1) (Fin 2) (Fin 2) (Fin 4) (Fin 0) (Fin 0)) true []
  = Returned false [] /\
  drawShearedEllipse_ (list (Z * Z)) stepEllipse
    (mkOptions (Fin 5) (Fin 5) (Fin 10) (Fin 10) PInf true) []
  = Returned false [] /\
  drawShearedEllipse_ (list (Z * Z)) stepEllipse
    (mkOptions (Fin 5) (Fin 5) (Fin 10) (Fin (1 # 2)) (Fin 0) true) []
  = Returned false [].
Proof.
  intros stepEllipse.
  destruct (ellipse_guards (list (Z * Z)) stepEllipse (fun _ => false)
              (fun rx ry _ => (rx, ry, Fin 0)) []) as [Hmatrix Hguard].
  split; [now apply Hmatrix|]. split; apply Hguard.
  - now left.
  - right. right. reflexivity.
Defined.


(** C10: when either radius is [NaN] or has an absolute value below 2,
    [drawShearedEllipse_] returns false and leaves the context as it was:
    the truncated absolute value is then 0 or 1, and 0.5 less is below 1. *)
Theorem drawShearedEllipse_radius_below_two (Ctx : Type)
    (stepEllipse : Z -> Z -> Q -> Q -> number -> bool -> Ctx -> option Ctx)
    (options : EllipseOptions) (context : Ctx) :
  below_two (radiusX options) \/ below_two (radiusY options) ->
  drawShearedEllipse_ Ctx stepEllipse options context = Returned false context.
Proof.
  intros [H | H]; apply drawShearedEllipse_rejects;
    apply below_two_inset in H; auto.
Qed.

Lemma drawShearedEllipse_radius_below_two_witness :
  drawShearedEllipse_ unit (fun _ _ _ _ _ _ c => Some c)
    (mkOptions (Fin 5) (Fin 5) (Fin (3 # 2)) (Fin 10) (Fin 0) true) tt
  = Returned false tt /\
  drawShearedEllipse_ unit (fun _ _ _ _ _ _ c => Some c)
    (mkOptions (Fin 5) (Fin 5) (Fin 10) NaN (Fin 0) true) tt
  = Returned false tt.
Proof.
  split.
  - apply (drawShearedEllipse_radius_below_two unit (fun _ _ _ _ _ _ c => Some c)
             (mkOptions (Fin 5) (Fin 5) (Fin (3 # 2)) (Fin 10) (Fin 0) true) tt).
    left. reflexivity.
  - apply (drawShearedEllipse_radius_below_two unit (fun _ _ _ _ _ _ c => Some c)
             (mkOptions (Fin 5) (Fin 5) (Fin 10) NaN (Fin 0) true) tt).
    right. exact I.
Defined.

(** ** Pixel buffers: reading a byte *)

Lemma data_get_Some (d : list Z) (i : Z) :
  0 <= i < Z.of_nat (length d) -> exists v, data_get d i = Some v.
Proof.
  intros Hi. unfold data_get.
  destruct (Z.ltb_spec i 0); [lia|].
  destruct (lookup_lt_is_Some_2 d (Z.to_nat i)) as [v Hv]; [lia|].
  now exists v.
Qed.

Lemma pixel_offset_range (img : ImageData) (x y : Z) :
  wf_image img -> in_bounds img x y ->
  0 <= (y * width img + x) * 4 /\
  (y * width img + x) * 4 + 3 < Z.of_nat (length (data img)).
Proof.
  intros (Hw & Hh & Hlen) [Hx Hy]. rewrite Hlen. nia.
Qed.

Lemma in_bounds_test (img : ImageData) (x y : Z) :
  in_bounds img x y ->
  (0 <=? x) && (x <? width img) && (0 <=? y) && (y <? height img) = true.
Proof.
  intros [Hx Hy].
  rewrite !andb_true_iff, !Z.leb_le, !Z.ltb_lt. lia.
Qed.

Lemma in_bounds_of_test (img : ImageData) (x y : Z) :
  (0 <=? x) && (x <? width img) && (0 <=? y) && (y <? height img) = true ->
  in_bounds img x y.
Proof.
  rewrite !andb_true_iff, !Z.leb_le, !Z.ltb_lt. unfold in_bounds. lia.
Qed.

Lemma alpha_get (img : ImageData) (x y : Z) :
  wf_image img -> in_bounds img x y ->
  data_get (data img) ((y * width img + x) * 4 + 3) = Some (alpha img x y).
Proof.
  intros Hwf Hin. unfold alpha, getColor_.
  rewrite (in_bounds_test img x y Hin). simpl.
  destruct (data_get_Some (data img) ((y * width img + x) * 4 + 3)) as [v Hv].
  { pose proof (pixel_offset_range img x y Hwf Hin). lia. }
  now rewrite Hv.
Qed.

Lemma alpha_out_of_bounds (img : ImageData) (x y : Z) :
  alpha img x y <> 0 -> in_bounds img x y.
Proof.
  unfold alpha, getColor_, in_bounds.
  destruct (Z.leb_spec 0 x), (Z.ltb_spec x (width img)),
    (Z.leb_spec 0 y), (Z.ltb_spec y (height img)); simpl; try congruence.
  lia.
Qed.

(** ** BoundsTrimmer *)

Lemma alpha_index_exact (img : ImageData) (x y : Z) :
  wf_image img -> int32_indexed img -> in_bounds img x y ->
  alpha_index (width img) x y = (y * width img + x) * 4 + 3.
Proof.
  intros (Hw & Hh & Hlen) Hfit [Hx Hy]. unfold int32_indexed in Hfit.
  unfold alpha_index, shl32. rewrite !Z.shiftl_mul_pow2 by lia.
  rewrite !wrap32_small by nia. lia.
Qed.

Lemma blank_test (img : ImageData) (x y : Z) :
  wf_image img -> int32_indexed img -> in_bounds img x y ->
  negb (nonzero (data_get (data img) (alpha_index (width img) x y))) = true
  <-> alpha img x y = 0.
Proof.
  intros Hwf Hfit Hin.
  rewrite alpha_index_exact, alpha_get by assumption. simpl.
  rewrite negb_involutive. apply Z.eqb_eq.
Qed.

Lemma rowBlank_spec (img : ImageData) (y : Z) :
  wf_image img -> int32_indexed img -> 0 <= y < height img ->
  rowBlank_ img (width img) y = true <->
  (forall x, 0 <= x < width img -> alpha img x y = 0).
Proof.
  intros Hwf Hfit Hy. unfold rowBlank_. rewrite forallb_forall. split.
  - intros H x Hx. apply blank_test; try assumption; [now split|].
    apply H. apply list_elem_of_In, elem_of_seqZ. lia.
  - intros H x Hx. apply list_elem_of_In, elem_of_seqZ in Hx.
    apply blank_test; try assumption; [split; lia|]. apply H. lia.
Qed.

Lemma columnBlank_spec (img : ImageData) (x top bottom : Z) :
  wf_image img -> int32_indexed img -> 0 <= x < width img ->
  0 <= top -> bottom <= height img ->
  columnBlank_ img (width img) x top bottom = true <->
  (forall y, top <= y < bottom -> alpha img x y = 0).
Proof.
  intros Hwf Hfit Hx Ht Hb. unfold columnBlank_. rewrite forallb_forall. split.
  - intros H y Hy. apply blank_test; try assumption; [split; lia|].
    apply H. apply list_elem_of_In, elem_of_seqZ. lia.
  - intros H y Hy. apply list_elem_of_In, elem_of_seqZ in Hy.
    apply blank_test; try assumption; [split; lia|]. apply H. lia.
Qed.

Lemma forallb_false_ex {A : Type} (f : A -> bool) (l : list A) :
  forallb f l = false -> exists x, In x l /\ f x = false.
Proof.
  induction l as [|a l IH]; simpl; [discriminate|].
  destruct (f a) eqn:Hfa; simpl.
  - intros H. destruct (IH H) as (x & Hx & Hf). exists x. auto.
  - intros _. exists a. auto.
Qed.

Lemma rowBlank_false (img : ImageData) (y : Z) :
  wf_image img -> int32_indexed img -> 0 <= y < height img ->
  rowBlank_ img (width img) y = false ->
  exists x, 0 <= x < width img /\ alpha img x y <> 0.
Proof.
  intros Hwf Hfit Hy H. apply forallb_false_ex in H. destruct H as (x & Hx & Hf).
  apply list_elem_of_In, elem_of_seqZ in Hx.
  exists x. split; [lia|]. intros Ha.
  apply (blank_test img x y Hwf Hfit) in Ha; [congruence | split; lia].
Qed.

Lemma columnBlank_false (img : ImageData) (x top bottom : Z) :
  wf_image img -> int32_indexed img -> 0 <= x < width img ->
  0 <= top -> bottom <= height img ->
  columnBlank_ img (width img) x top bottom = false ->
  exists y, top <= y < bottom /\ alpha img x y <> 0.
Proof.
  intros Hwf Hfit Hx Ht Hb H. apply forallb_false_ex in H.
  destruct H as (y & Hy & Hf).
  apply list_elem_of_In, elem_of_seqZ in Hy.
  exists y. split; [lia|]. intros Ha.
  apply (blank_test img x y Hwf Hfit) in Ha; [congruence | split; lia].
Qed.

Section Trim.

Variable img : ImageData.
Let w := width img.

Lemma trimTop_spec (n : nat) : forall top bottom,
  Z.of_nat n = bottom - top ->
  let t := trimTop n img w top bottom in
  top <= t <= bottom /\
  (forall y, top <= y < t -> rowBlank_ img w y = true) /\
  (t = bottom \/ rowBlank_ img w t = false).
Proof.
  induction n as [|n IH]; intros top bottom Hn; simpl.
  - repeat split; try lia; try (left; lia).
  - destruct (Z.ltb_spec top bottom); [|lia]. simpl.
    destruct (rowBlank_ img w top) eqn:Hblank.
    + destruct (IH (top + 1) bottom ltac:(lia)) as (Hr & Hrows & Hstop).
      repeat split; try lia; [|exact Hstop].
      intros y Hy. destruct (Z.eq_dec y top) as [-> | Hne]; [exact Hblank|].
      apply Hrows. lia.
    + repeat split; try lia; try now right.
Qed.

Lemma trimBottom_spec (n : nat) : forall top bottom,
  Z.of_nat n = bottom - top ->
  let b := trimBottom n img w top bottom in
  b <= bottom /\ (top < bottom -> top < b) /\ (bottom <= top -> b = bottom) /\
  (forall y, b <= y < bottom -> rowBlank_ img w y = true) /\
  (b - 1 <= top \/ rowBlank_ img w (b - 1) = false).
Proof.
  induction n as [|n IH]; intros top bottom Hn; simpl.
  - repeat split; try lia; try (left; lia).
  - rewrite Z.gtb_ltb.
    destruct (Z.ltb_spec top (bottom - 1)); simpl.
    + destruct (rowBlank_ img w (bottom - 1)) eqn:Hblank.
      * destruct (IH top (bottom - 1) ltac:(lia)) as (Hr & Hlt & Heq & Hrows & Hstop).
        repeat split; try lia; [|exact Hstop].
        intros y Hy. destruct (Z.eq_dec y (bottom - 1)) as [-> | Hne];
          [exact Hblank|].
        apply Hrows. lia.
      * repeat split; try lia; try now right.
    + repeat split; try lia; try (left; lia).
Qed.

Lemma trimLeft_spec (n : nat) : forall left right top bottom,
  Z.of_nat n = right - left ->
  let l := trimLeft n img w left right top bottom in
  left <= l <= right /\
  (forall x, left <= x < l -> columnBlank_ img w x top bottom = true) /\
  (l = right \/ columnBlank_ img w l top bottom = false).
Proof.
  induction n as [|n IH]; intros left right top bottom Hn; simpl.
  - repeat split; try lia; try (left; lia).
  - destruct (Z.ltb_spec left right); [|lia]. simpl.
    destruct (columnBlank_ img w left top bottom) eqn:Hblank.
    + destruct (IH (left + 1) right top bottom ltac:(lia)) as (Hr & Hcols & Hstop).
      repeat split; try lia; [|exact Hstop].
      intros x Hx. destruct (Z.eq_dec x left) as [-> | Hne]; [exact Hblank|].
      apply Hcols. lia.
    + repeat split; try lia; try now right.
Qed.

Lemma trimRight_spec (n : nat) : forall left right top bottom,
  Z.of_nat n = right - left ->
  let r := trimRight n img w left right top bottom in
  r <= right /\ (left < right -> left < r) /\ (right <= left -> r = right) /\
  (forall x, r <= x < right -> columnBlank_ img w x top bottom = true) /\
  (r - 1 <= left \/ columnBlank_ img w (r - 1) top bottom = false).
Proof.
  induction n as [|n IH]; intros left right top bottom Hn; simpl.
  - repeat split; try lia; try (left; lia).
  - rewrite Z.gtb_ltb.
    destruct (Z.ltb_spec left (right - 1)); simpl.
    + destruct (columnBlank_ img w (right - 1) top bottom) eqn:Hblank.
      * destruct (IH left (right - 1) top bottom ltac:(lia))
          as (Hr & Hlt & Heq & Hcols & Hstop).
        repeat split; try lia; [|exact Hstop].
        intros x Hx. destruct (Z.eq_dec x (right - 1)) as [-> | Hne];
          [exact Hblank|].
        apply Hcols. lia.
      * repeat split; try lia; try now right.
    + repeat split; try lia; try (left; lia).
Qed.

End Trim.

Lemma scanBounds_unfold (raster : ImageData) :
  let w := width raster in
  let h := height raster in
  let t := trimTop (Z.to_nat (h - 0)) raster w 0 h in
  let b := trimBottom (Z.to_nat (h - t)) raster w t h in
  let l := trimLeft (Z.to_nat (w - 0)) raster w 0 w t b in
  let r := trimRight (Z.to_nat (w - l)) raster w l w t b in
  scanBounds (width raster) raster = mkRectangle l t (r - l) (b - t).
Proof. reflexivity. Qed.

(** The rectangle contains every pixel of nonzero alpha and each of its
    four edges holds one. *)
Lemma scanBounds_edges (raster : ImageData) :
  wf_image raster -> int32_indexed raster ->
  (exists x y, alpha raster x y <> 0) ->
  let bounds := scanBounds (width raster) raster in
  (forall x y, alpha raster x y <> 0 -> contains bounds x y) /\
  (exists x, alpha raster x (rect_y bounds) <> 0) /\
  (exists x, alpha raster x (rect_y bounds + rect_height bounds - 1) <> 0) /\
  (exists y, alpha raster (rect_x bounds) y <> 0) /\
  (exists y, alpha raster (rect_x bounds + rect_width bounds - 1) y <> 0).
Proof.
  intros Hwf Hfit (x0 & y0 & H0) bounds. subst bounds.
  rewrite scanBounds_unfold. cbv zeta.
  pose proof Hwf as (Hw & Hh & _).
  pose proof (alpha_out_of_bounds _ _ _ H0) as [Hx0 Hy0].
  set (w := width raster) in *. set (h := height raster) in *.
  set (t := trimTop (Z.to_nat (h - 0)) raster w 0 h).
  destruct (trimTop_spec raster (Z.to_nat (h - 0)) 0 h ltac:(lia))
    as (Ht & Htrows & Htstop). fold w t in Ht, Htrows, Htstop.
  assert (Hrow : forall x y, alpha raster x y <> 0 -> t <= y).
  { intros x y Ha. pose proof (alpha_out_of_bounds _ _ _ Ha) as [Hx Hy].
    destruct (Z_lt_le_dec y t) as [Hlt|]; [|assumption]. exfalso. apply Ha.
    apply (rowBlank_spec raster y Hwf Hfit Hy); [|exact Hx].
    apply Htrows. lia. }
  pose proof (Hrow _ _ H0) as Hty0.
  destruct Htstop as [? | Htstop]; [lia|].
  set (b := trimBottom (Z.to_nat (h - t)) raster w t h).
  destruct (trimBottom_spec raster (Z.to_nat (h - t)) t h ltac:(lia))
    as (Hb & Hblt & _ & Hbrows & Hbstop). fold w b in Hb, Hblt, Hbrows, Hbstop.
  specialize (Hblt ltac:(lia)).
  assert (Hbstop' : rowBlank_ raster w (b - 1) = false).
  { destruct Hbstop as [? | ?]; [|assumption].
    replace (b - 1) with t by lia. exact Htstop. }
  assert (Hrow' : forall x y, alpha raster x y <> 0 -> y < b).
  { intros x y Ha. pose proof (alpha_out_of_bounds _ _ _ Ha) as [Hx Hy].
    destruct (Z_lt_le_dec y b) as [|Hge]; [assumption|]. exfalso. apply Ha.
    apply (rowBlank_spec raster y Hwf Hfit Hy); [|exact Hx].
    apply Hbrows. lia. }
  pose proof (Hrow' _ _ H0) as Hy0b.
  set (l := trimLeft (Z.to_nat (w - 0)) raster w 0 w t b).
  destruct (trimLeft_spec raster (Z.to_nat (w - 0)) 0 w t b ltac:(lia))
    as (Hl & Hlcols & Hlstop). fold w l in Hl, Hlcols, Hlstop.
  assert (Hcol : forall x y, alpha raster x y <> 0 -> l <= x).
  { intros x y Ha. pose proof (alpha_out_of_bounds _ _ _ Ha) as [Hx Hy].
    destruct (Z_lt_le_dec x l) as [Hlt|]; [|assumption]. exfalso. apply Ha.
    apply (columnBlank_spec raster x t b Hwf Hfit Hx ltac:(lia) ltac:(lia)).
    - apply Hlcols. lia.
    - split; [exact (Hrow _ _ Ha) | exact (Hrow' _ _ Ha)]. }
  pose proof (Hcol _ _ H0) as Hlx0.
  destruct Hlstop as [? | Hlstop]; [lia|].
  set (r := trimRight (Z.to_nat (w - l)) raster w l w t b).
  destruct (trimRight_spec raster (Z.to_nat (w - l)) l w t b ltac:(lia))
    as (Hr & Hrlt & _ & Hrcols & Hrstop). fold w r in Hr, Hrlt, Hrcols, Hrstop.
  specialize (Hrlt ltac:(lia)).
  assert (Hrstop' : columnBlank_ raster w (r - 1) t b = false).
  { destruct Hrstop as [? | ?]; [|assumption].
    replace (r - 1) with l by lia. exact Hlstop. }
  assert (Hcol' : forall x y, alpha raster x y <> 0 -> x < r).
  { intros x y Ha. pose proof (alpha_out_of_bounds _ _ _ Ha) as [Hx Hy].
    destruct (Z_lt_le_dec x r) as [|Hge]; [assumption|]. exfalso. apply Ha.
    apply (columnBlank_spec raster x t b Hwf Hfit Hx ltac:(lia) ltac:(lia)).
    - apply Hrcols. lia.
    - split; [exact (Hrow _ _ Ha) | exact (Hrow' _ _ Ha)]. }
  simpl. split; [|split; [|split; [|split]]].
  - intros x y Ha. unfold contains; simpl.
    pose proof (Hrow _ _ Ha). pose proof (Hrow' _ _ Ha).
    pose proof (Hcol _ _ Ha). pose proof (Hcol' _ _ Ha). lia.
  - destruct (rowBlank_false raster t Hwf Hfit ltac:(lia) Htstop) as (x & _ & Hx).
    now exists x.
  - destruct (rowBlank_false raster (b - 1) Hwf Hfit ltac:(lia) Hbstop')
      as (x & _ & Hx).
    exists x. now replace (t + (b - t) - 1) with (b - 1) by lia.
  - destruct (columnBlank_false raster l t b Hwf Hfit ltac:(lia) ltac:(lia)
                ltac:(lia) Hlstop) as (y & _ & Hy).
    now exists y.
  - destruct (columnBlank_false raster (r - 1) t b Hwf Hfit ltac:(lia) ltac:(lia)
                ltac:(lia) Hrstop') as (y & _ & Hy).
    exists y. now replace (l + (r - l) - 1) with (r - 1) by lia.
Qed.

Lemma scanBounds_blank (raster : ImageData) :
  wf_image raster -> int32_indexed raster ->
  (forall x y, in_bounds raster x y -> alpha raster x y = 0) ->
  rect_height (scanBounds (width raster) raster) = 0.
Proof.
  intros Hwf Hfit Hblank. rewrite scanBounds_unfold. cbv zeta. simpl.
  pose proof Hwf as (Hw & Hh & _).
  set (w := width raster) in *. set (h := height raster) in *.
  set (t := trimTop (Z.to_nat (h - 0)) raster w 0 h).
  destruct (trimTop_spec raster (Z.to_nat (h - 0)) 0 h ltac:(lia))
    as (Ht & _ & Htstop). fold w t in Ht, Htstop.
  assert (t = h) as ->.
  { destruct Htstop as [? | Hne]; [assumption|].
    destruct (Z.eq_dec t h) as [|Hth]; [assumption|]. exfalso.
    destruct (rowBlank_false raster t Hwf Hfit ltac:(lia) Hne) as (x & Hx & Ha).
    apply Ha, Hblank. split; [exact Hx | lia]. }
  replace (Z.to_nat (h - h)) with O by lia. simpl. lia.
Qed.

(** The scan of a well-formed image data whose width is the width
    passed to [rowBlank_] and [columnBlank_]: when some pixel has nonzero
    alpha the result is the tightest rectangle that contains all such
    pixels; when (3, 4) is the only one, it is [rect(3, 4, 1, 1)]; when
    every pixel has alpha 0, it has width 0 or height 0. *)
Lemma scanBounds_tight (raster : ImageData) :
  wf_image raster -> int32_indexed raster ->
  let bounds := scanBounds (width raster) raster in
  ((exists x y, alpha raster x y <> 0) ->
   (forall x y, alpha raster x y <> 0 -> contains bounds x y) /\
   (forall r : Rectangle,
       (forall x y, alpha raster x y <> 0 -> contains r x y) ->
       rect_x r <= rect_x bounds /\
       rect_y r <= rect_y bounds /\
       rect_x bounds + rect_width bounds <= rect_x r + rect_width r /\
       rect_y bounds + rect_height bounds <= rect_y r + rect_height r)) /\
  (alpha raster 3 4 <> 0 ->
   (forall x y, alpha raster x y <> 0 -> x = 3 /\ y = 4) ->
   bounds = mkRectangle 3 4 1 1) /\
  ((forall x y, in_bounds raster x y -> alpha raster x y = 0) ->
   rect_width bounds = 0 \/ rect_height bounds = 0).
Proof.
  intros Hwf Hfit bounds.
  assert (Htight : (exists x y, alpha raster x y <> 0) ->
    (forall x y, alpha raster x y <> 0 -> contains bounds x y) /\
    (forall r : Rectangle,
       (forall x y, alpha raster x y <> 0 -> contains r x y) ->
       rect_x r <= rect_x bounds /\
       rect_y r <= rect_y bounds /\
       rect_x bounds + rect_width bounds <= rect_x r + rect_width r /\
       rect_y bounds + rect_height bounds <= rect_y r + rect_height r)).
  { intros Hex.
    destruct (scanBounds_edges raster Hwf Hfit Hex)
      as (Hall & (xt & Htop) & (xb & Hbot) & (yl & Hleft) & (yr & Hright)).
    fold bounds in Hall, Htop, Hbot, Hleft, Hright.
    split; [exact Hall|].
    intros r Hr.
    pose proof (Hr _ _ Htop) as [_ ?]. pose proof (Hr _ _ Hbot) as [_ ?].
    pose proof (Hr _ _ Hleft) as [? _]. pose proof (Hr _ _ Hright) as [? _].
    lia. }
  split; [exact Htight|]. split.
  - intros H34 Honly. clearbody bounds.
    destruct Htight as [Hall Hmin]; [now exists 3, 4|].
    destruct (Hall 3 4 H34) as [Hx Hy].
    destruct (Hmin (mkRectangle 3 4 1 1)) as (H1 & H2 & H3 & H4).
    { intros x y Ha. destruct (Honly x y Ha) as [-> ->].
      unfold contains; simpl; lia. }
    simpl in H1, H2, H3, H4. unfold contains in Hx, Hy.
    destruct bounds as [bx by_ bw bh]; simpl in *.
    f_equal; lia.
  - intros Hblank. right. now apply scanBounds_blank.
Qed.

Lemma single_pixel_image_wf :
  wf_image single_pixel_image /\ int32_indexed single_pixel_image.
Proof. unfold wf_image, int32_indexed; simpl; lia. Qed.

(** *** The image data read at the bounds of a raster *)

Lemma getHitBounds_scan (raster : Raster) :
  getHitBounds raster =
  scanBounds (width (raster_canvas raster))
    (getImageData raster (raster_bounds raster)).
Proof. reflexivity. Qed.

(** A list made of [len] blocks of [n] elements each. *)
Lemma flat_map_blocks_length {A : Type} (f : Z -> list A) (n : nat) :
  (forall z, length (f z) = n) ->
  forall (len : nat) (start : Z),
    length (flat_map f (seqZ start (Z.of_nat len))) = (len * n)%nat.
Proof.
  intros Hf. induction len as [|len IH]; intros start; [reflexivity|].
  rewrite seqZ_cons by lia. simpl flat_map.
  replace (Z.pred (Z.of_nat (S len))) with (Z.of_nat len) by lia.
  rewrite length_app, Hf, IH. lia.
Qed.

Lemma flat_map_blocks_lookup {A : Type} (f : Z -> list A) (n : nat) :
  (forall z, length (f z) = n) ->
  forall (len : nat) (start : Z) (p r : nat),
    (p < len)%nat -> (r < n)%nat ->
    flat_map f (seqZ start (Z.of_nat len)) !! (p * n + r)%nat
    = f (start + Z.of_nat p) !! r.
Proof.
  intros Hf. induction len as [|len IH]; intros start p r Hp Hr; [lia|].
  rewrite seqZ_cons by lia. simpl flat_map.
  replace (Z.pred (Z.of_nat (S len))) with (Z.of_nat len) by lia.
  destruct p as [|p].
  - rewrite lookup_app_l by (rewrite Hf; lia).
    now replace (start + Z.of_nat 0) with start by lia.
  - rewrite lookup_app_r by (rewrite Hf; lia). rewrite Hf.
    replace (S p * n + r - n)%nat with (p * n + r)%nat by lia.
    rewrite IH by lia. f_equal. f_equal. lia.
Qed.

(** The bytes of the window of a canvas at [(ox, oy)], of size [w] by
    [h]. *)
Lemma window_length (canvas : ImageData) (ox oy w h : Z) :
  0 <= w -> 0 <= h ->
  Z.of_nat
    (length
       (flat_map
          (fun j =>
             flat_map
               (fun i =>
                  let byte := canvas_byte canvas (ox + i) (oy + j) in
                  [byte 0; byte 1; byte 2; byte 3])
               (seqZ 0 w))
          (seqZ 0 h))) = 4 * w * h.
Proof.
  intros Hw Hh.
  rewrite <- (Z2Nat.id w), <- (Z2Nat.id h) by lia.
  rewrite (flat_map_blocks_length _ (Z.to_nat w * 4)).
  - rewrite !Z2Nat.id by lia. lia.
  - intros j. now rewrite (flat_map_blocks_length _ 4).
Qed.

Lemma window_byte (canvas : ImageData) (ox oy w h i j k : Z) :
  0 <= i < w -> 0 <= j < h -> 0 <= k < 4 ->
  data_get
    (flat_map
       (fun j =>
          flat_map
            (fun i =>
               let byte := canvas_byte canvas (ox + i) (oy + j) in
               [byte 0; byte 1; byte 2; byte 3])
            (seqZ 0 w))
       (seqZ 0 h))
    ((j * w + i) * 4 + k)
  = Some (canvas_byte canvas (ox + i) (oy + j) k).
Proof.
  intros Hi Hj Hk. unfold data_get.
  destruct (Z.ltb_spec ((j * w + i) * 4 + k) 0) as [Hneg|_]; [nia|].
  destruct (Z_of_nat_complete w ltac:(lia)) as [wn ->].
  destruct (Z_of_nat_complete h ltac:(lia)) as [hn ->].
  replace (Z.to_nat ((j * Z.of_nat wn + i) * 4 + k))
    with (Z.to_nat j * (wn * 4) + (Z.to_nat i * 4 + Z.to_nat k))%nat
    by nia.
  rewrite (flat_map_blocks_lookup _ (wn * 4)); [| |lia|nia].
  2:{ intros z. now rewrite (flat_map_blocks_length _ 4). }
  rewrite (flat_map_blocks_lookup _ 4); [|reflexivity|lia|lia].
  rewrite !Z2Nat.id by lia. cbv zeta.
  replace (0 + j) with j by lia. replace (0 + i) with i by lia.
  assert (k = 0 \/ k = 1 \/ k = 2 \/ k = 3) as [->|[->|[->| ->]]] by lia;
    reflexivity.
Qed.

(** The alpha byte, as [context.getImageData] and as [getColor_] read
    it. *)
Lemma canvas_byte_alpha (canvas : ImageData) (x y : Z) :
  canvas_byte canvas x y 3 = alpha canvas x y.
Proof.
  unfold canvas_byte, alpha, getColor_.
  now destruct (_ && _ && _ && _).
Qed.

Section Window.

Variable raster : Raster.
Let canvas := raster_canvas raster.
Let bounds := raster_bounds raster.
Let imageData := getImageData raster bounds.

Hypothesis same_size : unscaled raster.

Lemma window_width : width imageData = width canvas.
Proof.
  destruct same_size as [Hw Hh]. subst imageData. unfold getImageData.
  fold canvas bounds in Hw, Hh |- *. cbv zeta.
  now destruct (_ || _).
Qed.

Lemma window_height : height imageData = height canvas.
Proof.
  destruct same_size as [Hw Hh]. subst imageData. unfold getImageData.
  fold canvas bounds in Hw, Hh |- *. cbv zeta.
  now destruct (_ || _).
Qed.

Lemma window_in_bounds (i j : Z) :
  in_bounds imageData i j <-> in_bounds canvas i j.
Proof. unfold in_bounds. now rewrite window_width, window_height. Qed.

Hypothesis canvas_wf : wf_image canvas.

Lemma window_wf : wf_image imageData.
Proof.
  destruct canvas_wf as (Hcw & Hch & _).
  split; [rewrite window_width; exact Hcw|].
  split; [rewrite window_height; exact Hch|].
  destruct same_size as [Hw Hh]. subst imageData. unfold getImageData.
  fold canvas bounds in Hw, Hh |- *. cbv zeta.
  destruct (_ || _); simpl; apply window_length; lia.
Qed.

Lemma window_int32 : int32_indexed canvas -> int32_indexed imageData.
Proof. unfold int32_indexed. now rewrite window_width, window_height. Qed.

(** The pixel [(i, j)] of the image data is the pixel of the canvas
    that lies [(i, j)] from the origin of the bounds. *)
Lemma window_alpha (i j : Z) :
  in_bounds imageData i j ->
  alpha imageData i j = alpha canvas (rect_x bounds + i) (rect_y bounds + j).
Proof.
  intros Hin.
  pose proof (alpha_get imageData i j window_wf Hin) as Hget.
  apply window_in_bounds in Hin. destruct Hin as [Hi Hj].
  destruct same_size as [Hw Hh]. fold canvas bounds in Hw, Hh.
  revert Hget. subst imageData. unfold getImageData.
  fold canvas bounds. cbv zeta.
  destruct (Z.eqb_spec (rect_width bounds) 0) as [|_]; [lia|].
  destruct (Z.eqb_spec (rect_height bounds) 0) as [|_]; [lia|].
  simpl. rewrite window_byte by lia. rewrite canvas_byte_alpha.
  intros H. now injection H.
Qed.

End Window.

Lemma at_origin_unscaled (raster : Raster) : at_origin raster -> unscaled raster.
Proof. unfold at_origin, unscaled. intros ->. now split. Qed.

(** For a raster at the origin the image data shows the canvas as it
    is. *)
Lemma window_alpha_at_origin (raster : Raster) (x y : Z) :
  wf_image (raster_canvas raster) -> at_origin raster ->
  alpha (getImageData raster (raster_bounds raster)) x y
  = alpha (raster_canvas raster) x y.
Proof.
  intros Hwf Hat. pose proof (at_origin_unscaled raster Hat) as Hsame.
  assert (Hin : in_bounds (getImageData raster (raster_bounds raster)) x y ->
                alpha (getImageData raster (raster_bounds raster)) x y
                = alpha (raster_canvas raster) x y).
  { intros Hin. rewrite (window_alpha raster Hsame Hwf x y Hin).
    rewrite Hat. simpl. f_equal; lia. }
  destruct (Z.eq_dec (alpha (getImageData raster (raster_bounds raster)) x y) 0)
    as [Hzero|Hnz]; [|now apply Hin, alpha_out_of_bounds].
  destruct (Z.eq_dec (alpha (raster_canvas raster) x y) 0) as [|Hc];
    [congruence|].
  now apply Hin, (window_in_bounds raster Hsame), alpha_out_of_bounds.
Qed.

(** C5, as amended: for a raster whose bounds are
    [(0, 0, width, height)] and whose canvas is a well-formed buffer
    (with byte offsets that fit the 32-bit shifts of the index
    computation), when some pixel has nonzero alpha [getHitBounds]
    returns the tightest rectangle that contains all such pixels: it
    contains them, and it lies inside every rectangle that contains
    them.  When (3, 4) is the only pixel of nonzero alpha, the result is
    [rect(3, 4, 1, 1)].  When every pixel has alpha 0, the result has
    width 0 or height 0. *)
Theorem getHitBounds_tight (raster : Raster) :
  let canvas := raster_canvas raster in
  wf_image canvas -> int32_indexed canvas -> at_origin raster ->
  let bounds := getHitBounds raster in
  ((exists x y, alpha canvas x y <> 0) ->
   (forall x y, alpha canvas x y <> 0 -> contains bounds x y) /\
   (forall r : Rectangle,
       (forall x y, alpha canvas x y <> 0 -> contains r x y) ->
       rect_x r <= rect_x bounds /\
       rect_y r <= rect_y bounds /\
       rect_x bounds + rect_width bounds <= rect_x r + rect_width r /\
       rect_y bounds + rect_height bounds <= rect_y r + rect_height r)) /\
  (alpha canvas 3 4 <> 0 ->
   (forall x y, alpha canvas x y <> 0 -> x = 3 /\ y = 4) ->
   bounds = mkRectangle 3 4 1 1) /\
  ((forall x y, in_bounds canvas x y -> alpha canvas x y = 0) ->
   rect_width bounds = 0 \/ rect_height bounds = 0).
Proof.
  intros canvas Hwf Hfit Hat bounds.
  pose proof (at_origin_unscaled raster Hat) as Hsame.
  set (imageData := getImageData raster (raster_bounds raster)).
  assert (Halpha : forall x y, alpha imageData x y = alpha canvas x y)
    by (intros x y; now apply window_alpha_at_origin).
  assert (Hbounds : bounds = scanBounds (width imageData) imageData).
  { subst bounds imageData. rewrite getHitBounds_scan.
    now rewrite (window_width raster Hsame). }
  pose proof (scanBounds_tight imageData (window_wf raster Hsame Hwf)
                (window_int32 raster Hsame Hfit)) as Hscan.
  cbv zeta in Hscan. rewrite <- Hbounds in Hscan.
  destruct Hscan as (Htight & Hone & Hblank).
  split; [|split].
  - intros (x & y & Hxy).
    destruct Htight as [Hall Hmin]; [exists x, y; now rewrite Halpha|].
    split.
    + intros x' y' Ha. apply Hall. now rewrite Halpha.
    + intros r Hr. apply Hmin. intros x' y' Ha. apply Hr.
      now rewrite <- Halpha.
  - intros H34 Honly. apply Hone; [now rewrite Halpha|].
    intros x y Ha. apply Honly. now rewrite <- Halpha.
  - intros Hall. apply Hblank. intros x y Hin. rewrite Halpha.
    apply Hall. now apply (window_in_bounds raster Hsame).
Qed.

Lemma getHitBounds_tight_witness :
  let raster := mkRaster single_pixel_image (mkRectangle 0 0 4 5) in
  getHitBounds raster = mkRectangle 3 4 1 1 /\
  (forall r : Rectangle,
      (forall x y, alpha single_pixel_image x y <> 0 -> contains r x y) ->
      rect_x r <= 3 /\ rect_y r <= 4 /\
      3 + 1 <= rect_x r + rect_width r /\ 4 + 1 <= rect_y r + rect_height r).
Proof.
  intros raster.
  destruct (getHitBounds_tight raster
              (proj1 single_pixel_image_wf) (proj2 single_pixel_image_wf)
              eq_refl)
    as (Htight & _ & _).
  split; [reflexivity|].
  apply Htight. exists 3, 4. discriminate.
Defined.

(** C5, counterexample: the same buffer, whose only pixel of nonzero
    alpha is (3, 4), on a raster whose bounds are [(1, 0, 4, 5)].  The
    image data is read one column to the right, so the pixel appears in
    its column 2, and the result is [rect(2, 4, 1, 1)], which does not
    contain the pixel.  With the bounds [(-1, -1, 4, 5)] the pixel falls
    out of the image data, and the result is the empty
    [rect(4, 5, 0, 0)]. *)
Lemma getHitBounds_placement_counterexample :
  alpha single_pixel_image 3 4 <> 0 /\
  (forall x y, alpha single_pixel_image x y <> 0 -> x = 3 /\ y = 4) /\
  getHitBounds (mkRaster single_pixel_image (mkRectangle 1 0 4 5))
  = mkRectangle 2 4 1 1 /\
  ~ contains (mkRectangle 2 4 1 1) 3 4 /\
  getHitBounds (mkRaster single_pixel_image (mkRectangle (-1) (-1) 4 5))
  = mkRectangle 4 5 0 0.
Proof.
  split; [discriminate|]. split.
  - intros x y Ha. pose proof (alpha_out_of_bounds _ _ _ Ha) as [Hx Hy].
    simpl in Hx, Hy.
    assert (Hx' : x = 0 \/ x = 1 \/ x = 2 \/ x = 3) by lia.
    assert (Hy' : y = 0 \/ y = 1 \/ y = 2 \/ y = 3 \/ y = 4) by lia.
    destruct Hx' as [->|[->|[->| ->]]], Hy' as [->|[->|[->|[->| ->]]]];
      try (exfalso; apply Ha; reflexivity).
    now split.
  - split; [reflexivity|]. split; [|reflexivity].
    unfold contains. simpl. lia.
Qed.


(** ** Pixel buffers: colours of pixels *)

Lemma color_eqb_eq (p q : Color) : color_eqb p q = true <-> p = q.
Proof.
  unfold color_eqb. destruct p, q; simpl.
  rewrite !andb_true_iff, !Z.eqb_eq. split.
  - intros [[[-> ->] ->] ->]. reflexivity.
  - intros H. injection H as -> -> -> ->. auto.
Qed.

Lemma color_eqb_neq (p q : Color) : color_eqb p q = false <-> p <> q.
Proof. rewrite <- color_eqb_eq. symmetry. apply not_true_iff_false. Qed.

Lemma data_get_set_eq (d : list Z) (i v : Z) :
  0 <= i < Z.of_nat (length d) -> data_get (data_set d i v) i = Some v.
Proof.
  intros Hi. unfold data_get, data_set.
  destruct (Z.ltb_spec i 0); [lia|].
  apply list_lookup_insert_eq. lia.
Qed.

Lemma data_get_set_ne (d : list Z) (i j v : Z) :
  i <> j -> data_get (data_set d i v) j = data_get d j.
Proof.
  intros Hne. unfold data_get, data_set.
  destruct (Z.ltb_spec j 0); [reflexivity|].
  destruct (Z.ltb_spec i 0); [reflexivity|].
  apply list_lookup_insert_ne. lia.
Qed.

Lemma length_data_set (d : list Z) (i v : Z) :
  length (data_set d i v) = length d.
Proof.
  unfold data_set. destruct (i <? 0); [reflexivity|]. apply length_insert.
Qed.

Lemma matchesColor_spec (img : ImageData) (x y : Z) (c : Color) :
  wf_image img -> in_bounds img x y ->
  matchesColor_ x y img c = color_eqb (getColor_ x y img) c.
Proof.
  intros Hwf Hin. unfold matchesColor_, getColor_, color_eqb.
  rewrite (in_bounds_test img x y Hin).
  pose proof (pixel_offset_range img x y Hwf Hin) as Hr.
  set (k := (y * width img + x) * 4) in *.
  destruct (data_get_Some (data img) (k + 0)) as [v0 ->]; [lia|].
  destruct (data_get_Some (data img) (k + 1)) as [v1 ->]; [lia|].
  destruct (data_get_Some (data img) (k + 2)) as [v2 ->]; [lia|].
  destruct (data_get_Some (data img) (k + 3)) as [v3 ->]; [lia|].
  reflexivity.
Qed.

Lemma matchesColor_true (img : ImageData) (x y : Z) (c : Color) :
  wf_image img -> in_bounds img x y ->
  matchesColor_ x y img c = true <-> getColor_ x y img = c.
Proof.
  intros Hwf Hin. rewrite matchesColor_spec by assumption. apply color_eqb_eq.
Qed.

Lemma matchesColor_false (img : ImageData) (x y : Z) (c : Color) :
  wf_image img -> in_bounds img x y ->
  matchesColor_ x y img c = false <-> getColor_ x y img <> c.
Proof.
  intros Hwf Hin. rewrite matchesColor_spec by assumption. apply color_eqb_neq.
Qed.

Lemma colorPixel_width x y img c : width (colorPixel_ x y img c) = width img.
Proof. reflexivity. Qed.

Lemma colorPixel_height x y img c : height (colorPixel_ x y img c) = height img.
Proof. reflexivity. Qed.

Lemma colorPixel_wf x y img c : wf_image img -> wf_image (colorPixel_ x y img c).
Proof.
  intros (Hw & Hh & Hlen). unfold wf_image, colorPixel_. simpl.
  now rewrite !length_data_set.
Qed.

Lemma colorPixel_in_bounds x y img c x' y' :
  in_bounds (colorPixel_ x y img c) x' y' <-> in_bounds img x' y'.
Proof. reflexivity. Qed.

Lemma pixel_offset_inj (img : ImageData) (x y x' y' : Z) :
  in_bounds img x y -> in_bounds img x' y' ->
  y * width img + x = y' * width img + x' -> x = x' /\ y = y'.
Proof.
  intros [Hx Hy] [Hx' Hy'] Heq.
  assert (y = y') by nia. subst y'. lia.
Qed.

Lemma getColor_colorPixel_same (img : ImageData) (x y : Z) (c : Color) :
  wf_image img -> in_bounds img x y ->
  getColor_ x y (colorPixel_ x y img c) = c.
Proof.
  intros Hwf Hin. unfold getColor_.
  rewrite colorPixel_width, colorPixel_height, (in_bounds_test img x y Hin).
  pose proof (pixel_offset_range img x y Hwf Hin) as Hr.
  unfold colorPixel_. simpl data.
  set (k := (y * width img + x) * 4) in *.
  rewrite (data_get_set_ne _ (k + 3) (k + 0)) by lia.
  rewrite (data_get_set_ne _ (k + 2) (k + 0)) by lia.
  rewrite (data_get_set_ne _ (k + 1) (k + 0)) by lia.
  rewrite (data_get_set_eq _ (k + 0)) by lia.
  rewrite (data_get_set_ne _ (k + 3) (k + 1)) by lia.
  rewrite (data_get_set_ne _ (k + 2) (k + 1)) by lia.
  rewrite (data_get_set_eq _ (k + 1)) by (rewrite !length_data_set; lia).
  rewrite (data_get_set_ne _ (k + 3) (k + 2)) by lia.
  rewrite (data_get_set_eq _ (k + 2)) by (rewrite !length_data_set; lia).
  rewrite (data_get_set_eq _ (k + 3)) by (rewrite !length_data_set; lia).
  now destruct c.
Qed.

Lemma getColor_colorPixel_other (img : ImageData) (x y x' y' : Z) (c : Color) :
  in_bounds img x y -> (x', y') <> (x, y) ->
  getColor_ x' y' (colorPixel_ x y img c) = getColor_ x' y' img.
Proof.
  intros Hin Hne. unfold getColor_.
  rewrite colorPixel_width, colorPixel_height.
  destruct ((0 <=? x') && (x' <? width img) && (0 <=? y') && (y' <? height img))
    eqn:Hin'; [|reflexivity].
  assert (in_bounds img x' y') as Hin''.
  { rewrite !andb_true_iff, !Z.leb_le, !Z.ltb_lt in Hin'. unfold in_bounds. lia. }
  assert (y * width img + x <> y' * width img + x') as Hk.
  { intros Heq. destruct (pixel_offset_inj img x y x' y' Hin Hin'' Heq).
    apply Hne. congruence. }
  unfold colorPixel_. simpl data.
  set (k := (y * width img + x) * 4) in *.
  set (k' := (y' * width img + x') * 4) in *.
  assert (k <> k' /\ k mod 4 = 0 /\ k' mod 4 = 0) as (Hkk & Hm & Hm').
  { subst k k'. rewrite !Z.mod_mul by lia. lia. }
  rewrite !data_get_set_ne by lia. reflexivity.
Qed.

(** ** FloodFiller: the global fill *)

Section FillAll.

Variables oldColor newColor : Color.

(** The body of the inner loop of [floodFillAll]. *)
Let recolor (i : Z) (imageData : ImageData) (j : Z) : ImageData :=
  if matchesColor_ i j imageData oldColor
  then colorPixel_ i j imageData newColor
  else imageData.

Lemma recolor_spec (i j : Z) (img : ImageData) :
  wf_image img -> in_bounds img i j ->
  let img' := recolor i img j in
  wf_image img' /\ width img' = width img /\ height img' = height img /\
  (forall x y, in_bounds img x y ->
     getColor_ x y img' =
     if decide ((x, y) = (i, j) /\ getColor_ x y img = oldColor)
     then newColor else getColor_ x y img).
Proof.
  intros Hwf Hin. unfold recolor.
  destruct (matchesColor_ i j img oldColor) eqn:Hm; simpl.
  - apply matchesColor_true in Hm; [|assumption..].
    split; [now apply colorPixel_wf|]. do 2 (split; [reflexivity|]).
    intros x y Hxy. destruct (decide _) as [[Heq Hold] | Hn].
    + injection Heq as -> ->. now apply getColor_colorPixel_same.
    + apply getColor_colorPixel_other; [assumption|].
      intros Heq. apply Hn. split; [assumption|].
      injection Heq as -> ->. assumption.
  - apply matchesColor_false in Hm; [|assumption..].
    split; [assumption|]. do 2 (split; [reflexivity|]).
    intros x y Hxy. destruct (decide _) as [[Heq Hold] | Hn]; [|reflexivity].
    injection Heq as -> ->. contradiction.
Qed.

Lemma column_loop (n : nat) : forall (i a : Z) (img : ImageData),
  wf_image img -> 0 <= i < width img -> 0 <= a ->
  a + Z.of_nat n <= height img ->
  let img' := foldl (recolor i) img (seqZ a (Z.of_nat n)) in
  wf_image img' /\ width img' = width img /\ height img' = height img /\
  (forall x y, in_bounds img x y ->
     getColor_ x y img' =
     if decide (x = i /\ a <= y < a + Z.of_nat n /\ getColor_ x y img = oldColor)
     then newColor else getColor_ x y img).
Proof.
  induction n as [|n IH]; intros i a img Hwf Hi Ha Hn.
  - simpl. split; [assumption|]. do 2 (split; [reflexivity|]).
    intros x y Hxy. destruct (decide _) as [H|]; [lia | reflexivity].
  - rewrite seqZ_cons by lia. simpl foldl.
    destruct (recolor_spec i a img Hwf ltac:(split; lia))
      as (Hwf1 & Hw1 & Hh1 & Hpix1).
    replace (Z.pred (Z.of_nat (S n))) with (Z.of_nat n) by lia.
    destruct (IH i (Z.succ a) (recolor i img a) Hwf1 ltac:(lia) ltac:(lia)
                ltac:(lia)) as (Hwf2 & Hw2 & Hh2 & Hpix2).
    split; [exact Hwf2|]. split; [congruence|]. split; [congruence|].
    intros x y Hxy.
    rewrite Hpix2 by (unfold in_bounds in *; rewrite Hw1, Hh1; exact Hxy).
    rewrite Hpix1 by exact Hxy.
    destruct (decide ((x, y) = (i, a) /\ getColor_ x y img = oldColor))
      as [[Heq Hold] | Hn1].
    + injection Heq as -> ->.
      transitivity newColor; [now destruct (decide _)|].
      symmetry. apply decide_True.
      split; [|split]; [reflexivity | lia | assumption].
    + destruct (decide (x = i /\ Z.succ a <= y < Z.succ a + Z.of_nat n /\ _))
        as [(-> & Hy & Hold) | Hn2].
      * rewrite decide_True; [reflexivity|]. split; [|split]; [reflexivity | lia | assumption].
      * rewrite decide_False; [reflexivity|]. intros (-> & Hy & Hold).
        destruct (Z.eq_dec y a) as [-> | Hne].
        -- apply Hn1. now split.
        -- apply Hn2. split; [|split]; [reflexivity | lia | assumption].
Qed.

Lemma image_loop (n : nat) : forall (a : Z) (img : ImageData),
  wf_image img -> 0 <= a -> a + Z.of_nat n <= width img ->
  let img' :=
    foldl (fun imageData i =>
             foldl (recolor i) imageData (seqZ 0 (height imageData)))
      img (seqZ a (Z.of_nat n)) in
  wf_image img' /\ width img' = width img /\ height img' = height img /\
  (forall x y, in_bounds img x y ->
     getColor_ x y img' =
     if decide (a <= x < a + Z.of_nat n /\ getColor_ x y img = oldColor)
     then newColor else getColor_ x y img).
Proof.
  induction n as [|n IH]; intros a img Hwf Ha Hn.
  - simpl. split; [assumption|]. do 2 (split; [reflexivity|]).
    intros x y Hxy. destruct (decide _) as [H|]; [lia | reflexivity].
  - rewrite seqZ_cons by lia. simpl foldl.
    pose proof Hwf as (Hw0 & Hh0 & _).
    destruct (column_loop (Z.to_nat (height img)) a 0 img Hwf ltac:(lia)
                ltac:(lia) ltac:(lia)) as (Hwf1 & Hw1 & Hh1 & Hpix1).
    rewrite Z2Nat.id in Hwf1, Hw1, Hh1, Hpix1 by lia.
    set (img1 := foldl (recolor a) img (seqZ 0 (height img))) in *.
    replace (Z.pred (Z.of_nat (S n))) with (Z.of_nat n) by lia.
    destruct (IH (Z.succ a) img1 Hwf1 ltac:(lia) ltac:(lia))
      as (Hwf2 & Hw2 & Hh2 & Hpix2).
    split; [exact Hwf2|]. split; [congruence|]. split; [congruence|].
    intros x y Hxy.
    rewrite Hpix2 by (unfold in_bounds in *; rewrite Hw1, Hh1; exact Hxy).
    rewrite Hpix1 by exact Hxy.
    destruct (decide (x = a /\ 0 <= y < 0 + height img /\ getColor_ x y img = oldColor))
      as [(-> & Hy & Hold) | Hn1].
    + transitivity newColor; [now destruct (decide _)|].
      symmetry. apply decide_True. split; [lia | assumption].
    + destruct (decide (Z.succ a <= x < Z.succ a + Z.of_nat n /\ _))
        as [(Hx & Hold) | Hn2].
      * rewrite decide_True; [reflexivity|]. split; [lia | assumption].
      * rewrite decide_False; [reflexivity|]. intros (Hx & Hold).
        destruct (Z.eq_dec x a) as [-> | Hne].
        -- apply Hn1. destruct Hxy. split; [|split]; [reflexivity | lia | assumption].
        -- apply Hn2. split; [lia | assumption].
Qed.

End FillAll.

Lemma floodFillAll_general (fillStyleToColor_ : string -> Color)
    (x y : number) (color : string) (context : ImageData) :
  let oldColor := getColor_ (toInt32 x) (toInt32 y) context in
  let newColor := fillStyleToColor_ color in
  wf_image context -> oldColor <> newColor ->
  exists imageData : ImageData,
    floodFillAll fillStyleToColor_ x y color context = (true, imageData) /\
    wf_image imageData /\
    width imageData = width context /\
    height imageData = height context /\
    (forall i j, in_bounds context i j ->
       getColor_ i j imageData =
       if decide (getColor_ i j context = oldColor)
       then newColor else getColor_ i j context).
Proof.
  intros oldColor newColor Hwf Hne. unfold floodFillAll.
  fold oldColor newColor.
  apply color_eqb_neq in Hne. rewrite Hne.
  eexists. split; [reflexivity|].
  pose proof Hwf as (Hw & Hh & _).
  destruct (image_loop oldColor newColor (Z.to_nat (width context)) 0 context
              Hwf ltac:(lia) ltac:(lia)) as (Hwf' & Hw' & Hh' & Hpix).
  rewrite Z2Nat.id in Hwf', Hw', Hh', Hpix by lia.
  split; [exact Hwf'|]. split; [exact Hw'|]. split; [exact Hh'|].
  intros i j Hij. rewrite (Hpix i j Hij).
  destruct Hij as [Hi Hj].
  destruct (decide (getColor_ i j context = oldColor)) as [Hold | Hn].
  - apply decide_True. split; [lia | assumption].
  - apply decide_False. intros [_ Hold]. contradiction.
Qed.

(** C2: when the target colour differs from the colour sampled at the
    seed, [floodFillAll] returns true and recolours to the target exactly
    the pixels whose four channels equal the sampled colour, wherever they
    are; every other pixel keeps its four channels and the buffer keeps
    its size.  On the 10 x 10 transparent buffer with a target ["#ff0000"]
    that the browser resolves to (255, 0, 0, 255), all 100 pixels become
    (255, 0, 0, 255). *)
Theorem floodFillAll_recolors (fillStyleToColor_ : string -> Color) :
  (forall (x y : number) (color : string) (context : ImageData),
      let oldColor := getColor_ (toInt32 x) (toInt32 y) context in
      let newColor := fillStyleToColor_ color in
      wf_image context ->
      in_bounds context (toInt32 x) (toInt32 y) ->
      oldColor <> newColor ->
      exists imageData : ImageData,
        floodFillAll fillStyleToColor_ x y color context = (true, imageData) /\
        width imageData = width context /\
        height imageData = height context /\
        length (data imageData) = length (data context) /\
        (forall i j, in_bounds context i j ->
           getColor_ i j imageData =
           if decide (getColor_ i j context = oldColor)
           then newColor else getColor_ i j context)) /\
  (fillStyleToColor_ "#ff0000" = RGBA 255 0 0 255 ->
   floodFillAll fillStyleToColor_ (Fin 5) (Fin 5) "#ff0000" blank_10x10
   = (true, red_10x10) /\
   (forall i j, in_bounds red_10x10 i j ->
      getColor_ i j red_10x10 = RGBA 255 0 0 255)).
Proof.
  split.
  - intros x y color context oldColor newColor Hwf _ Hne.
    destruct (floodFillAll_general fillStyleToColor_ x y color context Hwf Hne)
      as (img & Hrun & Hwf' & Hw & Hh & Hpix).
    exists img. repeat split; try assumption.
    destruct Hwf as (_ & _ & Hlen), Hwf' as (_ & _ & Hlen'). lia.
  - intros Hred. split.
    + unfold floodFillAll. rewrite Hred. vm_compute. reflexivity.
    + intros i j [Hi Hj]. simpl in Hi, Hj.
      assert (Hcases : forall k, 0 <= k < 10 ->
                k = 0 \/ k = 1 \/ k = 2 \/ k = 3 \/ k = 4 \/
                k = 5 \/ k = 6 \/ k = 7 \/ k = 8 \/ k = 9) by (intros; lia).
      destruct (Hcases i Hi) as [-> | [-> | [-> | [-> | [-> | [-> | [-> | [-> | [-> | ->]]]]]]]]];
      destruct (Hcases j Hj) as [-> | [-> | [-> | [-> | [-> | [-> | [-> | [-> | [-> | ->]]]]]]]]];
      vm_compute; reflexivity.
Qed.

Lemma floodFillAll_recolors_witness :
  floodFillAll (fun _ => RGBA 255 0 0 255) (Fin 5) (Fin 5) "#ff0000" blank_10x10
  = (true, red_10x10) /\
  (forall i j, in_bounds red_10x10 i j ->
     getColor_ i j red_10x10 = RGBA 255 0 0 255).
Proof.
  apply (proj2 (floodFillAll_recolors (fun _ => RGBA 255 0 0 255))).
  reflexivity.
Defined.

(** C7: when the colour sampled at the seed pixel equals the resolved
    target colour in all four channels, [floodFill] and [floodFillAll]
    return false and leave the buffer as it was. *)
Theorem fill_same_color_noop (fillStyleToColor_ : string -> Color)
    (fuel : nat) (x y : number) (color : string) (context : ImageData) :
  getColor_ (toInt32 x) (toInt32 y) context = fillStyleToColor_ color ->
  floodFill fillStyleToColor_ fuel x y color context = Some (false, context) /\
  floodFillAll fillStyleToColor_ x y color context = (false, context).
Proof.
  intros Hsame. apply color_eqb_eq in Hsame.
  unfold floodFill, floodFillAll. now rewrite Hsame.
Qed.

Lemma fill_same_color_noop_witness :
  floodFill (fun _ => RGBA 0 0 0 0) 0 (Fin (11 # 2)) (Fin 5) "transparent"
    blank_10x10 = Some (false, blank_10x10) /\
  floodFillAll (fun _ => RGBA 0 0 0 0) (Fin (11 # 2)) (Fin 5) "transparent"
    blank_10x10 = (false, blank_10x10).
Proof.
  apply (fill_same_color_noop (fun _ => RGBA 0 0 0 0) 0 (Fin (11 # 2)) (Fin 5)
           "transparent" blank_10x10).
  reflexivity.
Defined.

(** ** FloodFiller: the scoped fill *)

(** *** Counting the pixels that remain to be recoloured *)

Lemma count_upto_le (img : ImageData) (c : Color) (n : nat) :
  (count_upto img c n <= n)%nat.
Proof.
  induction n as [|n IH]; simpl; [lia|].
  destruct (color_eqb _ _); lia.
Qed.

Lemma count_color_le (img : ImageData) (c : Color) :
  (count_color img c <= Z.to_nat (width img * height img))%nat.
Proof. apply count_upto_le. Qed.

Lemma count_upto_colorPixel (img : ImageData) (x y : Z) (old new : Color) (n : nat) :
  wf_image img -> in_bounds img x y -> old <> new ->
  getColor_ x y img = old ->
  (count_upto (colorPixel_ x y img new) old n +
   (if (Z.of_nat n <=? y * width img + x)%Z then 0 else 1)
   = count_upto img old n)%nat.
Proof.
  intros Hwf Hin Hne Hold. pose proof Hin as [Hx Hy].
  induction n as [|n IH].
  - simpl count_upto.
    destruct (Z.leb_spec (Z.of_nat 0) (y * width img + x)); [reflexivity | nia].
  - simpl count_upto. rewrite ?colorPixel_width.
    destruct (Z.eq_dec (Z.of_nat n) (y * width img + x)) as [Heq | Hneq].
    + assert (Z.of_nat n mod width img = x) as ->.
      { rewrite Heq. rewrite Z.add_comm, Z.mod_add by lia.
        apply Z.mod_small; lia. }
      assert (Z.of_nat n / width img = y) as ->.
      { rewrite Heq. rewrite Z.add_comm, Z.div_add by lia.
        rewrite Z.div_small by lia. lia. }
      rewrite getColor_colorPixel_same by assumption. rewrite Hold.
      assert (color_eqb new old = false) as ->
          by (apply color_eqb_neq; congruence).
      assert (color_eqb old old = true) as -> by now apply color_eqb_eq.
      destruct (Z.leb_spec (Z.of_nat n) (y * width img + x)); [|lia].
      destruct (Z.leb_spec (Z.of_nat (S n)) (y * width img + x)); lia.
    + rewrite getColor_colorPixel_other; [|assumption|].
      * destruct (Z.leb_spec (Z.of_nat n) (y * width img + x)),
          (Z.leb_spec (Z.of_nat (S n)) (y * width img + x)); lia.
      * intros Heq. injection Heq as Hm Hd. apply Hneq.
        rewrite (Z.div_mod (Z.of_nat n) (width img)) by lia. rewrite Hm, Hd. lia.
Qed.

Lemma count_color_colorPixel (img : ImageData) (x y : Z) (old new : Color) :
  wf_image img -> in_bounds img x y -> old <> new ->
  getColor_ x y img = old ->
  (count_color (colorPixel_ x y img new) old + 1 = count_color img old)%nat.
Proof.
  intros Hwf Hin Hne Hold. unfold count_color.
  rewrite colorPixel_width, colorPixel_height.
  rewrite <- (count_upto_colorPixel img x y old new _ Hwf Hin Hne Hold).
  destruct Hin as [Hx Hy].
  destruct (Z.leb_spec (Z.of_nat (Z.to_nat (width img * height img)))
              (y * width img + x)); [nia | reflexivity].
Qed.

(** *** One call of [floodFillInternal_] *)

Section ScopedFill.

Variables oldColor newColor : Color.
Hypothesis colors_differ : oldColor <> newColor.

Lemma climb_spec (n : nat) : forall (x y : Z) (img : ImageData),
  wf_image img -> 0 <= x < width img ->
  0 <= y <= Z.of_nat n -> y <= height img ->
  let top := climb n x y img oldColor in
  0 <= top <= y /\
  (forall r, top <= r < y -> getColor_ x r img = oldColor) /\
  (top = 0 \/ getColor_ x (top - 1) img <> oldColor).
Proof.
  induction n as [|n IH]; intros x y img Hwf Hx Hy Hh; simpl.
  - split; [lia|]. split; [intros r Hr; lia | left; lia].
  - rewrite Z.gtb_ltb. destruct (Z.ltb_spec 0 y) as [Hpos | Hzero]; simpl.
    + destruct (matchesColor_ x (y - 1) img oldColor) eqn:Hm.
      * apply matchesColor_true in Hm; [|assumption | split; lia].
        destruct (IH x (y - 1) img Hwf Hx ltac:(lia) ltac:(lia))
          as (Ht & Hrun & Hstop).
        split; [lia|]. split; [|exact Hstop].
        intros r Hr. destruct (Z.eq_dec r (y - 1)) as [-> | Hne];
          [exact Hm | apply Hrun; lia].
      * apply matchesColor_false in Hm; [|assumption | split; lia].
        split; [lia|]. split; [intros r Hr; lia | now right].
    + split; [lia|]. split; [intros r Hr; lia | left; lia].
Qed.

Lemma scanRow_sides (x y : Z) (img : ImageData) (stack : list (Z * Z))
    (fl fr : bool) :
  scanRow x y img newColor oldColor stack fl fr =
  let img' := colorPixel_ x y img newColor in
  let sl := neighbourStep (x >? 0) (x - 1) y img' oldColor stack fl in
  let sr := neighbourStep (x <? width img - 1) (x + 1) y img' oldColor sl.1 fr in
  (img', sr.1, sl.2, sr.2).
Proof.
  unfold scanRow, neighbourStep. rewrite colorPixel_width.
  destruct (x >? 0), (x <? width img - 1),
    (matchesColor_ (x - 1) y (colorPixel_ x y img newColor) oldColor),
    (matchesColor_ (x + 1) y (colorPixel_ x y img newColor) oldColor),
    fl, fr; reflexivity.
Qed.

Lemma reach_mono (img : ImageData) (st st' : list (Z * Z)) (xs r : Z) :
  (forall p, p ∈ st -> p ∈ st') ->
  reach img oldColor st xs r -> reach img oldColor st' xs r.
Proof. intros Hsub (py & Hin & Hle & Hrun). exists py. auto. Qed.

(** The neighbour test keeps the meaning of its flag: the flag is set
    only when the neighbour above the next row is joined to a stack
    entry. *)
Lemma neighbourStep_spec (inside : bool) (xs y : Z) (cur ref : ImageData)
    (st : list (Z * Z)) (flag : bool) :
  wf_image cur -> width cur = width ref -> height cur = height ref ->
  (inside = true -> in_bounds ref xs y) ->
  (inside = false -> ~ in_bounds ref xs y) ->
  (forall r, getColor_ xs r cur = getColor_ xs r ref) ->
  (flag = true -> reach ref oldColor st xs (y - 1)) ->
  (inside = false -> flag = false) ->
  let res := neighbourStep inside xs y cur oldColor st flag in
  (exists pushed, res.1 = pushed ++ st /\
     forall p, p ∈ pushed ->
       p = (xs, y) /\ in_bounds ref xs y /\ getColor_ xs y ref = oldColor) /\
  (res.2 = true -> reach ref oldColor res.1 xs y) /\
  (inside = false -> res.2 = false) /\
  (in_bounds ref xs y -> getColor_ xs y ref = oldColor ->
   reach ref oldColor res.1 xs y).
Proof.
  intros Hwf Hw Hh Hin Hout Hsame Hflag Hoff. unfold neighbourStep.
  assert (Hnone : exists pushed : list (Z * Z), st = pushed ++ st /\
     forall p, p ∈ pushed ->
       p = (xs, y) /\ in_bounds ref xs y /\ getColor_ xs y ref = oldColor).
  { exists []. split; [reflexivity|]. intros p Hp. now apply elem_of_nil in Hp. }
  destruct inside.
  - specialize (Hin eq_refl).
    assert (in_bounds cur xs y) as Hin' by (unfold in_bounds in *; now rewrite Hw, Hh).
    destruct (matchesColor_ xs y cur oldColor) eqn:Hm.
    + apply matchesColor_true in Hm; [|assumption..]. rewrite Hsame in Hm.
      destruct flag; simpl.
      * assert (reach ref oldColor st xs y) as Hr.
        { destruct (Hflag eq_refl) as (py & Hpy & Hle & Hrun).
          exists py. split; [assumption|]. split; [lia|].
          intros r' Hr'. destruct (Z.eq_dec r' y) as [-> | Hne];
            [exact Hm | apply Hrun; lia]. }
        split; [exact Hnone|]. split; [auto|]. split; [discriminate | auto].
      * assert (reach ref oldColor ((xs, y) :: st) xs y) as Hr.
        { exists y. split; [apply elem_of_cons; now left|]. split; [lia|].
          intros r' Hr'. now replace r' with y by lia. }
        split; [|split; [auto|]; split; [discriminate | auto]].
        exists [(xs, y)]. split; [reflexivity|].
        intros p Hp. apply list_elem_of_singleton in Hp. subst p. auto.
    + apply matchesColor_false in Hm; [|assumption..]. rewrite Hsame in Hm.
      simpl. split; [exact Hnone|]. split; [discriminate|].
      split; [discriminate|]. intros _ Hold. contradiction.
  - specialize (Hout eq_refl). specialize (Hoff eq_refl). subst flag. simpl.
    split; [exact Hnone|]. split; [discriminate|]. split; [reflexivity|].
    intros Hin'. contradiction.
Qed.

Lemma neighbourStep_length (inside : bool) (xs y : Z) (cur : ImageData)
    (st : list (Z * Z)) (flag : bool) :
  (length (neighbourStep inside xs y cur oldColor st flag).1 <= S (length st))%nat.
Proof.
  unfold neighbourStep.
  destruct inside, (matchesColor_ xs y cur oldColor), flag; simpl; lia.
Qed.

Lemma scan_unfold (n : nat) (x y : Z) (cur : ImageData) (st : list (Z * Z))
    (fl fr : bool) :
  y < height cur -> matchesColor_ x y cur oldColor = true ->
  scan (S n) x y cur newColor oldColor st fl fr =
  let img' := colorPixel_ x y cur newColor in
  let sl := neighbourStep (x >? 0) (x - 1) y img' oldColor st fl in
  let sr := neighbourStep (x <? width cur - 1) (x + 1) y img' oldColor sl.1 fr in
  scan n x (y + 1) img' newColor oldColor sr.1 sl.2 sr.2.
Proof.
  intros Hy Hm. simpl scan.
  destruct (Z.ltb_spec y (height cur)); [|lia].
  rewrite Hm, scanRow_sides. reflexivity.
Qed.

Lemma scan_stop (n : nat) (x y : Z) (cur : ImageData) (st : list (Z * Z))
    (fl fr : bool) :
  height cur <= y \/ matchesColor_ x y cur oldColor = false ->
  scan n x y cur newColor oldColor st fl fr = (cur, st).
Proof.
  intros H. destruct n; simpl; [reflexivity|].
  destruct (Z.ltb_spec y (height cur)); [|reflexivity].
  destruct H as [H | ->]; [lia | reflexivity].
Qed.

(** Every recoloured pixel pays for the at most two entries pushed at its
    row. *)
Lemma scan_potential (n : nat) : forall (x y : Z) (cur : ImageData)
    (st : list (Z * Z)) (fl fr : bool),
  wf_image cur -> 0 <= x < width cur -> 0 <= y ->
  let res := scan n x y cur newColor oldColor st fl fr in
  (2 * count_color res.1 oldColor + length res.2
   <= 2 * count_color cur oldColor + length st)%nat.
Proof.
  induction n as [|n IH]; intros x y cur st fl fr Hwf Hx Hy; [simpl; lia|].
  destruct (Z_lt_le_dec y (height cur)) as [Hlt | Hge];
    [|rewrite scan_stop by (left; lia); simpl; lia].
  destruct (matchesColor_ x y cur oldColor) eqn:Hm;
    [|rewrite scan_stop by (now right); simpl; lia].
  rewrite scan_unfold by assumption. cbv zeta.
  apply matchesColor_true in Hm; [|assumption | split; lia].
  pose proof (count_color_colorPixel cur x y oldColor newColor Hwf
                ltac:(split; lia) colors_differ Hm) as Hcount.
  set (img' := colorPixel_ x y cur newColor) in *.
  set (sl := neighbourStep (x >? 0) (x - 1) y img' oldColor st fl).
  set (sr := neighbourStep (x <? width cur - 1) (x + 1) y img' oldColor sl.1 fr).
  pose proof (neighbourStep_length (x >? 0) (x - 1) y img' st fl) as Hl.
  pose proof (neighbourStep_length (x <? width cur - 1) (x + 1) y img' sl.1 fr)
    as Hr.
  fold sl in Hl. fold sl sr in Hr.
  specialize (IH x (y + 1) img' sr.1 sl.2 sr.2
                (colorPixel_wf x y cur newColor Hwf) Hx ltac:(lia)).
  cbv zeta in IH. lia.
Qed.

(** The scan from row [y] of column [x], relative to the image [ref] that
    [floodFillInternal_] was called with: [cur] is [ref] with some rows of
    column [x] above [y] already recoloured. *)
Lemma scan_spec (ref : ImageData) (x : Z) (n : nat) :
  forall (y : Z) (cur : ImageData) (st : list (Z * Z)) (fl fr : bool),
    wf_image cur -> width cur = width ref -> height cur = height ref ->
    0 <= x < width ref -> 0 <= y <= height ref ->
    height ref - y <= Z.of_nat n ->
    (forall x' r, x' <> x -> getColor_ x' r cur = getColor_ x' r ref) ->
    (forall r, y <= r -> getColor_ x r cur = getColor_ x r ref) ->
    (fl = true -> reach ref oldColor st (x - 1) (y - 1)) ->
    (fr = true -> reach ref oldColor st (x + 1) (y - 1)) ->
    (x = 0 -> fl = false) -> (x = width ref - 1 -> fr = false) ->
    let res := scan n x y cur newColor oldColor st fl fr in
    exists (bottom : Z) (pushes : list (Z * Z)),
      y <= bottom <= height ref /\
      (forall r, y <= r < bottom -> getColor_ x r ref = oldColor) /\
      (bottom = height ref \/ getColor_ x bottom ref <> oldColor) /\
      wf_image res.1 /\ width res.1 = width ref /\ height res.1 = height ref /\
      (forall x' y',
          getColor_ x' y' res.1 =
          if decide (x' = x /\ y <= y' < bottom)
          then newColor else getColor_ x' y' cur) /\
      res.2 = pushes ++ st /\
      (forall p, p ∈ pushes ->
         (p.1 = x - 1 \/ p.1 = x + 1) /\ y <= p.2 < bottom /\
         in_bounds ref p.1 p.2 /\ getColor_ p.1 p.2 ref = oldColor) /\
      (forall r xs, y <= r < bottom -> xs = x - 1 \/ xs = x + 1 ->
         in_bounds ref xs r -> getColor_ xs r ref = oldColor ->
         reach ref oldColor res.2 xs r).
Proof.
  induction n as [|n IH];
    intros y cur st fl fr Hwf Hw Hh Hx Hy Hn Hside Hbelow Hfl Hfr Hl0 Hr0.
  all: assert (Hstop : forall m,
    height cur <= y \/ matchesColor_ x y cur oldColor = false ->
    let res := scan m x y cur newColor oldColor st fl fr in
    exists (bottom : Z) (pushes : list (Z * Z)),
      y <= bottom <= height ref /\
      (forall r, y <= r < bottom -> getColor_ x r ref = oldColor) /\
      (bottom = height ref \/ getColor_ x bottom ref <> oldColor) /\
      wf_image res.1 /\ width res.1 = width ref /\ height res.1 = height ref /\
      (forall x' y',
          getColor_ x' y' res.1 =
          if decide (x' = x /\ y <= y' < bottom)
          then newColor else getColor_ x' y' cur) /\
      res.2 = pushes ++ st /\
      (forall p, p ∈ pushes ->
         (p.1 = x - 1 \/ p.1 = x + 1) /\ y <= p.2 < bottom /\
         in_bounds ref p.1 p.2 /\ getColor_ p.1 p.2 ref = oldColor) /\
      (forall r xs, y <= r < bottom -> xs = x - 1 \/ xs = x + 1 ->
         in_bounds ref xs r -> getColor_ xs r ref = oldColor ->
         reach ref oldColor res.2 xs r)).
  1, 3: intros m Hcase; rewrite scan_stop by exact Hcase; simpl;
    exists y, []; split; [lia|];
    split; [intros r Hr; lia|];
    (split; [destruct Hcase as [Hge | Hm];
             [left; lia
             | destruct (Z.eq_dec y (height ref)) as [|Hne]; [now left|];
               right; rewrite <- Hbelow by lia;
               apply matchesColor_false in Hm;
               [exact Hm | exact Hwf | unfold in_bounds; lia]]|]);
    (split; [exact Hwf|]); (split; [exact Hw|]); (split; [exact Hh|]);
    (split; [intros x' y'; rewrite decide_False by lia; reflexivity|]);
    (split; [reflexivity|]);
    (split; [intros p Hp; now apply elem_of_nil in Hp | intros r xs Hr; lia]).
  - apply Hstop. left. lia.
  - destruct (Z_lt_le_dec y (height cur)) as [Hlt | Hge];
      [|apply Hstop; left; lia].
    destruct (matchesColor_ x y cur oldColor) eqn:Hm;
      [|apply Hstop; now right].
    clear Hstop.
    rewrite scan_unfold by assumption. cbv zeta.
    assert (in_bounds cur x y) as Hin by (unfold in_bounds; lia).
    apply matchesColor_true in Hm; [|assumption..].
    assert (Hold : getColor_ x y ref = oldColor)
      by (rewrite <- Hbelow by lia; exact Hm).
    set (img' := colorPixel_ x y cur newColor).
    assert (Hpix' : forall x' y', getColor_ x' y' img' =
              if decide (x' = x /\ y' = y) then newColor else getColor_ x' y' cur).
    { intros x' y'. destruct (decide _) as [[-> ->] | Hne].
      - now apply getColor_colorPixel_same.
      - apply getColor_colorPixel_other; [assumption|].
        intros Heq. injection Heq as -> ->. now apply Hne. }
    assert (Hside' : forall x' r, x' <> x ->
              getColor_ x' r img' = getColor_ x' r ref).
    { intros x' r Hne. rewrite Hpix', decide_False by lia. now apply Hside. }
    pose proof (colorPixel_wf x y cur newColor Hwf) as Hwf'. fold img' in Hwf'.
    destruct (neighbourStep_spec (x >? 0) (x - 1) y img' ref st fl Hwf' Hw Hh)
      as ((pl & Hpl & Hpl_in) & Hfl' & Hl0' & Hcl).
    { rewrite Z.gtb_ltb, Z.ltb_lt. unfold in_bounds. lia. }
    { rewrite Z.gtb_ltb, Z.ltb_ge. unfold in_bounds. lia. }
    { intros r. apply Hside'. lia. }
    { exact Hfl. }
    { rewrite Z.gtb_ltb, Z.ltb_ge. intros H0. apply Hl0. lia. }
    set (sl := neighbourStep (x >? 0) (x - 1) y img' oldColor st fl) in *.
    destruct (neighbourStep_spec (x <? width cur - 1) (x + 1) y img' ref sl.1 fr
                Hwf' Hw Hh)
      as ((pr & Hpr & Hpr_in) & Hfr' & Hr0' & Hcr).
    { rewrite Z.ltb_lt. unfold in_bounds. lia. }
    { rewrite Z.ltb_ge. unfold in_bounds. lia. }
    { intros r. apply Hside'. lia. }
    { intros Ht. apply (reach_mono ref st); [|now apply Hfr].
      intros p Hp. rewrite Hpl. apply elem_of_app. now right. }
    { rewrite Z.ltb_ge. intros H0. apply Hr0. lia. }
    set (sr := neighbourStep (x <? width cur - 1) (x + 1) y img' oldColor sl.1 fr)
      in *.
    assert (Hsub : forall p, p ∈ sl.1 -> p ∈ sr.1).
    { intros p Hp. rewrite Hpr. apply elem_of_app. now right. }
    destruct (IH (y + 1) img' sr.1 sl.2 sr.2 Hwf' Hw Hh Hx ltac:(lia) ltac:(lia)
                Hside')
      as (bottom & pushes & Hb & Hrun & Hend & Hwf2 & Hw2 & Hh2 & Hpix2 &
          Hst2 & Hpush2 & Hcov2).
    { intros r Hr. rewrite Hpix', decide_False by lia. apply Hbelow. lia. }
    { replace (y + 1 - 1) with y by lia.
      intros Ht. apply (reach_mono ref sl.1); [exact Hsub | now apply Hfl']. }
    { replace (y + 1 - 1) with y by lia. exact Hfr'. }
    { intros H0. apply Hl0'. rewrite Z.gtb_ltb, Z.ltb_ge. lia. }
    { intros H0. apply Hr0'. rewrite Z.ltb_ge. lia. }
    set (res := scan n x (y + 1) img' newColor oldColor sr.1 sl.2 sr.2) in *.
    exists bottom, (pushes ++ pr ++ pl).
    split; [lia|]. split.
    { intros r Hr. destruct (Z.eq_dec r y) as [-> | Hne];
        [exact Hold | apply Hrun; lia]. }
    split; [exact Hend|].
    split; [exact Hwf2|]. split; [exact Hw2|]. split; [exact Hh2|].
    split.
    { intros x' y'. rewrite Hpix2, Hpix'.
      destruct (decide (x' = x /\ y + 1 <= y' < bottom)) as [[-> Hy'] | Hn1].
      - rewrite decide_True; [reflexivity | split; [reflexivity | lia]].
      - destruct (decide (x' = x /\ y' = y)) as [[-> ->] | Hn2].
        + rewrite decide_True; [reflexivity | split; [reflexivity | lia]].
        + rewrite decide_False; [reflexivity|].
          intros [-> Hy']. destruct (Z.eq_dec y' y) as [-> | Hne];
            [now apply Hn2 | apply Hn1; split; [reflexivity | lia]]. }
    split.
    { rewrite Hst2, Hpr, Hpl. now rewrite <- !app_assoc. }
    split.
    { intros p Hp. apply elem_of_app in Hp. destruct Hp as [Hp | Hp].
      - destruct (Hpush2 p Hp) as (H1 & H2 & H3 & H4).
        split; [exact H1|]. split; [lia|]. split; assumption.
      - apply elem_of_app in Hp. destruct Hp as [Hp | Hp].
        + destruct (Hpr_in p Hp) as (-> & H3 & H4). simpl.
          split; [now right|]. split; [lia|]. split; assumption.
        + destruct (Hpl_in p Hp) as (-> & H3 & H4). simpl.
          split; [now left|]. split; [lia|]. split; assumption. }
    intros r xs Hr Hxs Hin' Hold'.
    destruct (Z.eq_dec r y) as [-> | Hne].
    + apply (reach_mono ref sr.1).
      { intros p Hp. rewrite Hst2. apply elem_of_app. now right. }
      destruct Hxs as [-> | ->].
      * apply (reach_mono ref sl.1); [exact Hsub | now apply Hcl].
      * now apply Hcr.
    + apply Hcov2; try assumption. lia.
Qed.

Lemma floodFillInternal_spec (x y : Z) (img : ImageData) (st : list (Z * Z)) :
  wf_image img -> in_bounds img x y ->
  let res := floodFillInternal_ x y img newColor oldColor st in
  exists (top bottom : Z) (pushes : list (Z * Z)),
    0 <= top <= y /\ top <= bottom <= height img /\
    (forall r, top <= r < y -> getColor_ x r img = oldColor) /\
    (top = 0 \/ getColor_ x (top - 1) img <> oldColor) /\
    (forall r, top <= r < bottom -> getColor_ x r img = oldColor) /\
    (bottom = height img \/ getColor_ x bottom img <> oldColor) /\
    wf_image res.1 /\ width res.1 = width img /\ height res.1 = height img /\
    (forall x' y',
        getColor_ x' y' res.1 =
        if decide (x' = x /\ top <= y' < bottom)
        then newColor else getColor_ x' y' img) /\
    res.2 = pushes ++ st /\
    (forall p, p ∈ pushes ->
       (p.1 = x - 1 \/ p.1 = x + 1) /\ top <= p.2 < bottom /\
       in_bounds img p.1 p.2 /\ getColor_ p.1 p.2 img = oldColor) /\
    (forall r xs, top <= r < bottom -> xs = x - 1 \/ xs = x + 1 ->
       in_bounds img xs r -> getColor_ xs r img = oldColor ->
       reach img oldColor res.2 xs r).
Proof.
  intros Hwf [Hx Hy]. unfold floodFillInternal_.
  destruct (climb_spec (Z.to_nat y) x y img Hwf Hx ltac:(lia) ltac:(lia))
    as (Htop & Hclimb & Hceil).
  set (top := climb (Z.to_nat y) x y img oldColor) in *.
  destruct (scan_spec img x (Z.to_nat (height img - top)) top img st false false
              Hwf eq_refl eq_refl Hx ltac:(lia) ltac:(lia))
    as (bottom & pushes & Hb & Hrun & Hend & Hwf' & Hw' & Hh' & Hpix & Hst &
        Hpush & Hcov); try reflexivity; try discriminate.
  exists top, bottom, pushes.
  repeat (split; [first [assumption | lia]|]). exact Hcov.
Qed.

Lemma floodFillInternal_potential (x y : Z) (img : ImageData)
    (st : list (Z * Z)) :
  wf_image img -> in_bounds img x y ->
  let res := floodFillInternal_ x y img newColor oldColor st in
  (2 * count_color res.1 oldColor + length res.2
   <= 2 * count_color img oldColor + length st)%nat.
Proof.
  intros Hwf [Hx Hy]. unfold floodFillInternal_.
  destruct (climb_spec (Z.to_nat y) x y img Hwf Hx ltac:(lia) ltac:(lia))
    as (Htop & _ & _).
  apply scan_potential; [assumption | assumption | lia].
Qed.
End ScopedFill.

(** *** The component of the seed *)

Lemma connected_inv (img : ImageData) (c : Color) (seed p : Z * Z) :
  connected img c seed p -> in_bounds img p.1 p.2 /\ getColor_ p.1 p.2 img = c.
Proof. intros H. destruct H; auto. Qed.

Lemma connected_column_up (img : ImageData) (c : Color) (seed : Z * Z) (x : Z)
    (n : nat) : forall y,
  connected img c seed (x, y) ->
  in_bounds img x (y + Z.of_nat n) ->
  (forall r, y <= r <= y + Z.of_nat n -> getColor_ x r img = c) ->
  connected img c seed (x, y + Z.of_nat n).
Proof.
  induction n as [|n IH]; intros y Hc Hin Hrun.
  - now replace (y + Z.of_nat 0) with y by lia.
  - destruct (connected_inv _ _ _ _ Hc) as [[Hx Hy] _]. simpl in Hx, Hy.
    destruct Hin as [_ Hy'].
    apply (connected_step img c seed (x, y + Z.of_nat n)).
    + apply IH; [assumption | split; [assumption | lia] | intros r Hr; apply Hrun; lia].
    + left. simpl. split; [reflexivity | lia].
    + simpl. split; [assumption | lia].
    + simpl. apply Hrun. lia.
Qed.

Lemma connected_column_down (img : ImageData) (c : Color) (seed : Z * Z) (x : Z)
    (n : nat) : forall y,
  connected img c seed (x, y) ->
  in_bounds img x (y - Z.of_nat n) ->
  (forall r, y - Z.of_nat n <= r <= y -> getColor_ x r img = c) ->
  connected img c seed (x, y - Z.of_nat n).
Proof.
  induction n as [|n IH]; intros y Hc Hin Hrun.
  - now replace (y - Z.of_nat 0) with y by lia.
  - destruct (connected_inv _ _ _ _ Hc) as [[Hx Hy] _]. simpl in Hx, Hy.
    destruct Hin as [_ Hy'].
    apply (connected_step img c seed (x, y - Z.of_nat n)).
    + apply IH; [assumption | split; [assumption | lia] | intros r Hr; apply Hrun; lia].
    + left. simpl. split; [reflexivity | lia].
    + simpl. split; [assumption | lia].
    + simpl. apply Hrun. lia.
Qed.

Lemma connected_column (img : ImageData) (c : Color) (seed : Z * Z) (x y y' : Z) :
  connected img c seed (x, y) ->
  in_bounds img x y' ->
  (forall r, Z.min y y' <= r <= Z.max y y' -> getColor_ x r img = c) ->
  connected img c seed (x, y').
Proof.
  intros Hc Hin Hrun. destruct (Z_le_gt_dec y y') as [Hle | Hgt].
  - replace y' with (y + Z.of_nat (Z.to_nat (y' - y))) in * by lia.
    apply connected_column_up; [assumption | assumption |].
    intros r Hr. apply Hrun. lia.
  - replace y' with (y - Z.of_nat (Z.to_nat (y - y'))) in * by lia.
    apply connected_column_down; [assumption | assumption |].
    intros r Hr. apply Hrun. lia.
Qed.

(** *** The invariant of the stack loop *)

Section FillInvariant.

Variables (img0 : ImageData) (oldColor newColor : Color) (seed : Z * Z).
Hypothesis colors_differ : oldColor <> newColor.
Hypothesis img0_wf : wf_image img0.

Lemma inv_old_original (img : ImageData) (st : list (Z * Z)) (x y : Z) :
  fill_inv img0 oldColor newColor seed img st ->
  getColor_ x y img = oldColor -> getColor_ x y img0 = oldColor.
Proof.
  intros (_ & _ & _ & Hb & _) Hold.
  destruct (Hb x y) as [Heq | (_ & Hnew & _)]; congruence.
Qed.

Lemma inv_column_up (img : ImageData) (st : list (Z * Z)) (x a : Z) (n : nat) :
  fill_inv img0 oldColor newColor seed img st ->
  in_bounds img0 x a -> in_bounds img0 x (a + Z.of_nat n) ->
  (forall r, a <= r <= a + Z.of_nat n -> getColor_ x r img0 = oldColor) ->
  (getColor_ x a img = oldColor <-> getColor_ x (a + Z.of_nat n) img = oldColor).
Proof.
  intros Hinv [Hx Ha]. pose proof Hinv as (_ & _ & _ & _ & _ & Hd & _).
  induction n as [|n IH]; intros [_ Hb] Hrun.
  - now replace (a + Z.of_nat 0) with a by lia.
  - rewrite IH; [|split; [assumption | lia] | intros r Hr; apply Hrun; lia].
    replace (a + Z.of_nat (S n)) with (a + Z.of_nat n + 1) by lia.
    apply Hd; try (split; [assumption | lia]); apply Hrun; lia.
Qed.

Lemma inv_column (img : ImageData) (st : list (Z * Z)) (x a b : Z) :
  fill_inv img0 oldColor newColor seed img st ->
  in_bounds img0 x a -> in_bounds img0 x b ->
  (forall r, Z.min a b <= r <= Z.max a b -> getColor_ x r img0 = oldColor) ->
  (getColor_ x a img = oldColor <-> getColor_ x b img = oldColor).
Proof.
  intros Hinv Ha Hb Hrun. destruct (Z_le_gt_dec a b) as [Hle | Hgt].
  - replace b with (a + Z.of_nat (Z.to_nat (b - a))) in * by lia.
    apply (inv_column_up img st); try assumption.
    intros r Hr. apply Hrun. lia.
  - symmetry. replace a with (b + Z.of_nat (Z.to_nat (a - b))) in * by lia.
    apply (inv_column_up img st); try assumption.
    intros r Hr. apply Hrun. lia.
Qed.

Lemma fill_inv_init :
  in_bounds img0 seed.1 seed.2 ->
  getColor_ seed.1 seed.2 img0 = oldColor ->
  fill_inv img0 oldColor newColor seed img0 [seed].
Proof.
  intros Hin Hold. unfold fill_inv.
  split; [assumption|]. split; [reflexivity|]. split; [reflexivity|].
  split; [intros x y; now left|].
  split.
  { intros p Hp. apply list_elem_of_singleton in Hp. subst p.
    now apply connected_seed. }
  split; [intros x y _ _ H1 H2; now split|].
  intros x y Hxy Hcur [Hseed | (x' & _ & _ & Ho & Hn)]; [|congruence].
  exists y. split; [rewrite Hseed; apply list_elem_of_singleton; reflexivity|].
  intros r Hr. now replace r with y by lia.
Qed.

(** One pop keeps the invariant. *)
Lemma fill_inv_step (img : ImageData) (p : Z * Z) (st : list (Z * Z)) :
  fill_inv img0 oldColor newColor seed img (p :: st) ->
  let res := floodFillInternal_ p.1 p.2 img newColor oldColor st in
  fill_inv img0 oldColor newColor seed res.1 res.2.
Proof.
  intros Hinv. pose proof Hinv as (Hwf & Hw & Hh & Hb & Hc & Hd & He).
  destruct p as [x y]. simpl fst. simpl snd.
  assert (Hp : connected img0 oldColor seed (x, y))
    by (apply Hc, elem_of_cons; now left).
  destruct (connected_inv _ _ _ _ Hp) as [Hin0 Hold0]. simpl in Hin0, Hold0.
  assert (Hbounds : forall a b, in_bounds img a b <-> in_bounds img0 a b)
    by (intros a b; unfold in_bounds; now rewrite Hw, Hh).
  assert (Hin : in_bounds img x y) by now apply Hbounds.
  pose proof Hin0 as [Hx0 Hy0].
  destruct (floodFillInternal_spec oldColor newColor x y img st Hwf Hin)
    as (top & bottom & pushes & Htop & Hbot & Hclimb & Hceil & Hrun & Hend &
        Hwf' & Hw' & Hh' & Hpix & Hst & Hpush & Hcov).
  set (res := floodFillInternal_ x y img newColor oldColor st) in *.
  assert (Hnew : newColor <> oldColor) by congruence.
  assert (Horig : forall a b, getColor_ a b img = oldColor ->
                              getColor_ a b img0 = oldColor)
    by (intros a b; apply (inv_old_original img ((x, y) :: st)); exact Hinv).
  assert (HR : forall r, top <= r < bottom ->
             forall r', Z.min y r <= r' <= Z.max y r ->
                        getColor_ x r' img0 = oldColor).
  { intros r Hr r' Hr'. destruct (Z_lt_le_dec r' y) as [Hlt | Hge].
    - apply Horig, Hclimb. lia.
    - destruct (Z.eq_dec r' y) as [-> | Hne]; [exact Hold0|].
      apply Horig, Hrun. lia. }
  assert (HRC : forall r, top <= r < bottom -> connected img0 oldColor seed (x, r)).
  { intros r Hr. apply (connected_column img0 oldColor seed x y r Hp).
    - split; [assumption | lia].
    - now apply HR. }
  unfold fill_inv.
  split; [exact Hwf'|]. split; [congruence|]. split; [congruence|].
  split.
  { (* recoloured pixels *)
    intros x1 y1. rewrite Hpix.
    destruct (decide (x1 = x /\ top <= y1 < bottom)) as [[-> Hy1] | Hn].
    - right. split; [apply Horig, Hrun; assumption|].
      split; [reflexivity | now apply HRC].
    - apply Hb. }
  split.
  { (* stack entries *)
    intros q Hq. rewrite Hst in Hq. apply elem_of_app in Hq.
    destruct Hq as [Hq | Hq]; [|apply Hc, elem_of_cons; now right].
    destruct (Hpush q Hq) as (Hside & Hrow & Hinq & Holdq).
    destruct q as [qx qy]; simpl in *.
    apply (connected_step img0 oldColor seed (x, qy)).
    - now apply HRC.
    - right. simpl. split; [reflexivity | lia].
    - simpl. now apply Hbounds.
    - simpl. now apply Horig. }
  split.
  { (* vertical neighbours *)
    intros x1 y1 Hi1 Hi2 Ho1 Ho2. rewrite !Hpix.
    destruct (Z.eq_dec x1 x) as [-> | Hx1].
    2: { rewrite !decide_False by lia. now apply Hd. }
    destruct Hi1 as [_ Hy1], Hi2 as [_ Hy2].
    destruct (Z_lt_le_dec y1 top) as [Hlt1 | Hge1].
    - rewrite (decide_False (P := x = x /\ top <= y1 < bottom)) by lia.
      destruct (Z.eq_dec (y1 + 1) top) as [Heq | Hne].
      + destruct (Z_lt_le_dec top bottom) as [Hlt | Hge].
        * rewrite decide_True by lia.
          destruct Hceil as [? | Hceil]; [lia|].
          replace (top - 1) with y1 in Hceil by lia. tauto.
        * rewrite decide_False by lia. apply Hd; try assumption; split; assumption.
      + rewrite decide_False by lia. apply Hd; try assumption; split; assumption.
    - destruct (Z_lt_le_dec y1 bottom) as [Hlt1 | Hge1'].
      + rewrite (decide_True (P := x = x /\ top <= y1 < bottom)) by lia.
        destruct (Z_lt_le_dec (y1 + 1) bottom) as [Hlt2 | Hge2].
        * rewrite decide_True by lia. tauto.
        * rewrite decide_False by lia.
          assert (y1 + 1 = bottom) as Heq by lia.
          destruct Hend as [? | Hend]; [lia|].
          rewrite Heq. tauto.
      + rewrite !decide_False by lia. apply Hd; try assumption; split; assumption. }
  (* frontier *)
  intros qx qy Hq Hcur Hfront. rewrite Hpix in Hcur.
  destruct (decide (qx = x /\ top <= qy < bottom)) as [? | Hq_out];
    [congruence|].
  assert (Hback : (exists sy, (qx, sy) ∈ (x, y) :: st /\
             forall r, Z.min sy qy <= r <= Z.max sy qy ->
                       getColor_ qx r img0 = oldColor) ->
           exists sy, (qx, sy) ∈ res.2 /\
             forall r, Z.min sy qy <= r <= Z.max sy qy ->
                       getColor_ qx r img0 = oldColor).
  { intros (sy & Hsy & Hsrun). apply elem_of_cons in Hsy.
    destruct Hsy as [Heq | Hsy].
    - exfalso. injection Heq as -> ->.
      assert (Hall : forall r, Z.min y qy <= r <= Z.max y qy ->
                getColor_ x r img = oldColor).
      { intros r Hr. destruct Hq as [Hqx Hqy].
        apply (inv_column img ((x, y) :: st) x qy r Hinv).
        - split; assumption.
        - split; [assumption | lia].
        - intros r' Hr'. apply Hsrun. lia.
        - exact Hcur. }
      apply Hq_out. split; [reflexivity|].
      destruct Hq as [_ Hqy].
      assert (y < bottom).
      { destruct (Z_lt_le_dec y bottom) as [|Hge]; [assumption|]. exfalso.
        destruct Hend as [? | Hend]; [lia|]. apply Hend.
        destruct (Z.eq_dec bottom y) as [-> | Hne]; [apply Hall; lia|].
        apply Hclimb. lia. }
      split.
      + destruct (Z_le_gt_dec top qy) as [|Hgt]; [assumption|]. exfalso.
        destruct Hceil as [? | Hceil]; [lia|]. apply Hceil, Hall. lia.
      + destruct (Z_lt_le_dec qy bottom) as [|Hge]; [assumption|]. exfalso.
        destruct Hend as [? | Hend]; [lia|]. apply Hend, Hall. lia.
    - exists sy. split; [|exact Hsrun].
      rewrite Hst. apply elem_of_app. now right. }
  destruct Hfront as [Hseed | (x' & Hx' & Hin' & Ho' & Hn')].
  { apply Hback, He; [assumption | assumption | now left]. }
  rewrite Hpix in Hn'.
  destruct (decide (x' = x /\ top <= qy < bottom)) as [[-> Hrow] | Hn_old].
  - (* the neighbour has just been recoloured *)
    destruct (Hcov qy qx Hrow ltac:(lia) ltac:(now apply Hbounds) Hcur)
      as (py & Hpy & Hle & Hprun).
    exists py. split; [exact Hpy|].
    intros r Hr. apply Horig, Hprun. lia.
  - apply Hback, He; [assumption | assumption |].
    right. exists x'. auto.
Qed.

(** The loop ends: every pop lowers twice the number of pixels of the old
    colour plus the length of the stack. *)
Lemma fillLoop_runs (fuel : nat) : forall (img : ImageData) (st : list (Z * Z)),
  fill_inv img0 oldColor newColor seed img st ->
  (2 * count_color img oldColor + length st <= fuel)%nat ->
  exists img',
    fillLoop fuel img newColor oldColor st = Some img' /\
    fill_inv img0 oldColor newColor seed img' [].
Proof.
  induction fuel as [|fuel IH]; intros img st Hinv Hfuel.
  - destruct st as [|p st]; [|simpl in Hfuel; lia].
    exists img. now split.
  - destruct st as [|p st]; [exists img; now split|].
    simpl fillLoop.
    pose proof (fill_inv_step img p st Hinv) as Hstep. cbv zeta in Hstep.
    pose proof Hinv as (Hwf & Hw & Hh & _ & Hc & _).
    assert (Hin : in_bounds img p.1 p.2).
    { destruct (connected_inv _ _ _ _ (Hc p ltac:(apply elem_of_cons; now left)))
        as [Hin _].
      unfold in_bounds in *. now rewrite Hw, Hh. }
    pose proof (floodFillInternal_potential oldColor newColor colors_differ
                  p.1 p.2 img st Hwf Hin) as Hpot. cbv zeta in Hpot.
    destruct (floodFillInternal_ p.1 p.2 img newColor oldColor st)
      as [img1 st1] eqn:Hres.
    simpl in Hstep, Hpot.
    apply IH; [exact Hstep|]. simpl in Hfuel. lia.
Qed.

(** When the stack is empty the recoloured pixels are the component of
    the seed. *)
Lemma fill_inv_final (img : ImageData) :
  fill_inv img0 oldColor newColor seed img [] ->
  (forall q, connected img0 oldColor seed q -> getColor_ q.1 q.2 img = newColor) /\
  (forall x y, ~ connected img0 oldColor seed (x, y) ->
               getColor_ x y img = getColor_ x y img0).
Proof.
  intros (Hwf & Hw & Hh & Hb & Hc & Hd & He).
  assert (Hcoloured : forall x y,
            getColor_ x y img0 = oldColor -> getColor_ x y img <> oldColor ->
            getColor_ x y img = newColor).
  { intros x y Ho Hn. destruct (Hb x y) as [Heq | (_ & Hnew & _)]; congruence. }
  assert (Hempty : forall x y,
            in_bounds img0 x y -> getColor_ x y img = oldColor ->
            ((x, y) = seed \/
             exists x', (x' = x - 1 \/ x' = x + 1) /\ in_bounds img0 x' y /\
                        getColor_ x' y img0 = oldColor /\
                        getColor_ x' y img = newColor) -> False).
  { intros x y Hin Hcur Hfront.
    destruct (He x y Hin Hcur Hfront) as (sy & Hsy & _).
    now apply elem_of_nil in Hsy. }
  split.
  - intros q Hq. induction Hq as [Hin Hold | p q Hp IH Hadj Hin Hold].
    + apply Hcoloured; [assumption|]. intros Hcur.
      apply (Hempty seed.1 seed.2 Hin Hcur). left. now destruct seed.
    + destruct (connected_inv _ _ _ _ Hp) as [Hinp Holdp].
      destruct p as [px py], q as [qx qy]; simpl in *.
      apply Hcoloured; [assumption|]. intros Hcur.
      unfold adjacent in Hadj. simpl in Hadj.
      destruct Hadj as [[-> Hv] | [-> Hh']].
      * assert (getColor_ qx py img = oldColor); [|congruence].
        destruct (Z_lt_le_dec py qy).
        -- replace qy with (py + 1) in * by lia.
           now apply (Hd qx py Hinp Hin Holdp Hold).
        -- replace py with (qy + 1) in * by lia.
           now apply (Hd qx qy Hin Hinp Hold Holdp).
      * apply (Hempty qx qy Hin Hcur). right. exists px.
        split; [lia|]. auto.
  - intros x y Hn. destruct (Hb x y) as [Heq | (_ & _ & Hconn)];
      [assumption | contradiction].
Qed.
End FillInvariant.

(** *** The scoped fill as a whole *)

Lemma floodFill_runs (fillStyleToColor_ : string -> Color)
    (x y : number) (color : string) (context : ImageData) (fuel : nat) :
  let seed := (toInt32 x, toInt32 y) in
  let oldColor := getColor_ seed.1 seed.2 context in
  let newColor := fillStyleToColor_ color in
  wf_image context -> in_bounds context seed.1 seed.2 ->
  oldColor <> newColor ->
  (2 * count_color context oldColor + 1 <= fuel)%nat ->
  exists imageData : ImageData,
    fillLoop fuel context newColor oldColor [seed] = Some imageData /\
    floodFill fillStyleToColor_ fuel x y color context = Some (true, imageData) /\
    fill_inv context oldColor newColor seed imageData [].
Proof.
  intros seed oldColor newColor Hwf Hin Hne Hfuel.
  destruct (fillLoop_runs context oldColor newColor seed Hne fuel context [seed])
    as (img & Hloop & Hinv).
  - now apply fill_inv_init.
  - simpl length. lia.
  - exists img. split; [exact Hloop|]. split; [|exact Hinv].
    subst seed oldColor newColor. simpl fst in *. simpl snd in *.
    unfold floodFill. cbv zeta.
    apply color_eqb_neq in Hne. rewrite Hne. now rewrite Hloop.
Qed.

(** C1: when the seed converts to a pixel of the buffer and the target
    colour differs from the colour sampled there, [floodFill] returns true
    and recolours to the target exactly the pixels of the 4-connected
    component of the seed among the pixels whose four channels equal the
    sampled colour: every pixel of the component gets the target colour,
    every other pixel keeps its four channels, and the buffer keeps its
    size.  [2 * width * height + 1] pops are enough. *)
Theorem floodFill_component (fillStyleToColor_ : string -> Color)
    (x y : number) (color : string) (context : ImageData) (extra : nat) :
  let seed := (toInt32 x, toInt32 y) in
  let oldColor := getColor_ seed.1 seed.2 context in
  let newColor := fillStyleToColor_ color in
  wf_image context -> in_bounds context seed.1 seed.2 ->
  oldColor <> newColor ->
  exists imageData : ImageData,
    floodFill fillStyleToColor_
      (2 * Z.to_nat (width context * height context) + 1 + extra) x y color context
    = Some (true, imageData) /\
    width imageData = width context /\
    height imageData = height context /\
    length (data imageData) = length (data context) /\
    (forall i j, connected context oldColor seed (i, j) ->
                 getColor_ i j imageData = newColor) /\
    (forall i j, ~ connected context oldColor seed (i, j) ->
                 getColor_ i j imageData = getColor_ i j context).
Proof.
  intros seed oldColor newColor Hwf Hin Hne.
  destruct (floodFill_runs fillStyleToColor_ x y color context
              (2 * Z.to_nat (width context * height context) + 1 + extra)
              Hwf Hin Hne) as (img & _ & Hrun & Hinv).
  { pose proof (count_color_le context (getColor_ (toInt32 x) (toInt32 y) context)).
    simpl. lia. }
  fold seed oldColor newColor in Hinv.
  destruct (fill_inv_final context oldColor newColor seed Hne img Hinv)
    as [Hcomp Hrest].
  destruct Hinv as (Hwf' & Hw & Hh & _).
  exists img. split; [exact Hrun|]. split; [exact Hw|]. split; [exact Hh|].
  split.
  { destruct Hwf as (_ & _ & Hlen), Hwf' as (_ & _ & Hlen'). lia. }
  split; [|exact Hrest].
  intros i j Hc. exact (Hcomp (i, j) Hc).
Qed.

Lemma ring_5x5_wf : wf_image ring_5x5.
Proof. unfold wf_image. simpl. lia. Qed.

Lemma floodFill_component_witness :
  let seed := (2, 2) in
  let oldColor := RGBA 255 255 255 255 in
  let newColor := RGBA 255 0 0 255 in
  exists imageData : ImageData,
    floodFill (fun _ => newColor) 51 (Fin (5 # 2)) (Fin 2) "#ff0000" ring_5x5
    = Some (true, imageData) /\
    width imageData = 5 /\
    height imageData = 5 /\
    length (data imageData) = 100%nat /\
    (forall i j, connected ring_5x5 oldColor seed (i, j) ->
                 getColor_ i j imageData = newColor) /\
    (forall i j, ~ connected ring_5x5 oldColor seed (i, j) ->
                 getColor_ i j imageData = getColor_ i j ring_5x5).
Proof.
  apply (floodFill_component (fun _ => RGBA 255 0 0 255) (Fin (5 # 2)) (Fin 2)
           "#ff0000" ring_5x5 0 ring_5x5_wf).
  - apply in_bounds_of_test. reflexivity.
  - discriminate.
Defined.

(** The scoped fill recolours the centre only, the global fill recolours
    the border as well. *)
Example floodFill_ring :
  floodFill (fun _ => RGBA 255 0 0 255) 51 (Fin (5 # 2)) (Fin 2) "#ff0000"
    ring_5x5 = Some (true, ring_5x5_centre_red) /\
  floodFillAll (fun _ => RGBA 255 0 0 255) (Fin (5 # 2)) (Fin 2) "#ff0000"
    ring_5x5 = (true, ring_5x5_all_red).
Proof. split; vm_compute; reflexivity. Qed.

(** C9: under the same conditions the stack loop of [floodFill] ends:
    there is a number of pops, at most [2 * width * height + 1], such that
    the loop has emptied the stack within that many pops, and [floodFill]
    returns. *)
Theorem floodFill_terminates (fillStyleToColor_ : string -> Color)
    (x y : number) (color : string) (context : ImageData) :
  let seed := (toInt32 x, toInt32 y) in
  let oldColor := getColor_ seed.1 seed.2 context in
  let newColor := fillStyleToColor_ color in
  wf_image context -> in_bounds context seed.1 seed.2 ->
  oldColor <> newColor ->
  exists pops : nat,
    (pops <= 2 * Z.to_nat (width context * height context) + 1)%nat /\
    forall fuel : nat, (pops <= fuel)%nat ->
      exists imageData : ImageData,
        fillLoop fuel context newColor oldColor [seed] = Some imageData /\
        floodFill fillStyleToColor_ fuel x y color context
        = Some (true, imageData).
Proof.
  intros seed oldColor newColor Hwf Hin Hne.
  exists (2 * count_color context oldColor + 1)%nat. split.
  - pose proof (count_color_le context oldColor). lia.
  - intros fuel Hfuel.
    destruct (floodFill_runs fillStyleToColor_ x y color context fuel
                Hwf Hin Hne Hfuel) as (img & Hloop & Hrun & _).
    exists img. now split.
Qed.

Lemma floodFill_terminates_witness :
  exists pops : nat,
    (pops <= 51)%nat /\
    forall fuel : nat, (pops <= fuel)%nat ->
      exists imageData : ImageData,
        fillLoop fuel ring_5x5 (RGBA 255 0 0 255) (RGBA 255 255 255 255) [(2, 2)]
        = Some imageData /\
        floodFill (fun _ => RGBA 255 0 0 255) fuel (Fin 2) (Fin 2) "red" ring_5x5
        = Some (true, imageData).
Proof.
  apply (floodFill_terminates (fun _ => RGBA 255 0 0 255) (Fin 2) (Fin 2) "red"
           ring_5x5 ring_5x5_wf).
  - apply in_bounds_of_test. reflexivity.
  - discriminate.
Defined.

(* ===================================================================== *)
(** * Part III: further properties of the file                            *)
(* ===================================================================== *)

(** ** LineRasterizer: the shape of the path *)

(** A walk in steps of at most one is, after [i] steps, at most [i] away
    from its start. *)
Lemma walk_bound {A : Type} (f : A -> Z) (l : list A) : forall a0,
  (forall (i : nat) a b,
      (a0 :: l) !! i = Some a -> (a0 :: l) !! S i = Some b ->
      Z.abs (f b - f a) <= 1) ->
  forall (i : nat) p, (a0 :: l) !! i = Some p ->
    Z.abs (f p - f a0) <= Z.of_nat i.
Proof.
  induction l as [|a1 l IH]; intros a0 Hstep i p Hp.
  - destruct i as [|i]; simpl in Hp; [|discriminate].
    injection Hp as <-. lia.
  - destruct i as [|i]; simpl in Hp.
    + injection Hp as <-. lia.
    + assert (H1 : Z.abs (f a1 - f a0) <= 1)
        by (apply (Hstep 0%nat); reflexivity).
      assert (H2 : Z.abs (f p - f a1) <= Z.of_nat i).
      { apply IH; [|exact Hp].
        intros j a b Ha Hb. apply (Hstep (S j)); assumption. }
      lia.
Qed.

(** A walk in steps of at most one that ends as far from its start as it
    has steps moves by exactly one at every step, always in the same
    direction [s]. *)
Lemma walk_exact {A : Type} (f : A -> Z) (s : Z) (l : list A) : forall a0 q,
  s = 1 \/ s = -1 ->
  (forall (i : nat) a b,
      (a0 :: l) !! i = Some a -> (a0 :: l) !! S i = Some b ->
      Z.abs (f b - f a) <= 1) ->
  last (a0 :: l) = Some q ->
  s * (f q - f a0) = Z.of_nat (length l) ->
  forall (i : nat) p, (a0 :: l) !! i = Some p ->
    s * (f p - f a0) = Z.of_nat i.
Proof.
  induction l as [|a1 l IH]; intros a0 q Hs Hstep Hlast Hdist i p Hp.
  - destruct i as [|i]; simpl in Hp; [|discriminate].
    injection Hp as <-. lia.
  - assert (H1 : Z.abs (f a1 - f a0) <= 1)
      by (apply (Hstep 0%nat); reflexivity).
    assert (Hstep' : forall (j : nat) a b,
               (a1 :: l) !! j = Some a -> (a1 :: l) !! S j = Some b ->
               Z.abs (f b - f a) <= 1).
    { intros j a b Ha Hb. apply (Hstep (S j)); assumption. }
    assert (Hlast' : last (a1 :: l) = Some q) by exact Hlast.
    assert (H2 : Z.abs (f q - f a1) <= Z.of_nat (length l)).
    { apply (walk_bound f l a1 Hstep').
      rewrite last_lookup in Hlast'. exact Hlast'. }
    rewrite length_cons in Hdist.
    assert (H3 : s * (f q - f a1) = Z.of_nat (length l))
      by (destruct Hs; subst s; lia).
    destruct i as [|i]; simpl in Hp.
    + injection Hp as <-. lia.
    + pose proof (IH a1 q Hs Hstep' Hlast' H3 i p Hp) as H4.
      destruct Hs; subst s; lia.
Qed.

(** X1: [forEachLinePoint] never leaves the bounding box of its two
    (converted) end points: every visited point has its [x] between the
    two [x] coordinates and its [y] between the two [y] coordinates. *)
Theorem forEachLinePoint_bounding_box (point1 point2 : Point) (extra : nat) :
  let x1 := toInt32 (pt_x point1) in
  let y1 := toInt32 (pt_y point1) in
  let x2 := toInt32 (pt_x point2) in
  let y2 := toInt32 (pt_y point2) in
  let n := Z.to_nat (Z.max (Z.abs (x2 - x1)) (Z.abs (y2 - y1))) in
  exists visited : list (Z * Z),
    forEachLinePoint (n + extra) point1 point2 = Some visited /\
    forall p, p ∈ visited ->
      Z.min x1 x2 <= p.1 <= Z.max x1 x2 /\
      Z.min y1 y2 <= p.2 <= Z.max y1 y2.
Proof.
  intros x1 y1 x2 y2 n.
  destruct (line_loop_from_start x1 y1 x2 y2 extra)
    as (l & Hl & _ & _ & _ & Hbox).
  exists ((x1, y1) :: l). unfold forEachLinePoint.
  cbv zeta in Hl, Hbox |- *. subst x1 y1 x2 y2 n. rewrite Hl. simpl.
  split; [reflexivity|].
  intros p Hp. apply elem_of_cons in Hp as [->|Hp]; [simpl; lia|].
  rewrite Forall_forall in Hbox. specialize (Hbox p Hp).
  unfold in_box in Hbox.
  destruct (Z.ltb_spec (toInt32 (pt_x point1)) (toInt32 (pt_x point2))),
    (Z.ltb_spec (toInt32 (pt_y point1)) (toInt32 (pt_y point2))); lia.
Qed.

(** X2: the walk of [forEachLinePoint] makes steady progress: the
    [i]-th visited point (counting from 0) lies at distance exactly [i]
    from the start, the distance of two pixels being the larger of their
    differences in [x] and in [y].  So no pixel is handed to the callback
    twice. *)
Theorem forEachLinePoint_progress (point1 point2 : Point) (extra : nat) :
  let x1 := toInt32 (pt_x point1) in
  let y1 := toInt32 (pt_y point1) in
  let x2 := toInt32 (pt_x point2) in
  let y2 := toInt32 (pt_y point2) in
  let n := Z.to_nat (Z.max (Z.abs (x2 - x1)) (Z.abs (y2 - y1))) in
  exists visited : list (Z * Z),
    forEachLinePoint (n + extra) point1 point2 = Some visited /\
    (forall (i : nat) p, visited !! i = Some p ->
       Z.max (Z.abs (p.1 - x1)) (Z.abs (p.2 - y1)) = Z.of_nat i) /\
    NoDup visited.
Proof.
  intros x1 y1 x2 y2 n.
  destruct (line_loop_from_start x1 y1 x2 y2 extra)
    as (l & Hl & Hlen & Hlast & Hok & _).
  exists ((x1, y1) :: l).
  split.
  { unfold forEachLinePoint. cbv zeta in Hl |- *. subst x1 y1 x2 y2 n.
    rewrite Hl. reflexivity. }
  cbv zeta in Hlen.
  assert (Hsteps : forall (i : nat) p q,
             ((x1, y1) :: l) !! i = Some p -> ((x1, y1) :: l) !! S i = Some q ->
             Z.abs (q.1 - p.1) <= 1 /\ Z.abs (q.2 - p.2) <= 1).
  { intros i p q Hp Hq. exact (steps_ok_lookup l _ i p q Hok Hp Hq). }
  assert (Hdist : forall (i : nat) p, ((x1, y1) :: l) !! i = Some p ->
             Z.max (Z.abs (p.1 - x1)) (Z.abs (p.2 - y1)) = Z.of_nat i).
  { intros i p Hp.
    pose proof (walk_bound fst l (x1, y1)
                  (fun j a b Ha Hb => proj1 (Hsteps j a b Ha Hb)) i p Hp) as Bx.
    pose proof (walk_bound snd l (x1, y1)
                  (fun j a b Ha Hb => proj2 (Hsteps j a b Ha Hb)) i p Hp) as By.
    simpl in Bx, By.
    destruct (Z.le_ge_cases (Z.abs (y2 - y1)) (Z.abs (x2 - x1))) as [Hmaj|Hmaj].
    - assert (Hx : (if x1 <? x2 then 1 else -1) * (p.1 - x1) = Z.of_nat i).
      { apply (walk_exact fst _ l (x1, y1) (x2, y2)).
        - destruct (x1 <? x2); [left|right]; reflexivity.
        - intros j a b Ha Hb. exact (proj1 (Hsteps j a b Ha Hb)).
        - exact Hlast.
        - simpl. rewrite Hlen.
          destruct (Z.ltb_spec x1 x2); lia.
        - exact Hp. }
      destruct (x1 <? x2); lia.
    - assert (Hy : (if y1 <? y2 then 1 else -1) * (p.2 - y1) = Z.of_nat i).
      { apply (walk_exact snd _ l (x1, y1) (x2, y2)).
        - destruct (y1 <? y2); [left|right]; reflexivity.
        - intros j a b Ha Hb. exact (proj2 (Hsteps j a b Ha Hb)).
        - exact Hlast.
        - simpl. rewrite Hlen.
          destruct (Z.ltb_spec y1 y2); lia.
        - exact Hp. }
      destruct (y1 <? y2); lia. }
  split; [exact Hdist|].
  apply NoDup_alt. intros i j p Hi Hj.
  apply Hdist in Hi. apply Hdist in Hj. lia.
Qed.

(** ** EllipseRasterizer: what the guards let through *)

Section EllipseSteps.

Variable Ctx : Type.
Variable stepEllipse : Z -> Z -> Q -> Q -> number -> bool -> Ctx -> option Ctx.

(** Past the guard the result is that of the stepping. *)
Lemma drawShearedEllipse_steps (options : EllipseOptions) (context : Ctx) :
  shearSlope options <> PInf ->
  (1 <= inset_radius (radiusX options))%Q ->
  (1 <= inset_radius (radiusY options))%Q ->
  drawShearedEllipse_ Ctx stepEllipse options context =
  match
    stepEllipse (toInt32 (centerX options)) (toInt32 (centerY options))
      (inset_radius (radiusX options)) (inset_radius (radiusY options))
      (shearSlope options) (isFilled options) context
  with
  | Some context' => Returned true context'
  | None => Thrown
  end.
Proof.
  intros Hs Hx Hy. unfold drawShearedEllipse_.
  fold (inset_radius (radiusX options)). fold (inset_radius (radiusY options)).
  assert (Qltb (inset_radius (radiusX options)) 1 = false) as ->.
  { apply not_true_iff_false. rewrite Qltb_lt. now apply Qle_not_lt. }
  assert (Qltb (inset_radius (radiusY options)) 1 = false) as ->.
  { apply not_true_iff_false. rewrite Qltb_lt. now apply Qle_not_lt. }
  destruct (shearSlope options); try contradiction; reflexivity.
Qed.

End EllipseSteps.

(** X5: a call of [drawEllipse] or of [drawShearedEllipse_] that returns
    false has drawn nothing: the context is as it was before the call.
    The only [return false] of either function comes before any drawing. *)
Theorem ellipse_false_untouched (Ctx : Type)
    (stepEllipse : Z -> Z -> Q -> Q -> number -> bool -> Ctx -> option Ctx)
    (isInvertible : Matrix -> bool)
    (shearedForm : number -> number -> Matrix -> number * number * number)
    (context : Ctx) :
  (forall options,
      match drawShearedEllipse_ Ctx stepEllipse options context with
      | Returned false context' => context' = context
      | _ => True
      end) /\
  (forall positionX positionY radiusX radiusY matrix isFilled,
      match
        drawEllipse Ctx stepEllipse isInvertible shearedForm
          positionX positionY radiusX radiusY matrix isFilled context
      with
      | Returned false context' => context' = context
      | _ => True
      end).
Proof.
  assert (Hsheared : forall options,
             match drawShearedEllipse_ Ctx stepEllipse options context with
             | Returned false context' => context' = context
             | _ => True
             end).
  { intros options. unfold drawShearedEllipse_.
    destruct (_ || _ || _); [reflexivity|].
    now destruct (stepEllipse _ _ _ _ _ _ _). }
  split; [exact Hsheared|].
  intros px py rx ry matrix filled. unfold drawEllipse.
  destruct (negb (isInvertible matrix)); [reflexivity|].
  destruct (shearedForm rx ry matrix) as [[radiusA radiusB] slope].
  apply Hsheared.
Qed.

(** ** BrushMark *)

Lemma toInt32_range (x : number) : - 2 ^ 31 <= toInt32 x < 2 ^ 31.
Proof.
  destruct x; simpl; try lia. apply wrap32_range.
Qed.

(** [Math.ceil(size / 2)] of an integer [size]. *)
Lemma ceil_half (s : Z) : Qceiling (inject_Z s / 2) = (s + 1) / 2.
Proof.
  unfold Qceiling, Qfloor, Qdiv, Qmult, Qinv, Qopp, inject_Z. simpl.
  Z.div_mod_to_equations. lia.
Qed.

(** [~~(size / 2)] and [~~Math.abs(size / 2) - .5] of a size that is not
    negative. *)
Lemma half_toInt32 (s : Z) :
  0 <= s < 2 ^ 31 -> toInt32 (Fin (inject_Z s / 2)) = s / 2.
Proof.
  intros Hs. unfold toInt32, trunc, Qdiv, Qmult, Qinv, inject_Z. simpl.
  change (Z.pos (1 * 2)) with 2. rewrite Z.mul_1_r.
  rewrite Z.quot_div_nonneg by lia.
  apply wrap32_small. Z.div_mod_to_equations. lia.
Qed.

Lemma half_inset (s : Z) :
  0 <= s < 2 ^ 31 ->
  inset_radius (Fin (inject_Z s / 2)) = (inject_Z (s / 2) - (1 # 2))%Q.
Proof.
  intros Hs. unfold inset_radius. f_equal. f_equal.
  unfold toInt32, abs, trunc, Qabs, Qdiv, Qmult, Qinv, inject_Z. simpl.
  change (Z.pos (1 * 2)) with 2. rewrite Z.mul_1_r.
  rewrite Z.abs_eq by lia.
  rewrite Z.quot_div_nonneg by lia.
  apply wrap32_small. Z.div_mod_to_equations. lia.
Qed.

Section BrushMarks.

Variable stepEllipse :
  Z -> Z -> Q -> Q -> number -> bool -> list command -> option (list command).
Variable getGuideColor : string.

(** A size above 5: both ellipses pass the guard of [drawShearedEllipse_]. *)
Lemma getBrushMark_large (size : number) (color : string) (isEraser : bool) :
  let s := toInt32 size in
  let side := (s + 1) / 2 * 2 in
  let center := s / 2 in
  let radius := (inject_Z (s / 2) - (1 # 2))%Q in
  6 <= s ->
  getBrushMark stepEllipse getGuideColor size color isEraser =
  match
    stepEllipse center center radius radius (Fin 0) true
      [ImageSmoothingEnabled false;
       FillStyle (if isEraser then "white"%string else color)]
  with
  | None => None
  | Some context =>
      if isEraser then
        match
          stepEllipse center center radius radius (Fin 0) false
            (context ++ [FillStyle getGuideColor])
        with
        | None => None
        | Some context => Some (mkCanvas side side context)
        end
      else Some (mkCanvas side side context)
  end.
Proof.
  intros s side center radius Hs.
  pose proof (toInt32_range size) as Hr. fold s in Hr.
  assert (Hin : (1 <= inset_radius (Fin (inject_Z s / 2)))%Q).
  { rewrite half_inset by lia.
    assert (3 <= s / 2) by (Z.div_mod_to_equations; lia).
    unfold Qle, Qminus, Qplus, Qopp, inject_Z. simpl. lia. }
  assert (Hsteps : forall filled context,
             drawShearedEllipse_ (list command) stepEllipse
               {| centerX := Fin (inject_Z s / 2); centerY := Fin (inject_Z s / 2);
                  radiusX := Fin (inject_Z s / 2); radiusY := Fin (inject_Z s / 2);
                  shearSlope := Fin 0; isFilled := filled |} context =
             match
               stepEllipse center center radius radius (Fin 0) filled context
             with
             | Some context' => Returned true context'
             | None => Thrown
             end).
  { intros filled context.
    rewrite drawShearedEllipse_steps by (simpl; solve [discriminate | exact Hin]).
    cbn [centerX centerY radiusX radiusY shearSlope isFilled].
    now rewrite half_toInt32, half_inset by lia. }
  unfold getBrushMark. fold s. cbv zeta.
  rewrite ceil_half. fold side.
  destruct (Z.leb_spec s 5) as [|_]; [lia|].
  rewrite Hsteps. simpl app.
  destruct (stepEllipse center center radius radius (Fin 0) true _)
    as [context|]; [|reflexivity].
  destruct isEraser; [|reflexivity].
  rewrite Hsteps.
  destruct (stepEllipse center center radius radius (Fin 0) false _);
    reflexivity.
Qed.

(** X6: for a size that is not negative (after [~~]), the canvas of
    [getBrushMark] is a square whose side is the size rounded up to the
    next even number. *)
Theorem getBrushMark_canvas (size : number) (color : string) (isEraser : bool)
    (canvas : Canvas) :
  let s := toInt32 size in
  0 <= s ->
  getBrushMark stepEllipse getGuideColor size color isEraser = Some canvas ->
  canvas_width canvas = s + s mod 2 /\ canvas_height canvas = s + s mod 2.
Proof.
  intros s Hs.
  assert (Hside : (s + 1) / 2 * 2 = s + s mod 2)
    by (Z.div_mod_to_equations; lia).
  destruct (Z.le_gt_cases s 5) as [Hsmall|Hlarge].
  - unfold getBrushMark. fold s. cbv zeta. rewrite ceil_half, Hside.
    destruct (Z.leb_spec s 5) as [_|]; [|lia].
    intros H. injection H as <-. split; reflexivity.
  - pose proof (getBrushMark_large size color isEraser) as Hl.
    cbv zeta in Hl. fold s in Hl. rewrite Hl by lia. rewrite Hside.
    destruct (stepEllipse _ _ _ _ _ true _) as [context|]; [|discriminate].
    destruct isEraser.
    + destruct (stepEllipse _ _ _ _ _ false _); [|discriminate].
      intros H. injection H as <-. split; reflexivity.
    + intros H. injection H as <-. split; reflexivity.
Qed.

(** X8: for a size above 5 neither ellipse of [getBrushMark] is refused
    by the guard of [drawShearedEllipse_].  The mark is what the stepping
    draws for the center [(c, c)] and the radii [c - 1/2], where [c] is
    half the size, rounded down; the eraser mark is that, followed by the
    outline of the same ellipse in the guide colour. *)
Theorem getBrushMark_round (size : number) (color : string) (isEraser : bool) :
  let s := toInt32 size in
  let side := s + s mod 2 in
  let center := s / 2 in
  let radius := (inject_Z (s / 2) - (1 # 2))%Q in
  6 <= s ->
  getBrushMark stepEllipse getGuideColor size color isEraser =
  match
    stepEllipse center center radius radius (Fin 0) true
      [ImageSmoothingEnabled false;
       FillStyle (if isEraser then "white"%string else color)]
  with
  | None => None
  | Some context =>
      if isEraser then
        match
          stepEllipse center center radius radius (Fin 0) false
            (context ++ [FillStyle getGuideColor])
        with
        | None => None
        | Some context => Some (mkCanvas side side context)
        end
      else Some (mkCanvas side side context)
  end.
Proof.
  intros s side center radius Hs.
  pose proof (getBrushMark_large size color isEraser) as Hl.
  cbv zeta in Hl. fold s in Hl. rewrite Hl by exact Hs.
  replace ((s + 1) / 2 * 2) with side
    by (subst side; Z.div_mod_to_equations; lia).
  reflexivity.
Qed.

(** X9: an odd size above 5 gives the drawing of the even size below it:
    [getBrushMark] makes the same calls on the context for the sizes
    [2k + 1] and [2k], on a canvas that is 2 pixels larger. *)
Theorem getBrushMark_odd_size (odd even : number) (color : string)
    (isEraser : bool) :
  6 <= toInt32 even -> toInt32 even mod 2 = 0 ->
  toInt32 odd = toInt32 even + 1 ->
  canvas_context <$> getBrushMark stepEllipse getGuideColor odd color isEraser =
  canvas_context <$> getBrushMark stepEllipse getGuideColor even color isEraser /\
  canvas_width <$> getBrushMark stepEllipse getGuideColor odd color isEraser =
  (fun w => w + 2) <$>
    (canvas_width <$> getBrushMark stepEllipse getGuideColor even color isEraser).
Proof.
  intros Hs Heven Hodd.
  pose proof (getBrushMark_large odd color isEraser) as Ho.
  pose proof (getBrushMark_large even color isEraser) as He.
  cbv zeta in Ho, He. rewrite Ho, He by lia. clear Ho He.
  rewrite Hodd.
  replace ((toInt32 even + 1 + 1) / 2 * 2) with (toInt32 even + 2)
    by (Z.div_mod_to_equations; lia).
  replace ((toInt32 even + 1) / 2 * 2) with (toInt32 even)
    by (Z.div_mod_to_equations; lia).
  replace ((toInt32 even + 1) / 2) with (toInt32 even / 2)
    by (Z.div_mod_to_equations; lia).
  destruct (stepEllipse _ _ _ _ _ true _) as [context|];
    [|split; reflexivity].
  destruct isEraser; [|split; reflexivity].
  destruct (stepEllipse _ _ _ _ _ false _); split; reflexivity.
Qed.

End BrushMarks.

Lemma getBrushMark_canvas_witness :
  let stepEllipse := fun (cx cy : Z) (rx ry : Q) (_ : number) (_ : bool)
                         (context : list command) =>
                       Some (context ++ [FillRect cx cy 1 1]) in
  let canvas :=
    mkCanvas 8 8
      [ImageSmoothingEnabled false; FillStyle "#00f"; FillRect 3 3 1 1] in
  canvas_width canvas = 7 + 7 mod 2 /\ canvas_height canvas = 7 + 7 mod 2.
Proof.
  intros stepEllipse canvas.
  apply (getBrushMark_canvas stepEllipse "#888" (Fin 7) "#00f" false canvas).
  - vm_compute. discriminate.
  - reflexivity.
Defined.

Lemma getBrushMark_round_witness :
  let stepEllipse := fun (cx cy : Z) (rx ry : Q) (_ : number) (filled : bool)
                         (context : list command) =>
                       Some (context ++ [FillRect cx cy 1 1]) in
  getBrushMark stepEllipse "#888" (Fin 9) "#00f" true =
  Some
    (mkCanvas 10 10
       [ImageSmoothingEnabled false; FillStyle "white"; FillRect 4 4 1 1;
        FillStyle "#888"; FillRect 4 4 1 1]).
Proof.
  intros stepEllipse.
  apply (getBrushMark_round stepEllipse "#888" (Fin 9) "#00f" true).
  vm_compute. discriminate.
Defined.

Lemma getBrushMark_odd_size_witness :
  let stepEllipse := fun (cx cy : Z) (rx ry : Q) (_ : number) (filled : bool)
                         (context : list command) =>
                       Some (context ++ [FillRect cx cy 1 1]) in
  canvas_context <$> getBrushMark stepEllipse "#888" (Fin 7) "#00f" false =
  canvas_context <$> getBrushMark stepEllipse "#888" (Fin 6) "#00f" false /\
  canvas_width <$> getBrushMark stepEllipse "#888" (Fin 7) "#00f" false =
  (fun w => w + 2) <$>
    (canvas_width <$> getBrushMark stepEllipse "#888" (Fin 6) "#00f" false).
Proof.
  intros stepEllipse.
  apply (getBrushMark_odd_size stepEllipse "#888" (Fin 7) (Fin 6) "#00f" false).
  - vm_compute. discriminate.
  - reflexivity.
  - reflexivity.
Defined.

(** ** BoundsTrimmer: the rectangle and [trim_] *)

(** How far the four loops go, whatever the rows and columns hold and
    whatever width is passed to [rowBlank_] and [columnBlank_]. *)
Lemma trimTop_range (img : ImageData) (w : Z) (n : nat) : forall top bottom,
  Z.of_nat n = bottom - top ->
  top <= trimTop n img w top bottom <= bottom.
Proof.
  induction n as [|n IH]; intros top bottom Hn; simpl; [lia|].
  destruct (Z.ltb_spec top bottom); [|lia]. simpl.
  destruct (rowBlank_ img w top); [|lia].
  specialize (IH (top + 1) bottom ltac:(lia)). lia.
Qed.

Lemma trimBottom_range (img : ImageData) (w : Z) (n : nat) : forall top bottom,
  Z.of_nat n = bottom - top ->
  let b := trimBottom n img w top bottom in
  b <= bottom /\ (top < bottom -> top < b) /\ (bottom <= top -> b = bottom).
Proof.
  induction n as [|n IH]; intros top bottom Hn; simpl; [lia|].
  rewrite Z.gtb_ltb.
  destruct (Z.ltb_spec top (bottom - 1)); simpl; [|lia].
  destruct (rowBlank_ img w (bottom - 1)); [|lia].
  specialize (IH top (bottom - 1) ltac:(lia)). simpl in IH. lia.
Qed.

Lemma trimLeft_range (img : ImageData) (w : Z) (n : nat) :
  forall left right top bottom,
    Z.of_nat n = right - left ->
    left <= trimLeft n img w left right top bottom <= right.
Proof.
  induction n as [|n IH]; intros left right top bottom Hn; simpl; [lia|].
  destruct (Z.ltb_spec left right); [|lia]. simpl.
  destruct (columnBlank_ img w left top bottom); [|lia].
  specialize (IH (left + 1) right top bottom ltac:(lia)). lia.
Qed.

Lemma trimRight_range (img : ImageData) (w : Z) (n : nat) :
  forall left right top bottom,
    Z.of_nat n = right - left ->
    let r := trimRight n img w left right top bottom in
    r <= right /\ (left < right -> left < r) /\ (right <= left -> r = right).
Proof.
  induction n as [|n IH]; intros left right top bottom Hn; simpl; [lia|].
  rewrite Z.gtb_ltb.
  destruct (Z.ltb_spec left (right - 1)); simpl; [|lia].
  destruct (columnBlank_ img w (right - 1) top bottom); [|lia].
  specialize (IH left (right - 1) top bottom ltac:(lia)). simpl in IH. lia.
Qed.

Lemma scanBounds_range (rwidth : Z) (imageData : ImageData) :
  0 <= width imageData -> 0 <= height imageData ->
  let bounds := scanBounds rwidth imageData in
  0 <= rect_x bounds /\ 0 <= rect_y bounds /\
  0 <= rect_width bounds /\ 0 <= rect_height bounds /\
  rect_x bounds + rect_width bounds <= width imageData /\
  rect_y bounds + rect_height bounds <= height imageData.
Proof.
  intros Hw Hh bounds. subst bounds. unfold scanBounds. cbv zeta.
  set (w := width imageData) in *. set (h := height imageData) in *.
  set (t := trimTop (Z.to_nat (h - 0)) imageData rwidth 0 h).
  pose proof (trimTop_range imageData rwidth (Z.to_nat (h - 0)) 0 h ltac:(lia))
    as Ht. fold t in Ht.
  set (b := trimBottom (Z.to_nat (h - t)) imageData rwidth t h).
  pose proof (trimBottom_range imageData rwidth (Z.to_nat (h - t)) t h
                ltac:(lia)) as Hb. cbv zeta in Hb. fold b in Hb.
  set (l := trimLeft (Z.to_nat (w - 0)) imageData rwidth 0 w t b).
  pose proof (trimLeft_range imageData rwidth (Z.to_nat (w - 0)) 0 w t b
                ltac:(lia)) as Hl. fold l in Hl.
  set (r := trimRight (Z.to_nat (w - l)) imageData rwidth l w t b).
  pose proof (trimRight_range imageData rwidth (Z.to_nat (w - l)) l w t b
                ltac:(lia)) as Hr. cbv zeta in Hr. fold r in Hr.
  simpl. lia.
Qed.

(** X10: the rectangle that [getHitBounds] returns lies within the image
    data that it scans, wherever the bounds of the raster lie and
    whatever the pixels are: its origin, width and height are not
    negative, it ends at or before the right and bottom edges, and every
    pixel that it contains is a pixel of the image data.  When the
    bounds have the size of the canvas, as they have for a raster at the
    origin, the image data has the size of the canvas, and the rectangle
    lies within the buffer. *)
Theorem getHitBounds_inside (raster : Raster) :
  let imageData := getImageData raster (raster_bounds raster) in
  0 <= width imageData -> 0 <= height imageData ->
  let bounds := getHitBounds raster in
  0 <= rect_x bounds /\ 0 <= rect_y bounds /\
  0 <= rect_width bounds /\ 0 <= rect_height bounds /\
  rect_x bounds + rect_width bounds <= width imageData /\
  rect_y bounds + rect_height bounds <= height imageData /\
  (forall x y, contains bounds x y -> in_bounds imageData x y) /\
  (unscaled raster ->
   width imageData = width (raster_canvas raster) /\
   height imageData = height (raster_canvas raster) /\
   forall x y, contains bounds x y -> in_bounds (raster_canvas raster) x y).
Proof.
  intros imageData Hw Hh bounds.
  pose proof (scanBounds_range (width (raster_canvas raster)) imageData Hw Hh)
    as Hr.
  cbv zeta in Hr. subst imageData. rewrite <- getHitBounds_scan in Hr.
  fold bounds in Hr. destruct Hr as (Hx & Hy & Hbw & Hbh & Hright & Hbottom).
  repeat (split; [assumption|]).
  assert (Hin : forall x y, contains bounds x y ->
                  in_bounds (getImageData raster (raster_bounds raster)) x y).
  { intros x y [Hcx Hcy]. unfold in_bounds. lia. }
  split; [exact Hin|].
  intros Hsame. split; [now apply window_width|].
  split; [now apply window_height|].
  intros x y Hc. apply (window_in_bounds raster Hsame). now apply Hin.
Qed.

Lemma getHitBounds_inside_witness :
  let raster := mkRaster single_pixel_image (mkRectangle 1 0 4 5) in
  let imageData := getImageData raster (raster_bounds raster) in
  let bounds := getHitBounds raster in
  0 <= rect_x bounds /\ 0 <= rect_y bounds /\
  0 <= rect_width bounds /\ 0 <= rect_height bounds /\
  rect_x bounds + rect_width bounds <= width imageData /\
  rect_y bounds + rect_height bounds <= height imageData /\
  (forall x y, contains bounds x y -> in_bounds imageData x y) /\
  (unscaled raster ->
   width imageData = 4 /\ height imageData = 5 /\
   forall x y, contains bounds x y -> in_bounds single_pixel_image x y).
Proof.
  apply (getHitBounds_inside
           (mkRaster single_pixel_image (mkRectangle 1 0 4 5)));
    simpl; lia.
Defined.

Lemma scanBounds_transparent (img : ImageData) :
  wf_image img -> int32_indexed img ->
  (forall x y, in_bounds img x y -> alpha img x y = 0) ->
  scanBounds (width img) img = mkRectangle (width img) (height img) 0 0.
Proof.
  intros Hwf Hfit Hblank. rewrite scanBounds_unfold. cbv zeta.
  pose proof Hwf as (Hw & Hh & _).
  set (w := width img) in *. set (h := height img) in *.
  set (t := trimTop (Z.to_nat (h - 0)) img w 0 h).
  destruct (trimTop_spec img (Z.to_nat (h - 0)) 0 h ltac:(lia))
    as (Ht & _ & Htstop). fold w t in Ht, Htstop.
  assert (t = h) as ->.
  { destruct Htstop as [? | Hne]; [assumption|].
    destruct (Z.eq_dec t h) as [|Hth]; [assumption|]. exfalso.
    destruct (rowBlank_false img t Hwf Hfit ltac:(lia) Hne) as (x & Hx & Ha).
    apply Ha, Hblank. split; [exact Hx | lia]. }
  replace (Z.to_nat (h - h)) with O by lia. simpl trimBottom.
  set (l := trimLeft (Z.to_nat (w - 0)) img w 0 w h h).
  destruct (trimLeft_spec img (Z.to_nat (w - 0)) 0 w h h ltac:(lia))
    as (Hl & _ & Hlstop). fold w l in Hl, Hlstop.
  assert (l = w) as ->.
  { destruct Hlstop as [? | Hne]; [assumption|]. exfalso.
    unfold columnBlank_ in Hne. rewrite Z.sub_diag in Hne.
    simpl in Hne. discriminate. }
  replace (Z.to_nat (w - w)) with O by lia. simpl trimRight.
  f_equal; lia.
Qed.

(** What the image data shows of the canvas: a pixel of the image data
    has nonzero alpha exactly when it shows a pixel of the canvas that
    has. *)
Lemma window_alpha_nonzero (raster : Raster) (i j : Z) :
  unscaled raster -> wf_image (raster_canvas raster) ->
  alpha (getImageData raster (raster_bounds raster)) i j <> 0 ->
  in_window raster (rect_x (raster_bounds raster) + i)
                   (rect_y (raster_bounds raster) + j) /\
  alpha (raster_canvas raster) (rect_x (raster_bounds raster) + i)
                               (rect_y (raster_bounds raster) + j) <> 0.
Proof.
  intros Hsame Hwf Ha.
  pose proof (alpha_out_of_bounds _ _ _ Ha) as Hin.
  rewrite (window_alpha raster Hsame Hwf i j Hin) in Ha.
  split; [|exact Ha]. split; [now apply alpha_out_of_bounds|].
  apply (window_in_bounds raster Hsame) in Hin. destruct Hin as [Hi Hj].
  destruct Hsame as [Hw Hh]. unfold contains. lia.
Qed.

Lemma window_alpha_visible (raster : Raster) (x y : Z) :
  unscaled raster -> wf_image (raster_canvas raster) ->
  in_window raster x y ->
  alpha (getImageData raster (raster_bounds raster))
        (x - rect_x (raster_bounds raster)) (y - rect_y (raster_bounds raster))
  = alpha (raster_canvas raster) x y.
Proof.
  intros Hsame Hwf [Hin [Hcx Hcy]].
  rewrite (window_alpha raster Hsame Hwf).
  - f_equal; lia.
  - apply (window_in_bounds raster Hsame). destruct Hsame as [Hw Hh].
    unfold in_bounds. lia.
Qed.

(** X11: for a raster whose canvas has no pixel of nonzero alpha,
    wherever its bounds lie (with the size of the canvas),
    [getHitBounds] returns the empty rectangle at the bottom right
    corner: its origin is [(width, height)], and its width and its
    height are both 0. *)
Theorem getHitBounds_transparent (raster : Raster) :
  let canvas := raster_canvas raster in
  wf_image canvas -> int32_indexed canvas -> unscaled raster ->
  (forall x y, in_bounds canvas x y -> alpha canvas x y = 0) ->
  getHitBounds raster = mkRectangle (width canvas) (height canvas) 0 0.
Proof.
  intros canvas Hwf Hfit Hsame Hblank.
  rewrite getHitBounds_scan.
  rewrite <- (window_width raster Hsame) at 1.
  rewrite scanBounds_transparent.
  - now rewrite (window_width raster Hsame), (window_height raster Hsame).
  - now apply window_wf.
  - now apply window_int32.
  - intros i j Hin.
    destruct (Z.eq_dec (alpha (getImageData raster (raster_bounds raster)) i j) 0)
      as [|Hnz]; [assumption|]. exfalso.
    destruct (window_alpha_nonzero raster i j Hsame Hwf Hnz) as [[Hc _] Ha].
    apply Ha. now apply Hblank.
Qed.

Lemma alpha_replicate (w h : Z) (n : nat) (x y : Z) :
  alpha (mkImage w h (replicate n 0)) x y = 0.
Proof.
  unfold alpha, getColor_. simpl.
  destruct (_ && _ && _ && _); [|reflexivity]. simpl.
  unfold data_get. destruct (_ <? 0); [reflexivity|].
  destruct (replicate n 0 !! _) as [v|] eqn:E; [|reflexivity].
  apply lookup_replicate in E as [-> _]. reflexivity.
Qed.

Lemma getHitBounds_transparent_witness :
  getHitBounds (mkRaster blank_10x10 (mkRectangle 3 (-2) 10 10))
  = mkRectangle 10 10 0 0.
Proof.
  apply (getHitBounds_transparent
           (mkRaster blank_10x10 (mkRectangle 3 (-2) 10 10))).
  - unfold wf_image. simpl. lia.
  - unfold int32_indexed. simpl. lia.
  - split; reflexivity.
  - intros x y _. apply alpha_replicate.
Defined.

(** X12: for a raster whose bounds have the size of its canvas, [trim_]
    returns [null] exactly when no pixel of the canvas inside the bounds
    has a nonzero alpha: for a raster at the origin, when no pixel of
    the canvas has.  Otherwise it returns the sub-raster of the hit
    bounds, which are at least one pixel wide and one pixel high. *)
Theorem trim_null_iff (SubRaster : Type)
    (getSubRaster : Raster -> Rectangle -> SubRaster) (raster : Raster) :
  let canvas := raster_canvas raster in
  wf_image canvas -> int32_indexed canvas -> unscaled raster ->
  (trim_ SubRaster getSubRaster raster = None <->
   forall x y, in_window raster x y -> alpha canvas x y = 0) /\
  (at_origin raster ->
   (trim_ SubRaster getSubRaster raster = None <->
    forall x y, in_bounds canvas x y -> alpha canvas x y = 0)) /\
  (forall sub, trim_ SubRaster getSubRaster raster = Some sub ->
     sub = getSubRaster raster (getHitBounds raster) /\
     1 <= rect_width (getHitBounds raster) /\
     1 <= rect_height (getHitBounds raster)).
Proof.
  intros canvas Hwf Hfit Hsame.
  set (imageData := getImageData raster (raster_bounds raster)).
  pose proof (window_wf raster Hsame Hwf) as Hwf'. fold imageData in Hwf'.
  pose proof (window_int32 raster Hsame Hfit) as Hfit'. fold imageData in Hfit'.
  assert (Hscan : getHitBounds raster = scanBounds (width imageData) imageData).
  { rewrite getHitBounds_scan. subst imageData.
    now rewrite (window_width raster Hsame). }
  pose proof Hwf' as (Hw & Hh & _).
  pose proof (scanBounds_range (width imageData) imageData Hw Hh) as Hin.
  cbv zeta in Hin. rewrite <- Hscan in Hin.
  assert (Hsome : (exists i j, alpha imageData i j <> 0) ->
            trim_ SubRaster getSubRaster raster <> None).
  { intros Hex.
    destruct (scanBounds_edges imageData Hwf' Hfit' Hex) as (Hall & _).
    rewrite <- Hscan in Hall.
    destruct Hex as (i & j & Ha). destruct (Hall i j Ha) as [Hx Hy].
    unfold trim_. cbv zeta.
    destruct (Z.eqb_spec (rect_width (getHitBounds raster)) 0); [lia|].
    destruct (Z.eqb_spec (rect_height (getHitBounds raster)) 0); [lia|].
    discriminate. }
  assert (Hnull : trim_ SubRaster getSubRaster raster = None <->
                  forall x y, in_window raster x y -> alpha canvas x y = 0).
  { split.
    - intros Hnone x y Hvis.
      destruct (Z.eq_dec (alpha canvas x y) 0) as [|Hne]; [assumption|].
      exfalso. apply Hsome; [|exact Hnone].
      exists (x - rect_x (raster_bounds raster)),
             (y - rect_y (raster_bounds raster)).
      subst imageData. now rewrite window_alpha_visible.
    - intros Hblank. unfold trim_. cbv zeta.
      rewrite Hscan, (scanBounds_blank imageData Hwf' Hfit').
      + simpl. now rewrite andb_false_r.
      + intros i j _.
        destruct (Z.eq_dec (alpha imageData i j) 0) as [|Hnz]; [assumption|].
        exfalso.
        destruct (window_alpha_nonzero raster i j Hsame Hwf Hnz) as [Hvis Ha].
        apply Ha. now apply Hblank. }
  split; [exact Hnull|]. split.
  - intros Hat. rewrite Hnull. unfold in_window. rewrite Hat.
    split.
    + intros H x y Hxy. apply H. split; [exact Hxy|].
      destruct Hxy as [Hx Hy]. unfold contains. simpl. fold canvas. lia.
    + intros H x y [Hxy _]. now apply H.
  - intros sub. unfold trim_. cbv zeta.
    destruct (Z.eqb_spec (rect_width (getHitBounds raster)) 0);
      [discriminate|].
    destruct (Z.eqb_spec (rect_height (getHitBounds raster)) 0);
      [discriminate|].
    cbn [negb andb]. intros H. injection H as <-.
    split; [reflexivity|]. lia.
Qed.

Lemma trim_null_iff_witness :
  let raster := mkRaster single_pixel_image (mkRectangle 1 0 4 5) in
  (trim_ Rectangle (fun _ bounds => bounds) raster = None <->
   forall x y, in_window raster x y -> alpha single_pixel_image x y = 0) /\
  (at_origin raster ->
   (trim_ Rectangle (fun _ bounds => bounds) raster = None <->
    forall x y, in_bounds single_pixel_image x y ->
                alpha single_pixel_image x y = 0)) /\
  (forall sub,
     trim_ Rectangle (fun _ bounds => bounds) raster = Some sub ->
     sub = getHitBounds raster /\
     1 <= rect_width (getHitBounds raster) /\
     1 <= rect_height (getHitBounds raster)).
Proof.
  apply (trim_null_iff Rectangle (fun _ bounds => bounds)
           (mkRaster single_pixel_image (mkRectangle 1 0 4 5))).
  - apply single_pixel_image_wf.
  - apply single_pixel_image_wf.
  - split; reflexivity.
Defined.

(** X13: [columnBlank_] looks at the rows from [top] up to, not
    including, [bottom] of column [x], and at no other: it is true
    exactly when all those pixels have alpha 0, so it is true for an
    empty range of rows; and when it is false, one of those rows holds a
    pixel of nonzero alpha in that column. *)
Theorem columnBlank_rows (imageData : ImageData) (x top bottom : Z) :
  wf_image imageData -> int32_indexed imageData ->
  0 <= x < width imageData -> 0 <= top -> bottom <= height imageData ->
  (columnBlank_ imageData (width imageData) x top bottom = true <->
   forall y, top <= y < bottom -> alpha imageData x y = 0) /\
  (bottom <= top ->
   columnBlank_ imageData (width imageData) x top bottom = true) /\
  (columnBlank_ imageData (width imageData) x top bottom = false ->
   exists y, top <= y < bottom /\ alpha imageData x y <> 0).
Proof.
  intros Hwf Hfit Hx Htop Hbottom.
  pose proof (columnBlank_spec imageData x top bottom Hwf Hfit Hx Htop Hbottom)
    as Hspec.
  split; [exact Hspec|]. split.
  - intros Hempty. apply Hspec. intros y Hy. lia.
  - now apply columnBlank_false.
Qed.

Lemma columnBlank_rows_witness :
  (columnBlank_ single_pixel_image 4 3 0 4 = true <->
   forall y, 0 <= y < 4 -> alpha single_pixel_image 3 y = 0) /\
  (4 <= 0 -> columnBlank_ single_pixel_image 4 3 0 4 = true) /\
  (columnBlank_ single_pixel_image 4 3 0 4 = false ->
   exists y, 0 <= y < 4 /\ alpha single_pixel_image 3 y <> 0).
Proof.
  apply (columnBlank_rows single_pixel_image 3 0 4).
  - apply single_pixel_image_wf.
  - apply single_pixel_image_wf.
  - simpl. lia.
  - lia.
  - simpl. lia.
Defined.

(** ** Pixel buffers: [colorPixel_], [getColor_] and [matchesColor_] *)

Lemma data_get_outside (d : list Z) (i : Z) :
  i < 0 \/ Z.of_nat (length d) <= i -> data_get d i = None.
Proof.
  intros Hi. unfold data_get. destruct (Z.ltb_spec i 0); [reflexivity|].
  apply lookup_ge_None. lia.
Qed.

Lemma data_set_outside (d : list Z) (i v : Z) :
  i < 0 \/ Z.of_nat (length d) <= i -> data_set d i v = d.
Proof.
  intros Hi. unfold data_set. destruct (Z.ltb_spec i 0); [reflexivity|].
  apply list_insert_ge. lia.
Qed.

(** The four bytes of a pixel above the first row or below the last one
    lie outside the array. *)
Lemma pixel_offset_outside (img : ImageData) (x y k : Z) :
  wf_image img -> 0 <= x < width img -> y < 0 \/ height img <= y ->
  0 <= k <= 3 ->
  let i := (y * width img + x) * 4 + k in
  i < 0 \/ Z.of_nat (length (data img)) <= i.
Proof.
  intros (Hw & Hh & Hlen) Hx Hy Hk i. subst i. rewrite Hlen.
  destruct Hy as [Hy|Hy]; [left|right]; nia.
Qed.

Lemma matchesColor_outside_rows (img : ImageData) (x y : Z) (c : Color) :
  wf_image img -> 0 <= x < width img -> y < 0 \/ height img <= y ->
  matchesColor_ x y img c = false.
Proof.
  intros Hwf Hx Hy. unfold matchesColor_. cbv zeta.
  rewrite (data_get_outside _ _ (pixel_offset_outside img x y 0 Hwf Hx Hy ltac:(lia))).
  reflexivity.
Qed.

(** X14: writing a pixel of the buffer and reading it back.  After
    [colorPixel_] at a pixel inside the buffer, with a colour whose
    channels are bytes, [getColor_] returns that colour at the pixel,
    [matchesColor_] accepts that colour and no other, every other pixel
    reads as before, and the buffer keeps its width, height and length. *)
Theorem colorPixel_read_back (imageData : ImageData) (x y : Z) (newColor : Color) :
  wf_image imageData -> in_bounds imageData x y -> byte_color newColor ->
  let written := colorPixel_ x y imageData newColor in
  getColor_ x y written = newColor /\
  (forall c, matchesColor_ x y written c = true <-> c = newColor) /\
  (forall x' y', (x', y') <> (x, y) ->
     getColor_ x' y' written = getColor_ x' y' imageData) /\
  width written = width imageData /\
  height written = height imageData /\
  length (data written) = length (data imageData).
Proof.
  intros Hwf Hin _ written.
  pose proof (colorPixel_wf x y imageData newColor Hwf) as Hwf'.
  fold written in Hwf'.
  assert (Hsame : getColor_ x y written = newColor)
    by now apply getColor_colorPixel_same.
  split; [exact Hsame|]. split; [|split; [|split; [|split]]].
  - intros c. rewrite (matchesColor_true written x y c Hwf' Hin), Hsame.
    split; intros H; now symmetry.
  - intros x' y' Hne. now apply getColor_colorPixel_other.
  - reflexivity.
  - reflexivity.
  - destruct Hwf as (_ & _ & Hlen), Hwf' as (_ & _ & Hlen').
    change (width written) with (width imageData) in Hlen'.
    change (height written) with (height imageData) in Hlen'. lia.
Qed.

Lemma colorPixel_read_back_witness :
  let written := colorPixel_ 1 2 ring_5x5 (RGBA 0 128 255 255) in
  getColor_ 1 2 written = RGBA 0 128 255 255 /\
  (forall c, matchesColor_ 1 2 written c = true <-> c = RGBA 0 128 255 255) /\
  (forall x' y', (x', y') <> (1, 2) ->
     getColor_ x' y' written = getColor_ x' y' ring_5x5) /\
  width written = 5 /\
  height written = 5 /\
  length (data written) = length (data ring_5x5).
Proof.
  apply (colorPixel_read_back ring_5x5 1 2 (RGBA 0 128 255 255) ring_5x5_wf).
  - apply in_bounds_of_test. reflexivity.
  - unfold byte_color. simpl. lia.
Defined.

(** X15: [matchesColor_] and [colorPixel_] do not check their
    coordinates against the buffer.  A column [x + width] of row [y] is
    column [x] of row [y + 1].  In a row above the first or below the
    last one, [matchesColor_] finds no colour and [colorPixel_] leaves
    the buffer as it is. *)
Theorem pixel_access_unchecked (imageData : ImageData) (x y : Z) (c : Color) :
  wf_image imageData ->
  matchesColor_ (x + width imageData) y imageData c
  = matchesColor_ x (y + 1) imageData c /\
  colorPixel_ (x + width imageData) y imageData c
  = colorPixel_ x (y + 1) imageData c /\
  (0 <= x < width imageData -> y < 0 \/ height imageData <= y ->
   matchesColor_ x y imageData c = false /\
   colorPixel_ x y imageData c = imageData).
Proof.
  intros Hwf.
  assert (Hoff : (y * width imageData + (x + width imageData)) * 4
                 = ((y + 1) * width imageData + x) * 4) by ring.
  split; [|split].
  - unfold matchesColor_. cbv zeta. now rewrite Hoff.
  - unfold colorPixel_. cbv zeta. now rewrite Hoff.
  - intros Hx Hy. split; [now apply matchesColor_outside_rows|].
    unfold colorPixel_. cbv zeta.
    do 4 (rewrite (data_set_outside (data imageData))
            by (apply (pixel_offset_outside imageData x y);
                [assumption..|lia])).
    now destruct imageData.
Qed.

Lemma pixel_access_unchecked_witness :
  matchesColor_ (0 + 5) (-1) ring_5x5 (RGBA 255 255 255 255)
  = matchesColor_ 0 (-1 + 1) ring_5x5 (RGBA 255 255 255 255) /\
  colorPixel_ (0 + 5) (-1) ring_5x5 (RGBA 255 255 255 255)
  = colorPixel_ 0 (-1 + 1) ring_5x5 (RGBA 255 255 255 255) /\
  (0 <= 0 < 5 -> -1 < 0 \/ 5 <= -1 ->
   matchesColor_ 0 (-1) ring_5x5 (RGBA 255 255 255 255) = false /\
   colorPixel_ 0 (-1) ring_5x5 (RGBA 255 255 255 255) = ring_5x5).
Proof.
  apply (pixel_access_unchecked ring_5x5 0 (-1) (RGBA 255 255 255 255)
           ring_5x5_wf).
Defined.

(** ** FloodFiller: repeated fills, and the two fills compared *)

(** A pixel outside the buffer reads as transparent black. *)
Lemma getColor_outside (img : ImageData) (x y : Z) :
  ~ in_bounds img x y -> getColor_ x y img = RGBA 0 0 0 0.
Proof.
  intros Hout. unfold getColor_.
  destruct (_ && _ && _ && _) eqn:E; [|reflexivity].
  exfalso. apply Hout. now apply in_bounds_of_test.
Qed.

(** Two buffers of the same size that agree on their pixels agree on
    what [getColor_] returns for any coordinates. *)
Lemma getColor_everywhere (a b : ImageData) :
  width a = width b -> height a = height b ->
  (forall i j, in_bounds a i j -> getColor_ i j a = getColor_ i j b) ->
  forall i j, getColor_ i j a = getColor_ i j b.
Proof.
  intros Hw Hh Hin i j.
  destruct ((0 <=? i) && (i <? width a) && (0 <=? j) && (j <? height a)) eqn:E.
  - apply Hin. now apply in_bounds_of_test.
  - unfold getColor_. rewrite <- Hw, <- Hh, E. reflexivity.
Qed.

(** X16: a scoped fill is idempotent.  After [floodFill] has recoloured
    the component of the seed, the same call on the resulting buffer, or
    [floodFillAll] with the same arguments, returns false and leaves the
    buffer as it is. *)
Theorem floodFill_twice (fillStyleToColor_ : string -> Color)
    (x y : number) (color : string) (context : ImageData) (extra : nat) :
  let seed := (toInt32 x, toInt32 y) in
  let oldColor := getColor_ seed.1 seed.2 context in
  let newColor := fillStyleToColor_ color in
  wf_image context -> in_bounds context seed.1 seed.2 ->
  oldColor <> newColor ->
  exists imageData : ImageData,
    floodFill fillStyleToColor_
      (2 * Z.to_nat (width context * height context) + 1 + extra) x y color context
    = Some (true, imageData) /\
    (forall fuel : nat,
        floodFill fillStyleToColor_ fuel x y color imageData
        = Some (false, imageData)) /\
    floodFillAll fillStyleToColor_ x y color imageData = (false, imageData).
Proof.
  intros seed oldColor newColor Hwf Hin Hne.
  destruct (floodFill_runs fillStyleToColor_ x y color context
              (2 * Z.to_nat (width context * height context) + 1 + extra)
              Hwf Hin Hne) as (img & _ & Hrun & Hinv).
  { pose proof (count_color_le context (getColor_ (toInt32 x) (toInt32 y) context)).
    simpl. lia. }
  fold seed oldColor newColor in Hinv.
  destruct (fill_inv_final context oldColor newColor seed Hne img Hinv)
    as [Hcomp _].
  assert (Hseed : getColor_ (toInt32 x) (toInt32 y) img = fillStyleToColor_ color).
  { apply (Hcomp seed). now apply connected_seed. }
  apply color_eqb_eq in Hseed.
  exists img. split; [exact Hrun|]. split.
  - intros fuel. unfold floodFill. now rewrite Hseed.
  - unfold floodFillAll. now rewrite Hseed.
Qed.

Lemma floodFill_twice_witness :
  exists imageData : ImageData,
    floodFill (fun _ => RGBA 255 0 0 255) 51 (Fin 2) (Fin 2) "red" ring_5x5
    = Some (true, imageData) /\
    (forall fuel : nat,
        floodFill (fun _ => RGBA 255 0 0 255) fuel (Fin 2) (Fin 2) "red" imageData
        = Some (false, imageData)) /\
    floodFillAll (fun _ => RGBA 255 0 0 255) (Fin 2) (Fin 2) "red" imageData
    = (false, imageData).
Proof.
  apply (floodFill_twice (fun _ => RGBA 255 0 0 255) (Fin 2) (Fin 2) "red"
           ring_5x5 0 ring_5x5_wf).
  - apply in_bounds_of_test. reflexivity.
  - discriminate.
Defined.

(** X17: a global fill is idempotent.  After [floodFillAll] from a seed
    inside the buffer, the same call on the resulting buffer, or
    [floodFill] with the same arguments, returns false and leaves the
    buffer as it is; and no pixel of the sampled colour is left. *)
Theorem floodFillAll_twice (fillStyleToColor_ : string -> Color)
    (x y : number) (color : string) (context : ImageData) :
  let seed := (toInt32 x, toInt32 y) in
  let oldColor := getColor_ seed.1 seed.2 context in
  let newColor := fillStyleToColor_ color in
  wf_image context -> in_bounds context seed.1 seed.2 ->
  oldColor <> newColor ->
  exists imageData : ImageData,
    floodFillAll fillStyleToColor_ x y color context = (true, imageData) /\
    floodFillAll fillStyleToColor_ x y color imageData = (false, imageData) /\
    (forall fuel : nat,
        floodFill fillStyleToColor_ fuel x y color imageData
        = Some (false, imageData)) /\
    (forall i j, in_bounds context i j -> getColor_ i j imageData <> oldColor).
Proof.
  intros seed oldColor newColor Hwf Hin Hne.
  destruct (floodFillAll_general fillStyleToColor_ x y color context Hwf Hne)
    as (img & Hrun & _ & _ & _ & Hpix).
  fold oldColor newColor in Hpix.
  assert (Hseed : getColor_ (toInt32 x) (toInt32 y) img = fillStyleToColor_ color).
  { change (getColor_ seed.1 seed.2 img = newColor).
    rewrite (Hpix _ _ Hin). now rewrite decide_True. }
  apply color_eqb_eq in Hseed.
  exists img. split; [exact Hrun|]. split; [|split].
  - unfold floodFillAll. now rewrite Hseed.
  - intros fuel. unfold floodFill. now rewrite Hseed.
  - intros i j Hij. rewrite (Hpix i j Hij).
    destruct (decide _) as [|Hd]; [|exact Hd].
    intros H. apply Hne. now symmetry.
Qed.

Lemma floodFillAll_twice_witness :
  exists imageData : ImageData,
    floodFillAll (fun _ => RGBA 255 0 0 255) (Fin 2) (Fin 2) "red" ring_5x5
    = (true, imageData) /\
    floodFillAll (fun _ => RGBA 255 0 0 255) (Fin 2) (Fin 2) "red" imageData
    = (false, imageData) /\
    (forall fuel : nat,
        floodFill (fun _ => RGBA 255 0 0 255) fuel (Fin 2) (Fin 2) "red" imageData
        = Some (false, imageData)) /\
    (forall i j, in_bounds ring_5x5 i j ->
                 getColor_ i j imageData <> RGBA 255 255 255 255).
Proof.
  apply (floodFillAll_twice (fun _ => RGBA 255 0 0 255) (Fin 2) (Fin 2) "red"
           ring_5x5 ring_5x5_wf).
  - apply in_bounds_of_test. reflexivity.
  - discriminate.
Defined.

(** X18: the scoped fill does part of what the global fill does.  From
    the same seed and colour, every pixel either has the same colour
    after [floodFill] and after [floodFillAll], or it has the sampled
    colour, lies outside the component of the seed, and is recoloured by
    [floodFillAll] only.  When all pixels of the sampled colour are
    connected to the seed, the two results agree at every pixel. *)
Theorem floodFill_within_floodFillAll (fillStyleToColor_ : string -> Color)
    (x y : number) (color : string) (context : ImageData) (extra : nat) :
  let seed := (toInt32 x, toInt32 y) in
  let oldColor := getColor_ seed.1 seed.2 context in
  let newColor := fillStyleToColor_ color in
  wf_image context -> in_bounds context seed.1 seed.2 ->
  oldColor <> newColor ->
  exists scoped everywhere : ImageData,
    floodFill fillStyleToColor_
      (2 * Z.to_nat (width context * height context) + 1 + extra) x y color context
    = Some (true, scoped) /\
    floodFillAll fillStyleToColor_ x y color context = (true, everywhere) /\
    (forall i j, in_bounds context i j ->
       getColor_ i j scoped = getColor_ i j everywhere \/
       (getColor_ i j scoped = oldColor /\
        getColor_ i j everywhere = newColor /\
        ~ connected context oldColor seed (i, j))) /\
    ((forall i j, in_bounds context i j -> getColor_ i j context = oldColor ->
                  connected context oldColor seed (i, j)) ->
     forall i j, getColor_ i j scoped = getColor_ i j everywhere).
Proof.
  intros seed oldColor newColor Hwf Hin Hne.
  destruct (floodFill_runs fillStyleToColor_ x y color context
              (2 * Z.to_nat (width context * height context) + 1 + extra)
              Hwf Hin Hne) as (scoped & _ & Hrun & Hinv).
  { pose proof (count_color_le context (getColor_ (toInt32 x) (toInt32 y) context)).
    simpl. lia. }
  fold seed oldColor newColor in Hinv.
  destruct (fill_inv_final context oldColor newColor seed Hne scoped Hinv)
    as [Hcomp _].
  destruct Hinv as (_ & Hw & Hh & Hpix & _).
  destruct (floodFillAll_general fillStyleToColor_ x y color context Hwf Hne)
    as (everywhere & Hall & _ & Hw' & Hh' & Hpix').
  fold oldColor newColor in Hpix'.
  assert (Hcases : forall i j, in_bounds context i j ->
             getColor_ i j scoped = getColor_ i j everywhere \/
             (getColor_ i j scoped = oldColor /\
              getColor_ i j everywhere = newColor /\
              ~ connected context oldColor seed (i, j))).
  { intros i j Hij. rewrite (Hpix' i j Hij).
    destruct (Hpix i j) as [Hsame | (Hold & Hnew & _)].
    - destruct (decide _) as [Hc|Hc].
      + right. split; [rewrite Hsame; exact Hc|]. split; [reflexivity|].
        intros Hconn. specialize (Hcomp (i, j) Hconn). simpl in Hcomp.
        apply Hne. transitivity (getColor_ i j scoped); [|exact Hcomp].
        rewrite Hsame. now symmetry.
      + left. exact Hsame.
    - left. rewrite decide_True by exact Hold. exact Hnew. }
  exists scoped, everywhere.
  split; [exact Hrun|]. split; [exact Hall|]. split; [exact Hcases|].
  intros Hconn. apply getColor_everywhere; [congruence | congruence |].
  intros i j Hij.
  assert (Hij' : in_bounds context i j)
    by (unfold in_bounds in *; rewrite <- Hw, <- Hh; exact Hij).
  destruct (Hcases i j Hij') as [Heq | (Hold & _ & Hnot)]; [exact Heq|].
  exfalso. apply Hnot, Hconn; [exact Hij'|].
  destruct (Hpix i j) as [Hsame | (Hold' & _)]; [|exact Hold'].
  rewrite <- Hsame. exact Hold.
Qed.

Lemma floodFill_within_floodFillAll_witness :
  let seed := (2, 2) in
  let oldColor := RGBA 255 255 255 255 in
  let newColor := RGBA 255 0 0 255 in
  exists scoped everywhere : ImageData,
    floodFill (fun _ => newColor) 51 (Fin 2) (Fin 2) "red" ring_5x5
    = Some (true, scoped) /\
    floodFillAll (fun _ => newColor) (Fin 2) (Fin 2) "red" ring_5x5
    = (true, everywhere) /\
    (forall i j, in_bounds ring_5x5 i j ->
       getColor_ i j scoped = getColor_ i j everywhere \/
       (getColor_ i j scoped = oldColor /\
        getColor_ i j everywhere = newColor /\
        ~ connected ring_5x5 oldColor seed (i, j))) /\
    ((forall i j, in_bounds ring_5x5 i j -> getColor_ i j ring_5x5 = oldColor ->
                  connected ring_5x5 oldColor seed (i, j)) ->
     forall i j, getColor_ i j scoped = getColor_ i j everywhere).
Proof.
  apply (floodFill_within_floodFillAll (fun _ => RGBA 255 0 0 255)
           (Fin 2) (Fin 2) "red" ring_5x5 0 ring_5x5_wf).
  - apply in_bounds_of_test. reflexivity.
  - discriminate.
Defined.

(** ** FloodFiller: seeds outside the buffer, and the growth of the stack *)

(** X19: a scoped fill whose seed lies in a column of the buffer but
    above its first row, or more than one row below its last row,
    samples transparent black and recolours nothing; unless the fill
    colour is transparent black, [floodFill] then returns true although
    the buffer is as it was. *)
Theorem floodFill_outside_rows (fillStyleToColor_ : string -> Color)
    (fuel : nat) (x y : number) (color : string) (context : ImageData) :
  wf_image context ->
  0 <= toInt32 x < width context ->
  toInt32 y < 0 \/ height context < toInt32 y ->
  fillStyleToColor_ color <> RGBA 0 0 0 0 ->
  floodFill fillStyleToColor_ (S fuel) x y color context = Some (true, context).
Proof.
  intros Hwf Hx Hy Hne. unfold floodFill. cbv zeta.
  rewrite (getColor_outside context (toInt32 x) (toInt32 y))
    by (unfold in_bounds; lia).
  assert (color_eqb (RGBA 0 0 0 0) (fillStyleToColor_ color) = false) as ->.
  { apply color_eqb_neq. intros H. now apply Hne. }
  set (old := RGBA 0 0 0 0). set (new := fillStyleToColor_ color).
  assert (Hcall : floodFillInternal_ (toInt32 x) (toInt32 y) context new old []
                  = (context, [])).
  { unfold floodFillInternal_.
    destruct Hy as [Hy|Hy].
    - replace (Z.to_nat (toInt32 y)) with O by lia. simpl climb.
      destruct (Z.to_nat (height context - toInt32 y)) as [|n]; [reflexivity|].
      simpl. destruct (_ <? _); [|reflexivity].
      now rewrite matchesColor_outside_rows by (try assumption; lia).
    - assert (climb (Z.to_nat (toInt32 y)) (toInt32 x) (toInt32 y) context old
              = toInt32 y) as ->.
      { destruct (Z.to_nat (toInt32 y)) as [|n]; [reflexivity|]. simpl.
        rewrite matchesColor_outside_rows by (try assumption; lia).
        now rewrite andb_false_r. }
      replace (Z.to_nat (height context - toInt32 y)) with O by lia.
      reflexivity. }
  simpl fillLoop. rewrite Hcall. now destruct fuel.
Qed.

Lemma floodFill_outside_rows_witness :
  floodFill (fun _ => RGBA 255 0 0 255) 1 (Fin 2) (Fin (-1)) "red" ring_5x5
  = Some (true, ring_5x5).
Proof.
  apply (floodFill_outside_rows (fun _ => RGBA 255 0 0 255) 0 (Fin 2) (Fin (-1))
           "red" ring_5x5 ring_5x5_wf).
  - vm_compute. split; [discriminate | reflexivity].
  - left. reflexivity.
  - discriminate.
Defined.

(** X20: one call of [floodFillInternal_] only pushes onto the stack,
    and it pushes at most two entries for each pixel that it recolours:
    the stack grows by no more than twice the drop in the number of
    pixels of the old colour.  The buffer keeps its size. *)
Theorem floodFillInternal_pushes (x y : Z) (imageData : ImageData)
    (newColor oldColor : Color) (stack : list (Z * Z)) :
  wf_image imageData -> in_bounds imageData x y -> oldColor <> newColor ->
  let result := floodFillInternal_ x y imageData newColor oldColor stack in
  exists pushes : list (Z * Z),
    result.2 = pushes ++ stack /\
    (length pushes + 2 * count_color result.1 oldColor
     <= 2 * count_color imageData oldColor)%nat /\
    wf_image result.1 /\
    width result.1 = width imageData /\
    height result.1 = height imageData.
Proof.
  intros Hwf Hin Hne result.
  destruct (floodFillInternal_spec oldColor newColor x y imageData stack Hwf Hin)
    as (top & bottom & pushes & _ & _ & _ & _ & _ & _ & Hwf' & Hw & Hh & _ &
        Hst & _).
  pose proof (floodFillInternal_potential oldColor newColor Hne x y imageData
                stack Hwf Hin) as Hpot.
  cbv zeta in Hpot. fold result in Hwf', Hw, Hh, Hst, Hpot.
  exists pushes. split; [exact Hst|].
  rewrite Hst, length_app in Hpot.
  split; [lia|]. now split.
Qed.

Lemma floodFillInternal_pushes_witness :
  let result :=
    floodFillInternal_ 0 2 ring_5x5 (RGBA 255 0 0 255) (RGBA 255 255 255 255)
      [(4, 4)] in
  exists pushes : list (Z * Z),
    result.2 = pushes ++ [(4, 4)] /\
    (length pushes + 2 * count_color result.1 (RGBA 255 255 255 255)
     <= 2 * count_color ring_5x5 (RGBA 255 255 255 255))%nat /\
    wf_image result.1 /\
    width result.1 = 5 /\
    height result.1 = 5.
Proof.
  apply (floodFillInternal_pushes 0 2 ring_5x5 (RGBA 255 0 0 255)
           (RGBA 255 255 255 255) [(4, 4)] ring_5x5_wf).
  - apply in_bounds_of_test. reflexivity.
  - discriminate.
Defined.

(** X21: called on a pixel of the old colour, [floodFillInternal_]
    recolours the vertical run of that pixel and nothing else: the rows
    from [top] up to, not including, [bottom] of column [x], where the
    run cannot be extended upward or downward.  Every entry that it
    pushes is a pixel of the old colour next to the run, on its left or
    on its right. *)
Theorem floodFillInternal_run (x y : Z) (imageData : ImageData)
    (newColor oldColor : Color) (stack : list (Z * Z)) :
  wf_image imageData -> in_bounds imageData x y ->
  getColor_ x y imageData = oldColor ->
  let result := floodFillInternal_ x y imageData newColor oldColor stack in
  exists (top bottom : Z) (pushes : list (Z * Z)),
    0 <= top <= y /\ y < bottom <= height imageData /\
    (forall r, top <= r < bottom -> getColor_ x r imageData = oldColor) /\
    (top = 0 \/ getColor_ x (top - 1) imageData <> oldColor) /\
    (bottom = height imageData \/ getColor_ x bottom imageData <> oldColor) /\
    (forall x' y',
        getColor_ x' y' result.1 =
        if decide (x' = x /\ top <= y' < bottom)
        then newColor else getColor_ x' y' imageData) /\
    result.2 = pushes ++ stack /\
    (forall p, p ∈ pushes ->
       (p.1 = x - 1 \/ p.1 = x + 1) /\ top <= p.2 < bottom /\
       in_bounds imageData p.1 p.2 /\ getColor_ p.1 p.2 imageData = oldColor).
Proof.
  intros Hwf Hin Hold result.
  destruct (floodFillInternal_spec oldColor newColor x y imageData stack Hwf Hin)
    as (top & bottom & pushes & Htop & Hbot & Habove & Hstop & Hrun & Hstop' &
        _ & _ & _ & Hpix & Hst & Hpush & _).
  fold result in Hpix, Hst.
  assert (Hy : y < bottom).
  { destruct (Z_lt_le_dec y bottom) as [|Hle]; [assumption|]. exfalso.
    destruct Hin as [_ Hyh].
    destruct Hstop' as [Hb|Hb]; [lia|]. apply Hb.
    destruct (Z.eq_dec bottom y) as [->|]; [exact Hold|].
    apply Habove. lia. }
  exists top, bottom, pushes.
  split; [exact Htop|]. split; [lia|]. split; [exact Hrun|].
  split; [exact Hstop|]. split; [exact Hstop'|]. split; [exact Hpix|].
  split; [exact Hst|]. exact Hpush.
Qed.

Lemma floodFillInternal_run_witness :
  let result :=
    floodFillInternal_ 0 2 ring_5x5 (RGBA 255 0 0 255) (RGBA 255 255 255 255)
      [] in
  exists (top bottom : Z) (pushes : list (Z * Z)),
    0 <= top <= 2 /\ 2 < bottom <= 5 /\
    (forall r, top <= r < bottom ->
       getColor_ 0 r ring_5x5 = RGBA 255 255 255 255) /\
    (top = 0 \/ getColor_ 0 (top - 1) ring_5x5 <> RGBA 255 255 255 255) /\
    (bottom = 5 \/ getColor_ 0 bottom ring_5x5 <> RGBA 255 255 255 255) /\
    (forall x' y',
        getColor_ x' y' result.1 =
        if decide (x' = 0 /\ top <= y' < bottom)
        then RGBA 255 0 0 255 else getColor_ x' y' ring_5x5) /\
    result.2 = pushes ++ [] /\
    (forall p, p ∈ pushes ->
       (p.1 = 0 - 1 \/ p.1 = 0 + 1) /\ top <= p.2 < bottom /\
       in_bounds ring_5x5 p.1 p.2 /\
       getColor_ p.1 p.2 ring_5x5 = RGBA 255 255 255 255).
Proof.
  apply (floodFillInternal_run 0 2 ring_5x5 (RGBA 255 0 0 255)
           (RGBA 255 255 255 255) [] ring_5x5_wf).
  - apply in_bounds_of_test. reflexivity.
  - reflexivity.
Defined.
